(** * Verification of the parameter-sync logic of [src/builder.js]

    The development is a shallow embedding of the reconciliation code of the
    control panel: the snapshot decoder [parseSimulationState], the snapshot
    application [updateVariablesFromServer], the range clamp [clampValue],
    the event handlers of [VariableComponent] (the two step buttons and
    [applyEdit]), the socket message handler and the outbound encoder
    [sendVariableUpdate].

    Modelling conventions.
    - A JavaScript number is a [number]: NaN, the two infinities, or the
      fraction that a finite binary64 number is.  Every operation rounds
      its exact result to binary64 as IEEE 754 does (to the nearest
      number, to the even one in a tie, to an infinity on overflow):
      [round64].  The two zeros are identified.  A decimal literal of the
      source that is not a binary64 number, as [0.01], is [round64] of its
      fraction.  [parseFloat], [parseInt] and [Math.pow] are taken as
      correctly rounded, and [toString] as giving the shortest digits that
      read back as the number.
    - A JavaScript string is a Rocq [string]; its characters stand for the
      code units below 256, so the white space of [trim] and of the regular
      expression class [\s] is TAB, LF, VT, FF, CR, SPACE and NBSP.
    - The object built by the decoder is a finite map of its own properties
      ([gmap string number]); the two places where the prototype of an
      object literal is observable (assignment to [__proto__], and the
      method lookup [serverState.hasOwnProperty]) are written out.
    - The array [variables] is a list of records, mutated in place by the
      handlers; a handler is a function from the state before to the state
      after, together with its completion (normal, or a thrown exception)
      where it can throw.  The transport is the list of the messages sent
      so far.  Console output and redraw requests are left out. *)

From Stdlib Require Import ZArith QArith Qround Qpower Lqa String Ascii List Lia
  Bool.
From stdpp Require Import base option gmap strings.

Local Open Scope Z_scope.
Local Open Scope Q_scope.
Local Open Scope list_scope.
Local Open Scope string_scope.

(** ** Numbers *)

Inductive number : Type :=
| NaN
| PosInf
| NegInf
| Fin (q : Q).

Definition Qsign (q : Q) : comparison := Qcompare q 0.

(** [- a] *)
Definition nneg (a : number) : number :=
  match a with
  | NaN => NaN
  | PosInf => NegInf
  | NegInf => PosInf
  | Fin x => Fin (Qred (- x))
  end.

(** *** binary64

    A finite Number is a fraction [m * 2^e] with [|m| < 2^53] and
    [-1074 <= e <= 971].  The result of an operation is the Number nearest
    to the exact result, the one with an even [m] in a tie
    (roundTiesToEven), and an infinity when that would be [2^1024] or
    more. *)

Definition pow2 (e : Z) : Q := 2 ^ e.

(** The binade of a positive fraction: the [e] with [2^e <= q < 2^(e+1)]. *)
Definition binade (q : Q) : Z :=
  let e := (Z.log2 (Qnum q) - Z.log2 (Zpos (Qden q)))%Z in
  if Qle_bool (pow2 e) q then e else (e - 1)%Z.

(** The integer nearest to a fraction, the even one in a tie. *)
Definition round_half_even (x : Q) : Z :=
  let f := Qfloor x in
  match Qcompare (x - inject_Z f) (1 # 2) with
  | Lt => f
  | Gt => (f + 1)%Z
  | Eq => if Z.even f then f else (f + 1)%Z
  end.

(** The spacing of the Numbers around a positive fraction: 52 binary
    places below its binade, and [2^(-1074)] for the subnormal ones. *)
Definition spacing (q : Q) : Q := pow2 (Z.max (binade q - 52) (-1074)).

(** The Number nearest to a positive fraction. *)
Definition round64_pos (q : Q) : number :=
  let r := Qred (inject_Z (round_half_even (q / spacing q)) * spacing q) in
  if Qle_bool (pow2 1024) r then PosInf else Fin r.

(** The Number value of a fraction. *)
Definition round64 (q : Q) : number :=
  match Qsign q with
  | Eq => Fin 0
  | Gt => round64_pos q
  | Lt => nneg (round64_pos (- q))
  end.

Arguments round64 : simpl never.

(** Half the distance between the subnormal Numbers: the most that a
    rounding can be off near zero. *)
Definition tiny : Q := pow2 (-1075).

(** [a + b] *)
Definition nadd (a b : number) : number :=
  match a, b with
  | NaN, _ | _, NaN => NaN
  | PosInf, NegInf | NegInf, PosInf => NaN
  | PosInf, _ | _, PosInf => PosInf
  | NegInf, _ | _, NegInf => NegInf
  | Fin x, Fin y => round64 (x + y)
  end.

(** [a - b] *)
Definition nsub (a b : number) : number := nadd a (nneg b).

(** [a * b] *)
Definition nmul (a b : number) : number :=
  match a, b with
  | NaN, _ | _, NaN => NaN
  | Fin x, Fin y => round64 (x * y)
  | Fin x, PosInf | PosInf, Fin x =>
      match Qsign x with Eq => NaN | Gt => PosInf | Lt => NegInf end
  | Fin x, NegInf | NegInf, Fin x =>
      match Qsign x with Eq => NaN | Gt => NegInf | Lt => PosInf end
  | PosInf, PosInf | NegInf, NegInf => PosInf
  | PosInf, NegInf | NegInf, PosInf => NegInf
  end.

(** [a / b]; a zero divisor counts as the positive zero. *)
Definition ndiv (a b : number) : number :=
  match a, b with
  | NaN, _ | _, NaN => NaN
  | Fin x, Fin y =>
      match Qsign y with
      | Eq => match Qsign x with Eq => NaN | Gt => PosInf | Lt => NegInf end
      | _ => round64 (x / y)
      end
  | Fin _, PosInf | Fin _, NegInf => Fin 0
  | PosInf, Fin y => match Qsign y with Lt => NegInf | _ => PosInf end
  | NegInf, Fin y => match Qsign y with Lt => PosInf | _ => NegInf end
  | PosInf, _ | NegInf, _ => NaN
  end.

(** [a < b] and [a <= b]: false as soon as an operand is NaN. *)
Definition nltb (a b : number) : bool :=
  match a, b with
  | NaN, _ | _, NaN => false
  | _, NegInf => false
  | NegInf, _ => true
  | PosInf, _ => false
  | _, PosInf => true
  | Fin x, Fin y => match Qcompare x y with Lt => true | _ => false end
  end.

Definition nleb (a b : number) : bool :=
  match a, b with
  | NaN, _ | _, NaN => false
  | NegInf, _ => true
  | _, PosInf => true
  | _, NegInf => false
  | PosInf, _ => false
  | Fin x, Fin y => match Qcompare x y with Gt => false | _ => true end
  end.

(** Equality of the values denoted: fractions are compared as rationals. *)
Definition number_eq (a b : number) : Prop :=
  match a, b with
  | NaN, NaN | PosInf, PosInf | NegInf, NegInf => True
  | Fin x, Fin y => x == y
  | _, _ => False
  end.

Definition is_NaN (a : number) : bool :=
  match a with NaN => true | _ => false end.

(** ToBoolean on a number: NaN and zero are falsy. *)
Definition truthy (a : number) : bool :=
  match a with
  | NaN => false
  | Fin x => match Qsign x with Eq => false | _ => true end
  | _ => true
  end.

(** [a || b] on numbers. *)
Definition nor (a b : number) : number := if truthy a then a else b.

(** [Math.round]: the nearest integer, a tie going to the larger one.  The
    result is exact: the nearest integer of a binary64 number is one. *)
Definition Math_round (a : number) : number :=
  match a with
  | Fin x => Fin (inject_Z (Qfloor (x + (1 # 2))))
  | _ => a
  end.

(** [Math.max(a, b)] and [Math.min(a, b)]: NaN is contagious. *)
Definition Math_max (a b : number) : number :=
  match a, b with
  | NaN, _ | _, NaN => NaN
  | _, _ => if nltb a b then b else a
  end.

Definition Math_min (a b : number) : number :=
  match a, b with
  | NaN, _ | _, NaN => NaN
  | _, _ => if nltb b a then b else a
  end.

(** [Math.pow(b, e)] for the exponents the code uses, the length of a
    string.  The code raises 10 to at most the power 22 (the longest
    fraction a Number prints with), and up to there each product is
    exact. *)
Fixpoint Math_pow (b : number) (e : nat) : number :=
  match e with
  | O => Fin 1
  | S e' => nmul b (Math_pow b e')
  end.

(** [Math.PI], the binary64 number 3.141592653589793: the fraction
    884279719003555 / 2^48. *)
Definition PI_value : Q := 884279719003555 # 281474976710656.
Definition Math_PI : number := Fin PI_value.

(** ** Strings *)

Definition code (c : ascii) : N := N_of_ascii c.

Definition in_range (lo hi : N) (c : ascii) : bool :=
  (N.leb lo (code c) && N.leb (code c) hi)%bool.

(** White space of [trim], of [\s] and of the number parsers. *)
Definition isWhiteSpace (c : ascii) : bool :=
  (in_range 9 13 c || N.eqb (code c) 32 || N.eqb (code c) 160)%bool.

(** [\d] *)
Definition isDigit (c : ascii) : bool := in_range 48 57 c.

(** [\w] *)
Definition isWord (c : ascii) : bool :=
  (in_range 97 122 c || in_range 65 90 c || isDigit c || N.eqb (code c) 95)%bool.

Definition ascii_eqb (a b : ascii) : bool := N.eqb (code a) (code b).

Fixpoint trimStart (s : string) : string :=
  match s with
  | String c s' => if isWhiteSpace c then trimStart s' else s
  | EmptyString => EmptyString
  end.

Fixpoint trimEnd (s : string) : string :=
  match s with
  | String c s' =>
      match trimEnd s' with
      | EmptyString => if isWhiteSpace c then EmptyString else String c EmptyString
      | t => String c t
      end
  | EmptyString => EmptyString
  end.

(** [s.trim()] *)
Definition trim (s : string) : string := trimEnd (trimStart s).

(** [s.startsWith(p)] *)
Fixpoint startsWith (s p : string) : bool :=
  match p, s with
  | EmptyString, _ => true
  | String a p', String b s' => (ascii_eqb a b && startsWith s' p')%bool
  | String _ _, EmptyString => false
  end.

(** [s.substring(n)] for a natural [n]: the text from index [n] on. *)
Fixpoint substring_from (n : nat) (s : string) : string :=
  match n, s with
  | O, _ => s
  | S n', String _ s' => substring_from n' s'
  | S _, EmptyString => EmptyString
  end.

(** [s.slice(0, n)] for a natural [n]: the first [n] characters. *)
Fixpoint take_string (n : nat) (s : string) : string :=
  match n, s with
  | S n', String c s' => String c (take_string n' s')
  | _, _ => EmptyString
  end.

(** [s.endsWith(p)] *)
Definition endsWith (s p : string) : bool :=
  (Nat.leb (String.length p) (String.length s)
   && String.eqb (substring_from (String.length s - String.length p) s) p)%bool.

(** [s.slice(0, -n)]: the text without its last [n] characters. *)
Definition slice_to_end_minus (n : nat) (s : string) : string :=
  take_string (String.length s - n) s.

(** [s.split(sep)] for a one-character separator: the text between the
    separators, in order; the empty text gives one empty piece. *)
Fixpoint split (sep : ascii) (s : string) : list string :=
  match s with
  | EmptyString => EmptyString :: nil
  | String c s' =>
      if ascii_eqb c sep then EmptyString :: split sep s'
      else match split sep s' with
           | piece :: rest => String c piece :: rest
           | nil => String c EmptyString :: nil
           end
  end.

(** ** Regular expressions

    The subset of the pattern language the source uses: anchors, literal
    characters, the classes [\w], [\d], [\s], the greedy quantifiers [?],
    [*], [+] on one character, and capture groups.  A pattern is the list of
    its items in order; [IOpen] and [IClose] are the parentheses of a
    group.  Matching backtracks as the JavaScript matcher does: a greedy
    quantifier first takes all it can and gives characters back one by one
    until the rest of the pattern matches. *)

Inductive atom : Type :=
| AChar (c : ascii)
| AWord
| ADigit
| ASpace.

Inductive item : Type :=
| IBol
| IEol
| IOne (a : atom)
| IOpt (a : atom)
| IStar (a : atom)
| IPlus (a : atom)
| IOpen
| IClose.

Definition atom_matches (a : atom) (c : ascii) : bool :=
  match a with
  | AChar d => ascii_eqb c d
  | AWord => isWord c
  | ADigit => isDigit c
  | ASpace => isWhiteSpace c
  end.

(** The result of a successful run: the positions of the group parentheses
    met, in order, and the position where the match ends. *)
Definition run_result : Type := (list nat * nat)%type.

Definition mark (i : nat) (r : option run_result) : option run_result :=
  match r with
  | Some (ms, e) => Some (i :: ms, e)
  | None => None
  end.

(** [a*] followed by the continuation [k]: the longest run first. *)
Fixpoint greedy (a : atom) (k : string -> nat -> option run_result)
    (s : string) (i : nat) : option run_result :=
  match s with
  | String c s' =>
      if atom_matches a c then
        match greedy a k s' (S i) with
        | Some r => Some r
        | None => k s i
        end
      else k s i
  | EmptyString => k s i
  end.

(** [run p s i]: match the items [p] against [s], the text that starts at
    position [i] of the subject. *)
Fixpoint run (p : list item) (s : string) (i : nat) : option run_result :=
  match p with
  | nil => Some (nil, i)
  | IBol :: p' => if Nat.eqb i 0 then run p' s i else None
  | IEol :: p' =>
      match s with EmptyString => run p' s i | String _ _ => None end
  | IOne a :: p' =>
      match s with
      | String c s' => if atom_matches a c then run p' s' (S i) else None
      | EmptyString => None
      end
  | IOpt a :: p' =>
      match s with
      | String c s' =>
          if atom_matches a c then
            match run p' s' (S i) with
            | Some r => Some r
            | None => run p' s i
            end
          else run p' s i
      | EmptyString => run p' s i
      end
  | IStar a :: p' => greedy a (run p') s i
  | IPlus a :: p' =>
      match s with
      | String c s' =>
          if atom_matches a c then greedy a (run p') s' (S i) else None
      | EmptyString => None
      end
  | IOpen :: p' => mark i (run p' s i)
  | IClose :: p' => mark i (run p' s i)
  end.

(** The first match of [p] in the subject, trying the start positions from
    left to right: its start, its group marks and its end. *)
Fixpoint search (p : list item) (s : string) (i : nat)
    : option (nat * list nat * nat) :=
  match run p s i with
  | Some (ms, e) => Some (i, ms, e)
  | None =>
      match s with
      | String _ s' => search p s' (S i)
      | EmptyString => None
      end
  end.

(** The text of the groups, from the marks. *)
Fixpoint groups (s : string) (ms : list nat) : list string :=
  match ms with
  | o :: c :: rest => String.substring o (c - o) s :: groups s rest
  | _ => nil
  end.

(** [s.match(p)] for a pattern without the global flag: the groups of the
    first match (the whole match is not needed by the callers), or nothing. *)
Definition regex_match (p : list item) (s : string) : option (list string) :=
  match search p s 0 with
  | Some (_, ms, _) => Some (groups s ms)
  | None => None
  end.

(** [s.replace(p, "")] for a pattern without the global flag: the first
    match is cut out. *)
Definition regex_remove (p : list item) (s : string) : string :=
  match search p s 0 with
  | Some (b, _, e) => take_string b s ++ substring_from e s
  | None => s
  end.

Definition chr (n : N) : ascii := ascii_of_N n.
Definition c_dot : ascii := chr 46.
Definition c_comma : ascii := chr 44.
Definition c_minus : ascii := chr 45.
Definition c_plus : ascii := chr 43.
Definition c_equal : ascii := chr 61.
Definition c_lbrace : ascii := chr 123.
Definition c_rbrace : ascii := chr 125.

(** [/^\.?\{/] *)
Definition re_open : list item :=
  IBol :: IOpt (AChar c_dot) :: IOne (AChar c_lbrace) :: nil.

(** [/}$/] *)
Definition re_close : list item :=
  IOne (AChar c_rbrace) :: IEol :: nil.

(** [/^\.?(\w+)\s*=\s*(-?\d*\.?\d+)/] *)
Definition re_assignment : list item :=
  IBol :: IOpt (AChar c_dot)
  :: IOpen :: IPlus AWord :: IClose
  :: IStar ASpace :: IOne (AChar c_equal) :: IStar ASpace
  :: IOpen :: IOpt (AChar c_minus) :: IStar ADigit :: IOpt (AChar c_dot)
  :: IPlus ADigit :: IClose :: nil.

(** ** Numbers and text *)

(** The leading run of characters satisfying [f], and what follows it. *)
Fixpoint span (f : ascii -> bool) (s : string) : string * string :=
  match s with
  | String c s' =>
      if f c then let '(r, rest) := span f s' in (String c r, rest)
      else (EmptyString, s)
  | EmptyString => (EmptyString, EmptyString)
  end.

Definition isHexDigit (c : ascii) : bool :=
  (isDigit c || in_range 97 102 c || in_range 65 70 c)%bool.

(** The value of one digit, in a radix up to sixteen. *)
Definition digit_value (c : ascii) : Z :=
  if isDigit c then Z.of_N (code c) - 48
  else if in_range 97 102 c then Z.of_N (code c) - 87
  else Z.of_N (code c) - 55.

(** The value of a run of digits in radix [r], after the digits [acc]. *)
Fixpoint digits_value (r : Z) (s : string) (acc : Z) : Z :=
  match s with
  | String c s' => digits_value r s' (acc * r + digit_value c)
  | EmptyString => acc
  end.

(** An optional sign in front of a numeral. *)
Definition strip_sign (s : string) : bool * string :=
  match s with
  | String c s' =>
      if ascii_eqb c c_minus then (true, s')
      else if ascii_eqb c c_plus then (false, s')
      else (false, s)
  | EmptyString => (false, s)
  end.

(** The mantissa [m] scaled by ten to the [e]. *)
Definition scale10 (m e : Z) : Q :=
  match e with
  | Zneg p => Qred (m # Pos.pow 10 p)
  | _ => inject_Z (m * 10 ^ e)
  end.

(** The exponent part of a decimal literal: [e] or [E], an optional sign
    and at least one digit; zero when there is none. *)
Definition exponent_part (s : string) : Z :=
  match s with
  | String c s' =>
      if (ascii_eqb c (chr 101) || ascii_eqb c (chr 69))%bool then
        let '(neg, s'') := strip_sign s' in
        let '(ds, _) := span isDigit s'' in
        match ds with
        | EmptyString => 0%Z
        | _ => if neg then (- digits_value 10 ds 0)%Z else digits_value 10 ds 0
        end
      else 0%Z
  | EmptyString => 0%Z
  end.

(** [parseFloat(text)]: leading white space is skipped, then the longest
    prefix that is a decimal literal is read, and the result is the Number
    value of that decimal; NaN when there is none. *)
Definition parseFloat (text : string) : number :=
  let '(neg, s) := strip_sign (trimStart text) in
  if startsWith s "Infinity" then (if neg then NegInf else PosInf)
  else
    let '(ip, r1) := span isDigit s in
    let '(fp, r2) :=
      match r1 with
      | String c r => if ascii_eqb c c_dot then span isDigit r else (EmptyString, r1)
      | EmptyString => (EmptyString, r1)
      end in
    match ip, fp with
    | EmptyString, EmptyString => NaN
    | _, _ =>
        let m := digits_value 10 (ip ++ fp) 0 in
        let e := (exponent_part r2 - Z.of_nat (String.length fp))%Z in
        round64 (scale10 (if neg then (- m)%Z else m) e)
    end.

(** [parseInt(text)] without a radix: leading white space is skipped, a
    [0x] or [0X] prefix selects radix sixteen, then the longest run of digits
    is read, and the result is the Number value of that integer; NaN when
    there is none. *)
Definition parseInt (text : string) : number :=
  let '(neg, s) := strip_sign (trimStart text) in
  let '(r, body) :=
    if (startsWith s "0x" || startsWith s "0X")%bool
    then (16%Z, substring_from 2 s) else (10%Z, s) in
  let '(ds, _) := span (if Z.eqb r 16 then isHexDigit else isDigit) body in
  match ds with
  | EmptyString => NaN
  | _ => let m := digits_value r ds 0 in
         round64 (inject_Z (if neg then (- m)%Z else m))
  end.

(** The decimal digits of a natural number, most significant first. *)
Fixpoint digits_of (fuel : nat) (z : Z) (acc : string) : string :=
  match fuel with
  | O => acc
  | S fuel' =>
      let acc' := String (chr (Z.to_N (48 + z mod 10))) acc in
      if (z <? 10)%Z then acc' else digits_of fuel' (z / 10)%Z acc'
  end.

Definition Z_toString (z : Z) : string :=
  digits_of (S (Z.to_nat (Z.log2 z))) z EmptyString.

(** Trailing zero digits are dropped from a mantissa. *)
Fixpoint strip_zeros (fuel : nat) (z : Z) : Z :=
  match fuel with
  | O => z
  | S fuel' =>
      if ((z mod 10 =? 0) && negb (z =? 0))%bool%Z
      then strip_zeros fuel' (z / 10)%Z else z
  end.

Fixpoint zeros (n : nat) : string :=
  match n with
  | O => EmptyString
  | S n' => String (chr 48) (zeros n')
  end.

(** The decimal exponent [n] of a positive fraction [a/b]: the integer with
    [10^(n-1) <= a/b < 10^n]. *)
Definition decimal_exponent (a b : Z) : Z :=
  let da := Z.of_nat (String.length (Z_toString a)) in
  let db := Z.of_nat (String.length (Z_toString b)) in
  let e := (da - db)%Z in
  let reached :=
    if (0 <=? e)%Z then (b * 10 ^ e <=? a)%Z else (b <=? a * 10 ^ (- e))%Z in
  if reached then (e + 1)%Z else e.

(** The Number value of [s * 10^e] is the fraction [q]. *)
Definition reads_back (q : Q) (s e : Z) : bool :=
  match round64 (scale10 s e) with
  | Fin r => Qeq_bool r q
  | _ => false
  end.

(** [k] digits and a decimal exponent that stand for the positive fraction
    [q], whose decimal exponent is [n]: the integer [s] below or above
    [q / 10^(n-k)] such that [s * 10^(n-k)] reads back as [q]; the nearer
    one when both do, the even one when they are as near.  Ten to the [k]
    is written with the digit 1 and the next exponent. *)
Definition digits_at (q : Q) (n k : Z) : option (Z * Z) :=
  let t := q * scale10 1 (k - n) in
  let lo := Qfloor t in
  let hi := (lo + 1)%Z in
  let pick (s : Z) :=
    if (s =? 10 ^ k)%Z then ((10 ^ (k - 1))%Z, (n + 1)%Z) else (s, n) in
  match reads_back q lo (n - k), reads_back q hi (n - k) with
  | true, true =>
      match Qcompare (t - inject_Z lo) (1 # 2) with
      | Lt => Some (pick lo)
      | Gt => Some (pick hi)
      | Eq => Some (pick (if Z.even lo then lo else hi))
      end
  | true, false => Some (pick lo)
  | false, true => Some (pick hi)
  | false, false => None
  end.

(** The shortest digits that read back as [q], trying [k], [k + 1], ...;
    seventeen digits always do for a Number, and the nearest seventeen are
    taken for a fraction that is none. *)
Fixpoint shortest_digits (fuel : nat) (q : Q) (n k : Z) : Z * Z :=
  match fuel with
  | O =>
      let s := round_half_even (q * scale10 1 (17 - n)) in
      if (s =? 10 ^ 17)%Z then ((10 ^ 16)%Z, (n + 1)%Z) else (s, n)
  | S fuel' =>
      match digits_at q n k with
      | Some r => r
      | None => shortest_digits fuel' q n (k + 1)
      end
  end.

(** The text of a positive number: its digits [s], their count [k] and the
    decimal exponent [n] are laid out as Number::toString does. *)
Definition positive_toString (q : Q) : string :=
  let n0 := decimal_exponent (Qnum q) (Zpos (Qden q)) in
  let '(s0, n) := shortest_digits 17 q n0 1 in
  let s := strip_zeros 17 s0 in
  let ds := Z_toString s in
  let k := Z.of_nat (String.length ds) in
  let exponent (e : Z) :=
    String (chr 101)
      (String (if (e <? 0)%Z then c_minus else c_plus) (Z_toString (Z.abs e))) in
  if ((k <=? n) && (n <=? 21))%bool%Z then
    ds ++ zeros (Z.to_nat (n - k))
  else if ((0 <? n) && (n <=? 21))%bool%Z then
    take_string (Z.to_nat n) ds ++ String c_dot (substring_from (Z.to_nat n) ds)
  else if ((-6 <? n) && (n <=? 0))%bool%Z then
    String (chr 48) (String c_dot (zeros (Z.to_nat (- n)) ++ ds))
  else if (k =? 1)%Z then
    ds ++ exponent (n - 1)%Z
  else
    take_string 1 ds ++ String c_dot (substring_from 1 ds) ++ exponent (n - 1)%Z.

(** [x.toString()] and the text of [x] in a template literal. *)
Definition Number_toString (x : number) : string :=
  match x with
  | NaN => "NaN"
  | PosInf => "Infinity"
  | NegInf => "-Infinity"
  | Fin q =>
      match Qsign q with
      | Eq => "0"
      | Gt => positive_toString q
      | Lt => String c_minus (positive_toString (- q))
      end
  end.

(** ** The registry *)

(** [range]: either bound may be left undefined. *)
Record Range : Type := mkRange {
  min : option number;
  max : option number
}.

(** [VariableDef]: [step] and [range] are optional properties. *)
Record VariableDef : Type := mkVariable {
  name : string;
  type : string;
  value : number;
  step : option number;
  range : option Range
}.

Definition set_value (v : VariableDef) (x : number) : VariableDef :=
  {| name := name v; type := type v; value := x;
     step := step v; range := range v |}.

(** The array [variables] of the source; the steps 0.01 and 0.05 are the
    Numbers nearest to those decimals. *)
Definition variables : list VariableDef :=
  mkVariable "move_dist" "float" (Fin 0) (Some (round64 (1 # 100))) None
  :: mkVariable "turn_rate" "float" (Fin 0) (Some (Fin (1 # 2))) None
  :: mkVariable "sample_dist" "float" (Fin 0) (Some (round64 (1 # 100))) None
  :: mkVariable "sample_angle" "float" (Fin 0) (Some (round64 (1 # 20))) None
  :: mkVariable "move_dist_mod" "float" (Fin 0) (Some (round64 (1 # 100))) None
  :: mkVariable "turn_rate_mod" "float" (Fin 0) (Some (Fin (1 # 2))) None
  :: mkVariable "sample_dist_mod" "float" (Fin 0) (Some (round64 (1 # 100))) None
  :: mkVariable "sample_angle_mod" "float" (Fin 0) (Some (round64 (1 # 20))) None
  :: mkVariable "density_scale" "int" (Fin 0) (Some (Fin 1)) None
  :: mkVariable "pheromone_decay_rate" "float" (Fin 0) (Some (Fin (-1 # 2)))
       (Some (mkRange (Some (Fin (-100))) (Some (Fin 1))))
  :: nil.

Definition getDefaultStep (type : string) : number :=
  if String.eqb type "int" then Fin 1 else round64 (1 # 10).

Definition clampValue (value : number) (range : option Range) : number :=
  match range with
  | None => value
  | Some r =>
      let clamped := value in
      let clamped :=
        match min r with Some lo => Math_max lo clamped | None => clamped end in
      let clamped :=
        match max r with Some hi => Math_min hi clamped | None => clamped end in
      clamped
  end.

(** ** Completions and values *)

Inductive exception : Type :=
| TypeError.

Inductive completion : Type :=
| Normal
| Throw (e : exception).

(** The values a caller can hand to a function that expects a string. *)
Inductive jsvalue : Type :=
| JUndefined
| JNull
| JNumber (n : number)
| JString (s : string).

(** ** The snapshot decoder *)

(** [state[varName] = v] on an object created by [{}]: an own property is
    written, except that [__proto__] is the accessor of the prototype, which
    ignores a number. *)
Definition set_property (k : string) (v : number) (state : gmap string number)
    : gmap string number :=
  if String.eqb k "__proto__" then state else <[k := v]> state.

(** One turn of the loop over the fragments, up to the test [if (match)]:
    the variable name and the parsed value of a fragment that matches. *)
Definition parseAssignment (assignment : string) : option (string * number) :=
  let trimmed := trim assignment in
  match regex_match re_assignment trimmed with
  | Some (varName :: value :: _) => Some (varName, parseFloat value)
  | _ => None
  end.

Definition parseAssignments (assignments : list string)
    : gmap string number :=
  fold_left
    (fun state assignment =>
       match parseAssignment assignment with
       | Some (varName, v) => set_property varName v state
       | None => state
       end)
    assignments ∅.

(** The block under [try]: a value without a [trim] method makes the first
    call throw. *)
Definition parseSimulationState_try (stateString : jsvalue)
    : exception + gmap string number :=
  match stateString with
  | JString s =>
      let cleanString := regex_remove re_close (regex_remove re_open (trim s)) in
      let assignments := split c_comma cleanString in
      inr (parseAssignments assignments)
  | _ => inl TypeError
  end.

(** [parseSimulationState]: [None] is the [null] of the [catch] branch. *)
Definition parseSimulationState (stateString : jsvalue)
    : option (gmap string number) :=
  match parseSimulationState_try stateString with
  | inr state => Some state
  | inl _ => None
  end.

(** ** Applying a snapshot *)

Definition angleVariables : list string :=
  "turn_rate" :: "sample_angle" :: "turn_rate_mod" :: "sample_angle_mod" :: nil.

(** [angleVariables.includes(name)] *)
Definition includes (l : list string) (x : string) : bool :=
  existsb (String.eqb x) l.

(** [serverState.hasOwnProperty(key)]: the method is looked up on the object
    first, so an own property of that name, which holds a number, is what
    gets called. *)
Definition hasOwnProperty (serverState : gmap string number) (key : string)
    : exception + bool :=
  match serverState !! "hasOwnProperty" with
  | Some _ => inl TypeError
  | None => inr (bool_decide (is_Some (serverState !! key)))
  end.

(** The body of the [if] in the loop: the new value of a variable that the
    snapshot mentions with the number [raw]. *)
Definition serverValue (variable : VariableDef) (raw : number) : number :=
  let newValue := raw in
  let newValue :=
    if includes angleVariables (name variable)
    then ndiv (Math_round (nmul (ndiv newValue Math_PI) (Fin 10000))) (Fin 10000)
    else newValue in
  let finalValue :=
    if String.eqb (type variable) "int" then Math_round newValue else newValue in
  clampValue finalValue (range variable).

(** The loop of [updateVariablesFromServer] over the registry: the variables
    are written in place, so what was written before an exception stays. *)
Fixpoint updateVariablesFromServer (serverState : gmap string number)
    (vars : list VariableDef) : list VariableDef * completion :=
  match vars with
  | nil => (nil, Normal)
  | variable :: rest =>
      match hasOwnProperty serverState (name variable) with
      | inl e => (vars, Throw e)
      | inr has =>
          let variable' :=
            if has then
              match serverState !! name variable with
              | Some raw => set_value variable (serverValue variable raw)
              | None => variable
              end
            else variable in
          let '(rest', c) := updateVariablesFromServer serverState rest in
          (variable' :: rest', c)
      end
  end.

(** ** The outbound encoder *)

Record WebSocket : Type := mkWebSocket {
  readyState : nat;
  sent : list string
}.

Definition WebSocket_OPEN : nat := 1.

(** The text handed to [ws.send]. *)
Definition wireMessage (variableName : string) (value : number) : string :=
  let hasMod := endsWith variableName "_mod" in
  let baseName :=
    if hasMod then slice_to_end_minus 4 variableName else variableName in
  let message := baseName ++ " " ++ Number_toString value in
  if hasMod then message ++ " mod" else message.

(** [sendVariableUpdate]: [ws] is [None] while the global is [null]. *)
Definition sendVariableUpdate (variableName : string) (value : number)
    (ws : option WebSocket) : option WebSocket :=
  match ws with
  | None => ws
  | Some w =>
      if negb (Nat.eqb (readyState w) WebSocket_OPEN) then ws
      else Some {| readyState := readyState w;
                   sent := (sent w ++ wireMessage variableName value :: nil)%list |}
  end.

(** ** The handlers of [VariableComponent] *)

Record Component : Type := mkComponent {
  isEditing : bool;
  editValue : string
}.

(** [variable_def.step || getDefaultStep(variable_def.type)] *)
Definition effectiveStep (variable_def : VariableDef) : number :=
  match step variable_def with
  | Some s => nor s (getDefaultStep (type variable_def))
  | None => getDefaultStep (type variable_def)
  end.

(** [step.toString().split(".")[1]?.length || 0] *)
Definition decimalsOf (step : number) : nat :=
  match nth_error (split c_dot (Number_toString step)) 1 with
  | Some fraction => String.length fraction
  | None => O
  end.

(** What both buttons do with the stepped value. *)
Definition commitStep (variable_def : VariableDef) (stepped : number)
    (ws : option WebSocket) : VariableDef * option WebSocket :=
  let newValue := clampValue stepped (range variable_def) in
  let newValue :=
    if String.eqb (type variable_def) "float" then
      let decimals := decimalsOf (effectiveStep variable_def) in
      ndiv (Math_round (nmul newValue (Math_pow (Fin 10) decimals)))
           (Math_pow (Fin 10) decimals)
    else newValue in
  (set_value variable_def newValue,
   sendVariableUpdate (name variable_def) newValue ws).

(** [onclick] of the button Up. *)
Definition onclickUp (variable_def : VariableDef) (ws : option WebSocket)
    : VariableDef * option WebSocket :=
  commitStep variable_def
    (nadd (value variable_def) (effectiveStep variable_def)) ws.

(** [onclick] of the button Down. *)
Definition onclickDown (variable_def : VariableDef) (ws : option WebSocket)
    : VariableDef * option WebSocket :=
  commitStep variable_def
    (nsub (value variable_def) (effectiveStep variable_def)) ws.

(** [applyEdit] *)
Definition applyEdit (this : Component) (variable_def : VariableDef)
    (ws : option WebSocket) : Component * VariableDef * option WebSocket :=
  if negb (isEditing this) then (this, variable_def, ws)
  else
    let newValue := nor (parseFloat (editValue this)) (Fin 0) in
    let newValue :=
      if String.eqb (type variable_def) "int"
      then nor (parseInt (editValue this)) (Fin 0) else newValue in
    let newValue := clampValue newValue (range variable_def) in
    (mkComponent false "", set_value variable_def newValue,
     sendVariableUpdate (name variable_def) newValue ws).

(** [onfocus] and [oninput] of the text field. *)
Definition onfocus (this : Component) (variable_def : VariableDef) : Component :=
  mkComponent true (Number_toString (value variable_def)).

Definition oninput (this : Component) (text : string) : Component :=
  mkComponent (isEditing this) text.

(** A handler runs on the object of the registry it was given: the variable
    at index [i] is replaced by what the handler leaves. *)
Definition onVariable (i : nat)
    (handler : VariableDef -> option WebSocket -> VariableDef * option WebSocket)
    (vars : list VariableDef) (ws : option WebSocket)
    : list VariableDef * option WebSocket :=
  match vars !! i with
  | Some variable_def =>
      let '(variable_def', ws') := handler variable_def ws in
      (<[i := variable_def']> vars, ws')
  | None => (vars, ws)
  end.

(** [applyEdit] called by the text field of the variable at index [i]. *)
Definition commitEdit (i : nat) (this : Component) (vars : list VariableDef)
    (ws : option WebSocket)
    : Component * list VariableDef * option WebSocket :=
  match vars !! i with
  | Some variable_def =>
      let '(this', variable_def', ws') := applyEdit this variable_def ws in
      (this', <[i := variable_def']> vars, ws')
  | None => (this, vars, ws)
  end.

(** ** The socket message handler *)

(** The [if (serverState)] of the listener: a snapshot is applied, [null]
    is only reported. *)
Definition onServerState (serverState : option (gmap string number))
    (vars : list VariableDef) : list VariableDef * completion :=
  match serverState with
  | Some state => updateVariablesFromServer state vars
  | None => (vars, Normal)
  end.

(** The listener of ["message"], on the registry: [event.data] is a text for
    a text frame. *)
Definition onmessage (data : jsvalue) (vars : list VariableDef)
    : list VariableDef * completion :=
  match data with
  | JString text =>
      let message := trim text in
      if startsWith message "Success: " then
        let stateString := substring_from 9 message in
        onServerState (parseSimulationState (JString stateString)) vars
      else (vars, Normal)
  | _ => (vars, Throw TypeError)
  end.

(** ** Ranges *)

(** A range the clamp can honour: bounds that are numbers, the lower one not
    above the upper one. *)
Definition range_ok (range : option Range) : bool :=
  match range with
  | None => true
  | Some r =>
      match min r, max r with
      | Some lo, Some hi => nleb lo hi
      | Some b, None | None, Some b => negb (is_NaN b)
      | None, None => true
      end
  end.

(** [x] lies within the inclusive bounds that [range] defines. *)
Definition within (x : number) (range : option Range) : bool :=
  match range with
  | None => true
  | Some r =>
      (match min r with Some lo => nleb lo x | None => true end
       && match max r with Some hi => nleb x hi | None => true end)%bool
  end.

(** ** Vocabulary of the statements *)

(** The fractions that are finite Numbers. *)
Definition representable (c : Q) : Prop :=
  exists m e : Z,
    c == inject_Z m * pow2 e
    /\ (Z.abs m < 2 ^ 53)%Z /\ (-1074 <= e <= 971)%Z.

(** The transport is missing or not open. *)
Definition notConnected (ws : option WebSocket) : bool :=
  match ws with
  | None => true
  | Some w => negb (Nat.eqb (readyState w) WebSocket_OPEN)
  end.

(** What the loop does with one variable when the membership test can be
    made. *)
Definition updateVariable (serverState : gmap string number)
    (variable : VariableDef) : VariableDef :=
  match serverState !! name variable with
  | Some raw => set_value variable (serverValue variable raw)
  | None => variable
  end.

(** A variable whose upper bound is finer than its step: a real-valued
    variable at 0, stepped by 0.5, within the range from 0 to 0.25. *)
Definition fineUpper : VariableDef :=
  mkVariable "x" "float" (Fin 0) (Some (Fin (1 # 2)))
    (Some (mkRange (Some (Fin 0)) (Some (Fin (1 # 4))))).

(** The same with a fine lower bound: at 0.5, within 0.125 to 1. *)
Definition fineLower : VariableDef :=
  mkVariable "x" "float" (Fin (1 # 2)) (Some (Fin (1 # 2)))
    (Some (mkRange (Some (Fin (1 # 8))) (Some (Fin 1)))).


(** The variable [density_scale] of the registry, the one of type [int]. *)
Definition density_scale : VariableDef :=
  mkVariable "density_scale" "int" (Fin 0) (Some (Fin 1)) None.

(** The leading character of a text satisfies [f]. *)
Definition head_is (f : ascii -> bool) (s : string) : bool :=
  match s with
  | String c _ => f c
  | EmptyString => false
  end.

Fixpoint string_forallb (f : ascii -> bool) (s : string) : bool :=
  match s with
  | String c s' => (f c && string_forallb f s')%bool
  | EmptyString => true
  end.

(** A run of one or more decimal digits. *)
Definition isDigits (s : string) : bool :=
  (head_is isDigit s && string_forallb isDigit s)%bool.

(** A run of one or more word characters. *)
Definition isWords (s : string) : bool :=
  (head_is isWord s && string_forallb isWord s)%bool.

(** The text of a numeric literal of the shape [-?\d*\.?\d+]: an optional
    minus sign, the digits [ip] and, when there is a fraction, a point and
    the digits [fp]. *)
Definition literal_text (neg : bool) (ip : string) (frac : option string)
    : string :=
  (if neg then "-" else "")
  ++ ip ++ match frac with Some fp => String c_dot fp | None => "" end.

(** The last run of digits is not empty. *)
Definition literal_ok (ip : string) (frac : option string) : bool :=
  (string_forallb isDigit ip
   && match frac with Some fp => isDigits fp | None => isDigits ip end)%bool.

(** The text after a literal does not prolong it: it does not start with a
    digit, nor, after a literal without a fraction, with a point and a
    digit. *)
Definition not_prolonging (frac : option string) (extra : string) : bool :=
  (negb (head_is isDigit extra)
   && match frac, extra with
      | None, String c r => negb (ascii_eqb c c_dot && head_is isDigit r)
      | _, _ => true
      end)%bool.

(** The part of [re_assignment] that reads the number, up to the closing
    parenthesis of its group. *)
Definition re_number : list item :=
  IOpt (AChar c_minus) :: IStar ADigit :: IOpt (AChar c_dot)
  :: IPlus ADigit :: IClose :: nil.

(** [re_assignment] from the first group on. *)
Definition re_key_onwards : list item :=
  IOpen :: IPlus AWord :: IClose
  :: IStar ASpace :: IOne (AChar c_equal) :: IStar ASpace
  :: IOpen :: re_number.

(** A fragment of the shape that [re_assignment] describes: an optional
    point, a name, the sign [=] with optional white space around it, and
    then some text. *)
Definition fragment_text (dot : bool) (key ws1 ws2 rhs : string) : string :=
  (if dot then "." else "") ++ key ++ ws1 ++ String c_equal (ws2 ++ rhs).

(** The part of a fragment in front of its right-hand side. *)
Definition fragment_prefix (dot : bool) (key ws1 ws2 : string) : string :=
  (if dot then "." else "") ++ key ++ ws1 ++ String c_equal ws2.

(** A text without white space. *)
Definition solid (s : string) : bool :=
  string_forallb (fun c => negb (isWhiteSpace c)) s.

(** The number a literal denotes: its digits, read in base ten, with as
    many decimals as the fraction has digits. *)
Definition literal_value (neg : bool) (ip : string) (frac : option string)
    : Q :=
  let fp := match frac with Some fp => fp | None => "" end in
  let m := digits_value 10 (ip ++ fp) 0 in
  scale10 (if neg then (- m)%Z else m) (0 - Z.of_nat (String.length fp)).


(** ** The label and the text field of [VariableComponent] *)

(** A text of ASCII characters, as the names of the registry are. *)
Definition isAscii (s : string) : bool :=
  string_forallb (fun c => N.ltb (code c) 128) s.

(** [value.toUpperCase()] on one character of an ASCII text: a letter with
    a diacritic, whose upper case can be outside the code units below 256
    or longer than one character, is outside this model, and the
    properties of the label are stated for ASCII names. *)
Definition toUpperCase_char (c : ascii) : ascii :=
  if in_range 97 122 c then chr (code c - 32) else c.

(** [all_upper.slice(0, 1).concat(value.slice(1))] *)
Definition capitalize (value : string) : string :=
  match value with
  | String c rest => String (toUpperCase_char c) rest
  | EmptyString => EmptyString
  end.

(** [pieces.join(sep)] *)
Fixpoint join (sep : string) (pieces : list string) : string :=
  match pieces with
  | nil => EmptyString
  | piece :: nil => piece
  | piece :: rest => piece ++ sep ++ join sep rest
  end.

Definition processVariableName (name : string) : string :=
  join " " (map capitalize (split (chr 95) name)).

(** The attribute [value] of the text field in [view]. *)
Definition fieldValue (this : Component) (variable_def : VariableDef)
    : string :=
  if isEditing this then editValue this
  else Number_toString (value variable_def).

(** [onblur] of the text field. *)
Definition onblur (this : Component) (variable_def : VariableDef)
    (ws : option WebSocket) : Component * VariableDef * option WebSocket :=
  applyEdit this variable_def ws.

(** [onkeydown] of the text field, for the key [e.key]: the call
    [e.target.blur()] takes the focus from the field, which runs
    [onblur]. *)
Definition onkeydown (this : Component) (key : string)
    (variable_def : VariableDef) (ws : option WebSocket)
    : Component * VariableDef * option WebSocket :=
  if String.eqb key "Enter" then
    let '(this', variable_def', ws') := applyEdit this variable_def ws in
    onblur this' variable_def' ws'
  else if String.eqb key "Escape" then
    onblur (mkComponent false "") variable_def ws
  else (this, variable_def, ws).

(** ** The loop of the decoder, from any state *)

(** The body of the loop over the fragments. *)
Definition assign (state : gmap string number) (assignment : string)
    : gmap string number :=
  match parseAssignment assignment with
  | Some (varName, v) => set_property varName v state
  | None => state
  end.

(** The loop, started with [state] in the object. *)
Definition parseAssignmentsFrom (state : gmap string number)
    (assignments : list string) : gmap string number :=
  fold_left assign assignments state.

(** The entries of the object are names of word characters, other than
    [__proto__], with numbers other than NaN. *)
Definition decoded_ok (state : gmap string number) : Prop :=
  forall k v, state !! k = Some v ->
    isWords k = true /\ k <> "__proto__" /\ is_NaN v = false.

(** The label of a name read off in one pass: an underscore becomes a
    space, the first character and every character after an underscore is
    put in upper case, the others are kept; [atStart] tells that a piece
    starts here. *)
Fixpoint label (atStart : bool) (s : string) : string :=
  match s with
  | String c rest =>
      if ascii_eqb c (chr 95) then String (chr 32) (label true rest)
      else String (if atStart then toUpperCase_char c else c) (label false rest)
  | EmptyString => EmptyString
  end.

(** * Properties *)

(** ** Order and clamp *)

Ltac case_compare :=
  repeat match goal with
    | H : context [Qcompare ?a ?b] |- _ =>
        destruct (Qcompare_spec a b); simpl in H
    | |- context [Qcompare ?a ?b] =>
        destruct (Qcompare_spec a b); simpl
    end.

Ltac number_cases :=
  simpl in *; unfold Qsign in *; case_compare;
  try discriminate; try reflexivity; try (exfalso; lra).

Lemma nleb_refl (a : number) : is_NaN a = false -> nleb a a = true.
Proof. destruct a; number_cases. Qed.

Lemma nleb_trans (a b c : number) :
  nleb a b = true -> nleb b c = true -> nleb a c = true.
Proof. destruct a, b, c; number_cases. Qed.

Lemma Math_max_not_NaN (a b : number) :
  is_NaN a = false -> is_NaN b = false -> is_NaN (Math_max a b) = false.
Proof. destruct a, b; simpl; try reflexivity; try discriminate;
  intros _ _; match goal with |- context [if ?c then _ else _] => destruct c end;
  reflexivity. Qed.

Lemma Math_min_not_NaN (a b : number) :
  is_NaN a = false -> is_NaN b = false -> is_NaN (Math_min a b) = false.
Proof. destruct a, b; simpl; try reflexivity; try discriminate;
  intros _ _; match goal with |- context [if ?c then _ else _] => destruct c end;
  reflexivity. Qed.

Lemma Math_max_lower (lo x : number) :
  is_NaN lo = false -> is_NaN x = false -> nleb lo (Math_max lo x) = true.
Proof. destruct lo, x; number_cases. Qed.

Lemma Math_min_upper (hi x : number) :
  is_NaN hi = false -> is_NaN x = false -> nleb (Math_min hi x) hi = true.
Proof. destruct hi, x; number_cases. Qed.

Lemma Math_min_lower (lo hi x : number) :
  nleb lo hi = true -> nleb lo x = true -> nleb lo (Math_min hi x) = true.
Proof. destruct lo, hi, x; number_cases. Qed.

Lemma nleb_not_NaN (a b : number) :
  nleb a b = true -> is_NaN a = false /\ is_NaN b = false.
Proof. destruct a, b; simpl; intros; try discriminate; split; reflexivity. Qed.

(** The clamp brings every number into a well-formed range. *)
Lemma clampValue_within (x : number) (range : option Range) :
  range_ok range = true -> is_NaN x = false ->
  within (clampValue x range) range = true.
Proof.
  destruct range as [[[lo|] [hi|]]|]; simpl; intros Hok Hx; try reflexivity.
  - destruct (nleb_not_NaN _ _ Hok) as [Hlo Hhi].
    rewrite Math_min_lower, Math_min_upper;
      auto using Math_max_lower, Math_max_not_NaN.
  - rewrite Math_max_lower; auto. now destruct (is_NaN lo).
  - rewrite Math_min_upper; auto. now destruct (is_NaN hi).
Qed.

Lemma clampValue_not_NaN (x : number) (range : option Range) :
  range_ok range = true -> is_NaN x = false ->
  is_NaN (clampValue x range) = false.
Proof.
  destruct range as [[[lo|] [hi|]]|]; simpl; intros Hok Hx; auto.
  - destruct (nleb_not_NaN _ _ Hok) as [Hlo Hhi].
    auto using Math_min_not_NaN, Math_max_not_NaN.
  - apply Math_max_not_NaN; auto. now destruct (is_NaN lo).
  - apply Math_min_not_NaN; auto. now destruct (is_NaN hi).
Qed.

(** A value already in range is left alone, up to the way its fraction is
    written. *)
Lemma clampValue_id (x : number) (range : option Range) :
  within x range = true -> number_eq (clampValue x range) x.
Proof.
  destruct range as [[[lo|] [hi|]]|]; simpl.
  - intros H. apply andb_prop in H as [H1 H2].
    destruct lo, hi, x; repeat number_cases; try lra; exact I.
  - rewrite andb_true_r. destruct lo, x; repeat number_cases; try lra; exact I.
  - destruct hi, x; repeat number_cases; try lra; exact I.
  - destruct x; simpl; trivial; reflexivity.
  - destruct x; simpl; trivial; reflexivity.
Qed.

(** Clamping twice is clamping once. *)
Lemma clampValue_idempotent (x : number) (range : option Range) :
  range_ok range = true -> is_NaN x = false ->
  number_eq (clampValue (clampValue x range) range) (clampValue x range).
Proof. intros Hok Hx. now apply clampValue_id, clampValue_within. Qed.

(** ** binary64 *)

Lemma pow2_pos (e : Z) : 0 < pow2 e.
Proof. apply Qpower_0_lt. reflexivity. Qed.

Lemma pow2_add (a b : Z) : pow2 (a + b) == pow2 a * pow2 b.
Proof. apply Qpower_plus. discriminate. Qed.

Lemma pow2_le (a b : Z) : (a <= b)%Z -> pow2 a <= pow2 b.
Proof. intros H. apply Qpower_le_compat_l; [assumption | discriminate]. Qed.

Lemma pow2_lt (a b : Z) : (a < b)%Z -> pow2 a < pow2 b.
Proof. intros H. apply Qpower_lt_compat_l; [assumption | reflexivity]. Qed.

Lemma pow2_inject (e : Z) : (0 <= e)%Z -> pow2 e == inject_Z (2 ^ e).
Proof. intros H. unfold pow2. now rewrite Zpower_Qpower. Qed.

Lemma pow2_succ (e : Z) : pow2 (e + 1) == 2 * pow2 e.
Proof. rewrite pow2_add. change (pow2 1) with 2. apply Qmult_comm. Qed.

Lemma Qmake_inject (a : Z) (b : positive) :
  (a # b) * inject_Z (Zpos b) == inject_Z a.
Proof. unfold Qeq, Qmult, inject_Z. simpl. rewrite Pos.mul_1_r. ring. Qed.

Lemma binade_spec (q : Q) :
  0 < q -> pow2 (binade q) <= q /\ q < pow2 (binade q + 1).
Proof.
  intros Hq. destruct q as [a b].
  assert (Ha : (0 < a)%Z) by (unfold Qlt in Hq; simpl in Hq; lia).
  unfold binade. cbn [Qnum Qden].
  set (la := Z.log2 a). set (lb := Z.log2 (Zpos b)).
  destruct (Z.log2_spec a Ha) as [Ha1 Ha2].
  destruct (Z.log2_spec (Zpos b) eq_refl) as [Hb1 Hb2].
  fold la in Ha1, Ha2. fold lb in Hb1, Hb2.
  assert (Hla : (0 <= la)%Z) by apply Z.log2_nonneg.
  assert (Hlb : (0 <= lb)%Z) by apply Z.log2_nonneg.
  rewrite Zle_Qle, <- pow2_inject in Ha1, Hb1 by assumption.
  rewrite <- Z.add_1_r in Ha2, Hb2.
  rewrite Zlt_Qlt, <- pow2_inject in Ha2, Hb2 by lia.
  rewrite pow2_succ in Ha2, Hb2.
  pose proof (Qmake_inject a b) as Hab.
  pose proof (pow2_add (la - lb) lb) as Hsplit.
  replace (la - lb + lb)%Z with la in Hsplit by lia.
  pose proof (pow2_pos (la - lb)) as Hp0.
  pose proof (pow2_pos lb) as Hpb.
  pose proof (pow2_succ (la - lb - 1)) as Hhalf.
  replace (la - lb - 1 + 1)%Z with (la - lb)%Z in Hhalf by lia.
  pose proof (pow2_succ (la - lb)) as Hdouble.
  pose proof (pow2_pos (la - lb - 1)) as Hph.
  destruct (Qle_bool (pow2 (la - lb)) (a # b)) eqn:E.
  - apply Qle_bool_iff in E. split; [exact E|].
    revert Ha1 Ha2 Hb1 Hb2 Hab Hsplit Hp0 Hpb Hdouble E.
    generalize (pow2 (la - lb + 1)) (pow2 (la - lb))
      (pow2 la) (pow2 lb) (inject_Z a) (inject_Z (Zpos b)) (a # b).
    intros Pd P0 Pa Pb A B q. intros.
    assert (H : q * B < Pd * B) by nra.
    apply Qmult_lt_r in H; [exact H | lra].
  - assert (E' : a # b < pow2 (la - lb)).
    { apply Qnot_le_lt. intros H. apply Qle_bool_iff in H. congruence. }
    replace (la - lb - 1 + 1)%Z with (la - lb)%Z by lia.
    split; [|exact E'].
    revert Ha1 Ha2 Hb1 Hb2 Hab Hsplit Hp0 Hpb Hhalf Hph.
    generalize (pow2 (la - lb - 1)) (pow2 (la - lb))
      (pow2 la) (pow2 lb) (inject_Z a) (inject_Z (Zpos b)) (a # b).
    intros Ph P0 Pa Pb A B q. intros.
    assert (H : Ph * B <= q * B) by nra.
    apply Qmult_le_r in H; [exact H | lra].
Qed.

Lemma binade_unique (q : Q) (e e' : Z) :
  pow2 e <= q -> q < pow2 (e + 1) -> pow2 e' <= q -> q < pow2 (e' + 1) ->
  e = e'.
Proof.
  intros H1 H2 H3 H4.
  destruct (Z.lt_trichotomy e e') as [H|[H|H]]; [exfalso|exact H|exfalso].
  - pose proof (pow2_le (e + 1) e' ltac:(lia)). lra.
  - pose proof (pow2_le (e' + 1) e ltac:(lia)). lra.
Qed.

Lemma binade_comp (q q' : Q) : q == q' -> 0 < q -> binade q = binade q'.
Proof.
  intros Heq Hq. assert (Hq' : 0 < q') by now rewrite <- Heq.
  destruct (binade_spec q Hq) as [H1 H2].
  destruct (binade_spec q' Hq') as [H3 H4].
  apply (binade_unique q); try assumption.
  - apply (Qle_trans _ q'); [exact H3 | rewrite Heq; apply Qle_refl].
  - apply (Qle_lt_trans _ q'); [rewrite Heq; apply Qle_refl | exact H4].
Qed.

Lemma round_half_even_floor (x : Q) :
  (Qfloor x <= round_half_even x <= Qfloor x + 1)%Z.
Proof.
  unfold round_half_even.
  destruct (Qcompare (x - inject_Z (Qfloor x)) (1 # 2));
    [destruct (Z.even (Qfloor x))| |]; lia.
Qed.

Lemma round_half_even_comp (x y : Q) :
  x == y -> round_half_even x = round_half_even y.
Proof.
  intros H. unfold round_half_even. rewrite (Qfloor_comp x y H).
  now rewrite (Qcompare_comp (x - inject_Z (Qfloor y)) (y - inject_Z (Qfloor y))
                 ltac:(now rewrite H) (1 # 2) (1 # 2) ltac:(reflexivity)).
Qed.

(** Rounding does not cross an integer. *)
Lemma round_half_even_le (x : Q) (n : Z) :
  x <= inject_Z n -> (round_half_even x <= n)%Z.
Proof.
  intros H. pose proof (Qfloor_resp_le _ _ H) as Hf.
  rewrite Qfloor_Z in Hf.
  destruct (Z.eq_dec (Qfloor x) n) as [E|E].
  - unfold round_half_even. rewrite E.
    destruct (Qcompare_spec (x - inject_Z n) (1 # 2)); try lia; lra.
  - pose proof (round_half_even_floor x). lia.
Qed.

Lemma round_half_even_ge (x : Q) (n : Z) :
  inject_Z n <= x -> (n <= round_half_even x)%Z.
Proof.
  intros H. pose proof (Qfloor_resp_le _ _ H) as Hf.
  rewrite Qfloor_Z in Hf. pose proof (round_half_even_floor x). lia.
Qed.

(** The nearest integer is within one half. *)
Lemma round_half_even_near (x : Q) :
  x - (1 # 2) <= inject_Z (round_half_even x) <= x + (1 # 2).
Proof.
  unfold round_half_even.
  pose proof (Qfloor_le x) as H1. pose proof (Qlt_floor x) as H2.
  rewrite inject_Z_plus in H2. change (inject_Z 1) with 1 in H2.
  destruct (Qcompare_spec (x - inject_Z (Qfloor x)) (1 # 2));
    [destruct (Z.even (Qfloor x))| |];
    rewrite ?inject_Z_plus; change (inject_Z 1) with 1; lra.
Qed.

Lemma round64_pos_unfold (q : Q) :
  round64_pos q
  = let r := Qred (inject_Z (round_half_even (q / spacing q)) * spacing q) in
    if Qle_bool (pow2 1024) r then PosInf else Fin r.
Proof. reflexivity. Qed.

Lemma round64_pos_comp (q q' : Q) :
  q == q' -> 0 < q -> round64_pos q = round64_pos q'.
Proof.
  intros Heq Hq. rewrite !round64_pos_unfold. unfold spacing.
  rewrite <- (binade_comp q q' Heq Hq).
  set (s := pow2 (Z.max (binade q - 52) (-1074))).
  rewrite (round_half_even_comp (q' / s) (q / s)) by now rewrite Heq.
  reflexivity.
Qed.

Lemma Qsign_comp (q q' : Q) : q == q' -> Qsign q = Qsign q'.
Proof. intros H. unfold Qsign. now rewrite H. Qed.

Lemma round64_comp (q q' : Q) : q == q' -> round64 q = round64 q'.
Proof.
  intros Heq. unfold round64. rewrite <- (Qsign_comp q q' Heq).
  unfold Qsign. destruct (Qcompare_spec q 0) as [H|H|H]; [reflexivity| |].
  - f_equal. apply round64_pos_comp; [now rewrite Heq | lra].
  - apply round64_pos_comp; [assumption | lra].
Qed.

Lemma round64_not_NaN (q : Q) : is_NaN (round64 q) = false.
Proof.
  unfold round64, round64_pos.
  destruct (Qsign q); [reflexivity| |];
    match goal with |- context [if ?c then _ else _] => destruct c end;
    reflexivity.
Qed.

Lemma Qdiv_mult_cancel (c s : Q) : 0 < s -> c / s * s == c.
Proof. intros H. field. lra. Qed.

Lemma spacing_pos (q : Q) : 0 < spacing q.
Proof. apply pow2_pos. Qed.

Lemma pow2_lt_inv (a b : Z) : pow2 a < pow2 b -> (a < b)%Z.
Proof. intros H. apply (Qpower_lt_compat_l_inv 2); [exact H | reflexivity]. Qed.

(** A multiple of a power of two is an integer number of smaller powers. *)
Lemma pow2_multiple (m e ex : Z) (s : Q) :
  (ex <= e)%Z -> s == pow2 ex ->
  inject_Z m * pow2 e / s == inject_Z (m * 2 ^ (e - ex)).
Proof.
  intros Hle Hs. rewrite inject_Z_mult, <- pow2_inject by lia.
  pose proof (pow2_add (e - ex) ex) as H.
  replace (e - ex + ex)%Z with e in H by lia.
  pose proof (pow2_pos ex) as Hpos.
  rewrite Hs, H. revert Hpos.
  generalize (pow2 (e - ex)) (pow2 ex) (inject_Z m). intros a b c Hb.
  field. lra.
Qed.

(** What [round64_pos] returns: the nearest multiple of the spacing, or
    the infinity. *)
Lemma round64_pos_cases (q : Q) :
  let r := inject_Z (round_half_even (q / spacing q)) * spacing q in
  (pow2 1024 <= r /\ round64_pos q = PosInf)
  \/ (r < pow2 1024 /\ exists r', round64_pos q = Fin r' /\ r' == r).
Proof.
  cbv zeta. rewrite round64_pos_unfold. cbv zeta.
  set (r := inject_Z (round_half_even (q / spacing q)) * spacing q).
  destruct (Qle_bool (pow2 1024) (Qred r)) eqn:E.
  - left. apply Qle_bool_iff in E. rewrite Qred_correct in E. now split.
  - right. split.
    + apply Qnot_le_lt. intros H. rewrite <- (Qred_correct r) in H.
      apply Qle_bool_iff in H. congruence.
    + exists (Qred r). split; [reflexivity | apply Qred_correct].
Qed.

Lemma spacing_below (q : Q) (m e : Z) :
  0 < q -> q <= inject_Z m * pow2 e -> (m < 2 ^ 53)%Z -> (-1074 <= e)%Z ->
  exists ex, spacing q == pow2 ex /\ (ex <= e)%Z.
Proof.
  intros Hq Hc Hm He. exists (Z.max (binade q - 52) (-1074)).
  split; [reflexivity|].
  destruct (binade_spec q Hq) as [Hb _].
  assert (H : pow2 (binade q) < pow2 (53 + e)).
  { rewrite pow2_add, (pow2_inject 53) by lia.
    rewrite Zlt_Qlt in Hm. pose proof (pow2_pos e) as Hpos.
    revert Hb Hc Hm Hpos.
    generalize (pow2 (binade q)) (pow2 e) (inject_Z m) (inject_Z (2 ^ 53)).
    intros. nra. }
  apply pow2_lt_inv in H. lia.
Qed.

(** Rounding does not cross a Number: from below. *)
Lemma round64_pos_upper (q : Q) (m e : Z) :
  0 < q -> q <= inject_Z m * pow2 e ->
  (m < 2 ^ 53)%Z -> (-1074 <= e <= 971)%Z ->
  exists r, round64_pos q = Fin r /\ 0 <= r /\ r <= inject_Z m * pow2 e.
Proof.
  intros Hq Hc Hm He.
  destruct (spacing_below q m e Hq Hc Hm ltac:(lia)) as (ex & Hs & Hex).
  pose proof (spacing_pos q) as Hpos.
  pose proof (pow2_multiple m e ex (spacing q) Hex Hs) as Hn.
  assert (Hle : (round_half_even (q / spacing q) <= m * 2 ^ (e - ex))%Z).
  { apply round_half_even_le. rewrite <- Hn.
    apply (proj2 (Qmult_le_r _ _ _ (Qinv_lt_0_compat _ Hpos))). exact Hc. }
  assert (Hge : (0 <= round_half_even (q / spacing q))%Z).
  { apply round_half_even_ge. change (inject_Z 0) with 0.
    apply Qle_shift_div_l; [assumption | lra]. }
  rewrite Zle_Qle in Hle, Hge. rewrite <- Hn in Hle.
  change (inject_Z 0) with 0 in Hge.
  assert (Hr : inject_Z (round_half_even (q / spacing q)) * spacing q
               <= inject_Z m * pow2 e).
  { revert Hle Hpos.
    generalize (inject_Z (round_half_even (q / spacing q))).
    generalize (spacing q) (inject_Z m * pow2 e).
    intros s c x Hle Hs'.
    assert (H : x * s <= c / s * s) by (apply (proj2 (Qmult_le_r _ _ _ Hs')); assumption).
    now rewrite Qdiv_mult_cancel in H. }
  assert (Hbig : inject_Z m * pow2 e < pow2 1024).
  { assert (H1 : pow2 1024 == pow2 53 * pow2 971) by (rewrite <- pow2_add; reflexivity).
    pose proof (pow2_le e 971 ltac:(lia)) as H2.
    rewrite H1, (pow2_inject 53) by lia. rewrite Zlt_Qlt in Hm.
    pose proof (pow2_pos e). revert Hq Hc Hm H2 H.
    generalize (pow2 971) (pow2 e) (inject_Z m) (inject_Z (2 ^ 53)).
    intros p971 pe M T Hq Hc Hm H2 Hpe.
    assert (HM : 0 < M) by (destruct (Qlt_le_dec 0 M); [assumption | nra]).
    assert (H3 : M * pe < T * pe) by nra.
    assert (H4 : T * pe <= T * p971) by nra.
    lra. }
  destruct (round64_pos_cases q) as [[Hover _]|[_ (r & Hr1 & Hr2)]].
  - lra.
  - exists r. split; [exact Hr1|]. rewrite Hr2. split; [|exact Hr].
    apply Qmult_le_0_compat; lra.
Qed.

(** Rounding does not cross a Number: from above. *)
Lemma round64_pos_lower (q : Q) (m e : Z) :
  0 < inject_Z m * pow2 e -> inject_Z m * pow2 e <= q ->
  (m < 2 ^ 53)%Z -> (-1074 <= e)%Z ->
  round64_pos q = PosInf
  \/ exists r, round64_pos q = Fin r /\ inject_Z m * pow2 e <= r.
Proof.
  intros Hc Hq Hm He.
  destruct (round64_pos_cases q) as [[_ Hover]|[_ (r & Hr1 & Hr2)]];
    [now left | right].
  exists r. split; [exact Hr1|]. rewrite Hr2. clear r Hr1 Hr2.
  pose proof (spacing_pos q) as Hpos.
  assert (Hq0 : 0 < q) by lra.
  set (ex := Z.max (binade q - 52) (-1074)).
  assert (Hs : spacing q == pow2 ex) by reflexivity.
  destruct (Z.le_gt_cases ex e) as [Hex|Hex].
  - pose proof (pow2_multiple m e ex (spacing q) Hex Hs) as Hn.
    assert (Hge : (m * 2 ^ (e - ex) <= round_half_even (q / spacing q))%Z).
    { apply round_half_even_ge. rewrite <- Hn.
      apply (proj2 (Qmult_le_r _ _ _ (Qinv_lt_0_compat _ Hpos))). exact Hq. }
    rewrite Zle_Qle, <- Hn in Hge. revert Hge Hpos.
    generalize (inject_Z (round_half_even (q / spacing q))).
    generalize (spacing q) (inject_Z m * pow2 e).
    intros s c x Hge Hs'.
    assert (H : c / s * s <= x * s) by (apply (proj2 (Qmult_le_r _ _ _ Hs')); assumption).
    now rewrite Qdiv_mult_cancel in H.
  - assert (Hb : ex = (binade q - 52)%Z) by lia.
    destruct (binade_spec q Hq0) as [Hlow _].
    pose proof (pow2_multiple 1 (binade q) ex (spacing q) ltac:(lia) Hs) as Hn.
    rewrite Qmult_1_l in Hn.
    assert (Hge : (1 * 2 ^ (binade q - ex) <= round_half_even (q / spacing q))%Z).
    { apply round_half_even_ge. rewrite <- Hn.
      apply (proj2 (Qmult_le_r _ _ _ (Qinv_lt_0_compat _ Hpos))). exact Hlow. }
    rewrite Zle_Qle, <- Hn in Hge.
    assert (Hc2 : inject_Z m * pow2 e <= pow2 (binade q)).
    { pose proof (pow2_le (53 + e) (binade q) ltac:(lia)) as H.
      rewrite pow2_add, (pow2_inject 53) in H by lia.
      rewrite Zlt_Qlt in Hm. pose proof (pow2_pos e) as He'.
      revert H Hm He'.
      generalize (pow2 (binade q)) (pow2 e) (inject_Z m) (inject_Z (2 ^ 53)).
      intros. nra. }
    revert Hge Hpos Hc2.
    generalize (inject_Z (round_half_even (q / spacing q))).
    generalize (spacing q) (inject_Z m * pow2 e) (pow2 (binade q)).
    intros s c b x Hge Hs' Hc2.
    assert (H : b / s * s <= x * s) by (apply (proj2 (Qmult_le_r _ _ _ Hs')); assumption).
    rewrite Qdiv_mult_cancel in H by assumption. lra.
Qed.

Lemma nleb_Fin (a b : Q) : nleb (Fin a) (Fin b) = true <-> a <= b.
Proof.
  simpl. destruct (Qcompare_spec a b); split; intros; try reflexivity;
    try discriminate; lra.
Qed.

Lemma round64_pos_nonneg (q : Q) :
  0 < q ->
  round64_pos q = PosInf \/ exists r, round64_pos q = Fin r /\ 0 <= r.
Proof.
  intros Hq.
  destruct (round64_pos_cases q) as [[_ H]|[_ (r & Hr1 & Hr2)]];
    [now left | right].
  exists r. split; [exact Hr1|]. rewrite Hr2.
  pose proof (spacing_pos q) as Hpos.
  apply Qmult_le_0_compat; [|lra].
  change 0 with (inject_Z 0). rewrite <- Zle_Qle.
  apply round_half_even_ge. change (inject_Z 0) with 0.
  apply Qle_shift_div_l; [assumption | lra].
Qed.

Lemma Qsign_Gt (q : Q) : Qsign q = Gt <-> 0 < q.
Proof. unfold Qsign. destruct (Qcompare_spec q 0); split; intros; try discriminate; try reflexivity; lra. Qed.

Lemma Qsign_Lt (q : Q) : Qsign q = Lt <-> q < 0.
Proof. unfold Qsign. destruct (Qcompare_spec q 0); split; intros; try discriminate; try reflexivity; lra. Qed.

Lemma Qsign_Eq (q : Q) : Qsign q = Eq <-> q == 0.
Proof. unfold Qsign. destruct (Qcompare_spec q 0); split; intros; try discriminate; try reflexivity; lra. Qed.

(** Rounding does not cross a Number. *)
Lemma round64_le (q c : Q) :
  representable c -> q <= c -> nleb (round64 q) (Fin c) = true.
Proof.
  intros (m & e & Hc & Hm & He) Hq. unfold round64.
  pose proof (pow2_pos e) as Hpe.
  assert (Hopp : inject_Z (- m) * pow2 e == - c)
    by (rewrite inject_Z_opp, Hc; ring).
  destruct (Qsign q) eqn:E.
  - apply (proj1 (Qsign_Eq q)) in E. apply nleb_Fin. lra.
  - apply (proj1 (Qsign_Lt q)) in E.
    destruct (Qlt_le_dec c 0) as [Hneg|Hpos].
    + assert (H1 : 0 < inject_Z (- m) * pow2 e) by lra.
      assert (H2 : inject_Z (- m) * pow2 e <= - q) by lra.
      destruct (round64_pos_lower (- q) (- m) e H1 H2 ltac:(lia) ltac:(lia))
        as [->|(r & -> & Hr)]; [reflexivity|].
      simpl nneg. apply nleb_Fin. rewrite Qred_correct. lra.
    + assert (H1 : 0 < - q) by lra.
      destruct (round64_pos_nonneg (- q) H1) as [->|(r & -> & Hr)];
        [reflexivity|].
      simpl nneg. apply nleb_Fin. rewrite Qred_correct. lra.
  - apply (proj1 (Qsign_Gt q)) in E.
    assert (H2 : q <= inject_Z m * pow2 e) by lra.
    destruct (round64_pos_upper q m e E H2 ltac:(lia) He) as (r & -> & _ & Hr).
    apply nleb_Fin. lra.
Qed.

Lemma round64_ge (q c : Q) :
  representable c -> c <= q -> nleb (Fin c) (round64 q) = true.
Proof.
  intros (m & e & Hc & Hm & He) Hq. unfold round64.
  pose proof (pow2_pos e) as Hpe.
  assert (Hopp : inject_Z (- m) * pow2 e == - c)
    by (rewrite inject_Z_opp, Hc; ring).
  destruct (Qsign q) eqn:E.
  - apply (proj1 (Qsign_Eq q)) in E. apply nleb_Fin. lra.
  - apply (proj1 (Qsign_Lt q)) in E.
    assert (H1 : 0 < - q) by lra.
    assert (H2 : - q <= inject_Z (- m) * pow2 e) by lra.
    destruct (round64_pos_upper (- q) (- m) e H1 H2 ltac:(lia) He)
      as (r & -> & _ & Hr).
    simpl nneg. apply nleb_Fin. rewrite Qred_correct. lra.
  - apply (proj1 (Qsign_Gt q)) in E.
    destruct (Qlt_le_dec 0 c) as [Hpos|Hneg].
    + assert (H1 : 0 < inject_Z m * pow2 e) by lra.
      assert (H2 : inject_Z m * pow2 e <= q) by lra.
      destruct (round64_pos_lower q m e H1 H2 ltac:(lia) ltac:(lia))
        as [->|(r & -> & Hr)]; [reflexivity|].
      apply nleb_Fin. lra.
    + destruct (round64_pos_nonneg q E) as [->|(r & -> & Hr)];
        [reflexivity|].
      apply nleb_Fin. lra.
Qed.

(** A fraction of [round64] is in lowest terms. *)
Lemma round64_reduced (q r : Q) : round64 q = Fin r -> Qred r = r.
Proof.
  assert (Hred : forall x, Qred (Qred x) = Qred x)
    by (intros x; apply Qred_complete, Qred_correct).
  unfold round64, round64_pos.
  destruct (Qsign q).
  - intros [= <-]. reflexivity.
  - match goal with |- context [if ?c then _ else _] => destruct c end;
      simpl; intros [= <-]; apply Hred.
  - match goal with |- context [if ?c then _ else _] => destruct c end;
      [discriminate|]. intros [= <-]. apply Hred.
Qed.

(** A Number is its own Number value. *)
Lemma round64_exact (c : Q) : representable c -> round64 c = Fin (Qred c).
Proof.
  intros Hc.
  pose proof (round64_le c c Hc (Qle_refl c)) as H1.
  pose proof (round64_ge c c Hc (Qle_refl c)) as H2.
  destruct (round64 c) as [| | |r] eqn:E; try discriminate.
  apply nleb_Fin in H1, H2.
  rewrite <- (round64_reduced c r E). f_equal. apply Qred_complete. lra.
Qed.

Lemma representable_Z (z : Z) :
  (Z.abs z <= 2 ^ 53)%Z -> representable (inject_Z z).
Proof.
  intros H. destruct (Z.eq_dec (Z.abs z) (2 ^ 53)%Z) as [E|E].
  - exists (z / 2)%Z, 1%Z. split; [|split; [|lia]].
    + change (pow2 1) with (inject_Z 2). rewrite <- inject_Z_mult.
      assert (z = (z / 2 * 2)%Z) as <-; [|reflexivity].
      assert (H2 : (z = 2 ^ 53 \/ z = - 2 ^ 53)%Z) by lia.
      destruct H2 as [-> | ->]; reflexivity.
    + assert (H2 : (z = 2 ^ 53 \/ z = - 2 ^ 53)%Z) by lia.
      destruct H2 as [-> | ->]; reflexivity.
  - exists z, 0%Z. split; [|split; lia].
    change (pow2 0) with 1. now rewrite Qmult_1_r.
Qed.

Lemma Qred_inject_Z (z : Z) : Qred (inject_Z z) = inject_Z z.
Proof.
  unfold Qred, inject_Z.
  pose proof (Z.ggcd_gcd z 1) as Hg.
  pose proof (Z.ggcd_correct_divisors z 1) as Hd.
  destruct (Z.ggcd z 1) as [g [a b]]. simpl in Hg.
  rewrite Z.gcd_1_r in Hg. subst g. destruct Hd as [Ha Hb].
  rewrite !Z.mul_1_l in *. now subst.
Qed.

(** An integer up to [2^53] is a Number. *)
Lemma round64_Z (z : Z) :
  (Z.abs z <= 2 ^ 53)%Z -> round64 (inject_Z z) = Fin (inject_Z z).
Proof.
  intros H. rewrite round64_exact by now apply representable_Z.
  f_equal. apply Qred_inject_Z.
Qed.

(** *** The error of a rounding *)

Lemma half_spacing (x : Q) :
  0 < x -> spacing x * (1 # 2) <= x * (1 # 2 ^ 53) + tiny.
Proof.
  intros Hx. unfold spacing, tiny.
  destruct (binade_spec x Hx) as [Hlow _].
  pose proof (pow2_pos (-1075)) as Ht.
  destruct (Z.max_spec (binade x - 52) (-1074)) as [[_ ->]|[_ ->]].
  - pose proof (pow2_succ (-1075)) as H. change (-1075 + 1)%Z with (-1074)%Z in H.
    rewrite H. revert Ht. generalize (pow2 (-1075)). intros t Ht.
    assert (0 <= x * (1 # 2 ^ 53)) by (apply Qmult_le_0_compat; [lra | discriminate]).
    lra.
  - pose proof (pow2_add (binade x) (-52)) as H.
    replace (binade x + -52)%Z with (binade x - 52)%Z in H by lia.
    rewrite H. change (pow2 (-52)) with (1 # 2 ^ 52).
    revert Hlow Ht. generalize (pow2 (binade x)) (pow2 (-1075)).
    intros b t Hlow Ht.
    assert (E : b * (1 # 2 ^ 52) * (1 # 2) == b * (1 # 2 ^ 53)).
    { rewrite <- Qmult_assoc. reflexivity. }
    rewrite E.
    assert (b * (1 # 2 ^ 53) <= x * (1 # 2 ^ 53))
      by (apply Qmult_le_compat_r; [assumption | discriminate]).
    lra.
Qed.

(** A finite result of [round64_pos] is within half the spacing. *)
Lemma round64_pos_error (x r : Q) :
  0 < x -> round64_pos x = Fin r ->
  - (x * (1 # 2 ^ 53) + tiny) <= r - x <= x * (1 # 2 ^ 53) + tiny.
Proof.
  intros Hx Hr.
  destruct (round64_pos_cases x) as [[_ H]|[_ (r' & H1 & H2)]];
    [congruence|].
  rewrite Hr in H1. injection H1 as <-. rewrite H2.
  pose proof (round_half_even_near (x / spacing x)) as [Hn1 Hn2].
  pose proof (spacing_pos x) as Hs.
  pose proof (half_spacing x Hx) as Hh.
  pose proof (Qdiv_mult_cancel x (spacing x) Hs) as Hc.
  revert Hn1 Hn2 Hs Hh Hc.
  generalize (inject_Z (round_half_even (x / spacing x))).
  generalize tiny (spacing x) (x / spacing x).
  intros t s y m Hn1 Hn2 Hs Hh Hc.
  assert (H3 : (y - (1 # 2)) * s <= m * s)
    by (apply Qmult_le_compat_r; lra).
  assert (H4 : m * s <= (y + (1 # 2)) * s)
    by (apply Qmult_le_compat_r; lra).
  lra.
Qed.

(** The error of [round64] on a fraction of size at most [A]. *)
Lemma round64_error (x r A : Q) :
  round64 x = Fin r -> - A <= x <= A ->
  - (A * (1 # 2 ^ 53) + tiny) <= r - x <= A * (1 # 2 ^ 53) + tiny.
Proof.
  unfold round64. intros Hr [HA1 HA2].
  assert (Ht : 0 < tiny) by apply pow2_pos.
  assert (Hmono : forall y, 0 <= y -> y <= A ->
                            y * (1 # 2 ^ 53) <= A * (1 # 2 ^ 53))
    by (intros y _ Hy; apply Qmult_le_compat_r; [assumption | discriminate]).
  destruct (Qsign x) eqn:E.
  - apply (proj1 (Qsign_Eq x)) in E. injection Hr as <-.
    specialize (Hmono 0 ltac:(lra) ltac:(lra)). lra.
  - apply (proj1 (Qsign_Lt x)) in E.
    destruct (round64_pos (- x)) as [| | |r'] eqn:E'; try discriminate.
    injection Hr as <-. rewrite Qred_correct.
    pose proof (round64_pos_error (- x) r' ltac:(lra) E') as [H1 H2].
    specialize (Hmono (- x) ltac:(lra) ltac:(lra)). lra.
  - apply (proj1 (Qsign_Gt x)) in E.
    pose proof (round64_pos_error x r E Hr) as [H1 H2].
    specialize (Hmono x ltac:(lra) ltac:(lra)). lra.
Qed.

(** A fraction of size at most a Number has a finite Number value, of at
    most that size. *)
Lemma round64_bounded (x A : Q) :
  representable A -> - A <= x <= A ->
  exists r, round64 x = Fin r /\ - A <= r <= A.
Proof.
  intros HA [H1 H2].
  assert (HA' : representable (- A)).
  { destruct HA as (m & e & Hc & Hm & He). exists (- m)%Z, e.
    split; [|split; [lia | assumption]].
    rewrite inject_Z_opp, Hc. ring. }
  pose proof (round64_le x A HA H2) as Hle.
  pose proof (round64_ge x (- A) HA' H1) as Hge.
  destruct (round64 x) as [| | |r]; try discriminate.
  exists r. split; [reflexivity|].
  apply nleb_Fin in Hle, Hge. lra.
Qed.

(** A finite Number value is a Number. *)
Lemma round64_pos_representable (x r : Q) :
  0 < x -> round64_pos x = Fin r -> representable r.
Proof.
  intros Hx Hr.
  destruct (round64_pos_cases x) as [[_ H]|[Hfin (r' & H1 & H2)]];
    [congruence|].
  rewrite Hr in H1. injection H1 as <-.
  destruct (binade_spec x Hx) as [Hlow Hhigh].
  set (ex := Z.max (binade x - 52) (-1074)) in *.
  assert (Hs : spacing x == pow2 ex) by reflexivity.
  pose proof (spacing_pos x) as Hpos.
  set (m := round_half_even (x / spacing x)) in *.
  assert (Hm0 : (0 <= m)%Z).
  { apply round_half_even_ge. change (inject_Z 0) with 0.
    apply Qle_shift_div_l; [assumption | lra]. }
  assert (Hm1 : (m <= 2 ^ 53)%Z).
  { apply round_half_even_le.
    pose proof (pow2_multiple 1 (ex + 53) ex (spacing x) ltac:(lia) Hs) as Hn.
    replace (ex + 53 - ex)%Z with 53%Z in Hn by lia.
    rewrite Qmult_1_l, Z.mul_1_l in Hn. rewrite <- Hn.
    apply (proj2 (Qmult_le_r _ _ _ (Qinv_lt_0_compat _ Hpos))).
    apply Qlt_le_weak, (Qlt_le_trans _ _ _ Hhigh). apply pow2_le. lia. }
  assert (Hex : (ex <= 971)%Z).
  { destruct (Z.le_gt_cases ex 971) as [H|H]; [exact H|exfalso].
    assert (Hb : ex = (binade x - 52)%Z) by lia.
    assert (Hm2 : (2 ^ 52 <= m)%Z).
    { apply round_half_even_ge.
      pose proof (pow2_multiple 1 (binade x) ex (spacing x) ltac:(lia) Hs)
        as Hn.
      replace (binade x - ex)%Z with 52%Z in Hn by lia.
      rewrite Qmult_1_l, Z.mul_1_l in Hn. rewrite <- Hn.
      apply (proj2 (Qmult_le_r _ _ _ (Qinv_lt_0_compat _ Hpos))).
      exact Hlow. }
    rewrite Zle_Qle, <- pow2_inject in Hm2 by lia.
    pose proof (pow2_le 972 ex ltac:(lia)) as Hex.
    assert (E : pow2 1024 == pow2 52 * pow2 972)
      by (rewrite <- pow2_add; reflexivity).
    rewrite Hs, E in Hfin. pose proof (pow2_pos 52). pose proof (pow2_pos 972).
    revert Hfin Hm2 Hex H0 H1.
    generalize (inject_Z m) (pow2 ex) (pow2 52) (pow2 972). intros.
    assert (q1 * q2 <= q * q2) by nra. assert (q * q2 <= q * q0) by nra.
    lra. }
  destruct (Z.eq_dec m (2 ^ 53)%Z) as [E|E].
  - exists (2 ^ 52)%Z, (ex + 1)%Z. split; [|split].
    + rewrite H2, Hs. fold m. rewrite E.
      rewrite <- (pow2_inject 53), <- (pow2_inject 52), <- !pow2_add by lia.
      now replace (53 + ex)%Z with (52 + (ex + 1))%Z by lia.
    + vm_compute. reflexivity.
    + assert (Hlt : (ex + 1 <= 971)%Z); [|unfold ex in *; lia].
      rewrite Hs, E in Hfin.
      rewrite <- (pow2_inject 53), <- pow2_add in Hfin by lia.
      apply pow2_lt_inv in Hfin. lia.
  - exists m, ex. split; [|split].
    + now rewrite H2, Hs.
    + lia.
    + unfold ex in *. lia.
Qed.

Lemma representable_opp (c : Q) : representable c -> representable (- c).
Proof.
  intros (m & e & Hc & Hm & He). exists (- m)%Z, e.
  split; [|split; [lia | assumption]].
  rewrite inject_Z_opp, Hc. ring.
Qed.

Lemma representable_comp (c c' : Q) :
  c == c' -> representable c -> representable c'.
Proof.
  intros H (m & e & Hc & Hm & He). exists m, e.
  split; [now rewrite <- H | split; assumption].
Qed.

Lemma round64_representable (x r : Q) : round64 x = Fin r -> representable r.
Proof.
  unfold round64. destruct (Qsign x) eqn:E.
  - intros [= <-]. exists 0%Z, 0%Z. split; [reflexivity | split; lia].
  - apply (proj1 (Qsign_Lt x)) in E.
    destruct (round64_pos (- x)) as [| | |r'] eqn:E'; try discriminate.
    intros [= <-].
    apply (representable_comp (- r')); [now rewrite Qred_correct|].
    apply representable_opp, (round64_pos_representable (- x)); [lra | exact E'].
  - apply (proj1 (Qsign_Gt x)) in E. now apply round64_pos_representable.
Qed.

Lemma tiny_small : 0 < tiny /\ tiny <= 1 # 10 ^ 30.
Proof.
  split; [apply pow2_pos|]. unfold tiny.
  apply (Qle_trans _ (pow2 (-100))); [apply pow2_le; lia|].
  vm_compute. discriminate.
Qed.

(** The same error, seen at the scale [P]. *)
Lemma round64_error_scaled (x r P A : Q) :
  round64 x = Fin r -> 0 < P -> - A <= x * P <= A ->
  - (A * (1 # 2 ^ 53) + P * tiny) <= r * P - x * P
  /\ r * P - x * P <= A * (1 # 2 ^ 53) + P * tiny.
Proof.
  intros Hr HP [H1 H2].
  assert (Hb : - (A / P) <= x <= A / P).
  { split.
    - assert (H : - A / P <= x) by (apply Qle_shift_div_r; assumption).
      assert (E : - (A / P) == - A / P) by (field; lra).
      now rewrite E.
    - apply Qle_shift_div_l; assumption. }
  destruct (round64_error x r (A / P) Hr Hb) as [H3 H4].
  assert (E : (A / P * (1 # 2 ^ 53) + tiny) * P == A * (1 # 2 ^ 53) + P * tiny)
    by (field; lra).
  assert (H5 : (r - x) * P <= (A / P * (1 # 2 ^ 53) + tiny) * P)
    by (apply Qmult_le_compat_r; lra).
  assert (H6 : - (A / P * (1 # 2 ^ 53) + tiny) * P <= (r - x) * P)
    by (apply Qmult_le_compat_r; lra).
  revert E H5 H6. generalize (A / P * (1 # 2 ^ 53) + tiny). intros B E H5 H6.
  split; lra.
Qed.

Lemma Qfloor_near (z : Z) (y : Q) :
  inject_Z z - (1 # 2) <= y -> y < inject_Z z + (1 # 2) ->
  Qfloor (y + (1 # 2)) = z.
Proof.
  intros H1 H2.
  pose proof (Qfloor_le (y + (1 # 2))) as H3.
  pose proof (Qlt_floor (y + (1 # 2))) as H4.
  set (f := Qfloor (y + (1 # 2))) in *.
  rewrite inject_Z_plus in H4. change (inject_Z 1) with 1 in H4.
  assert (Ha : inject_Z f < inject_Z (z + 1)).
  { rewrite inject_Z_plus. change (inject_Z 1) with 1.
    revert H1 H2 H3 H4. generalize (inject_Z f) (inject_Z z). intros. lra. }
  assert (Hb : inject_Z (z + -1) < inject_Z f).
  { rewrite inject_Z_plus. change (inject_Z (-1)) with (-1 # 1).
    revert H1 H2 H3 H4. generalize (inject_Z f) (inject_Z z). intros. lra. }
  rewrite <- Zlt_Qlt in Ha, Hb. lia.
Qed.

Lemma representable_pow2 (e : Z) :
  (0 <= e <= 1023)%Z -> representable (inject_Z (2 ^ e)).
Proof.
  intros He. destruct (Z.le_gt_cases e 52) as [H|H].
  - exists (2 ^ e)%Z, 0%Z. split; [|split; [|lia]].
    + change (pow2 0) with 1. now rewrite Qmult_1_r.
    + rewrite Z.abs_eq by (apply Z.pow_nonneg; lia).
      apply Z.pow_lt_mono_r; lia.
  - exists (2 ^ 52)%Z, (e - 52)%Z. split; [|split; [|lia]].
    + rewrite <- (pow2_inject 52), <- pow2_add, <- pow2_inject by lia.
      now replace (52 + (e - 52))%Z with e by lia.
    + vm_compute. reflexivity.
Qed.

Ltac numerals :=
  change (2 ^ 11)%positive with 2048%positive in *;
  change (2 ^ 53)%positive with 9007199254740992%positive in *;
  change (10 ^ 8)%positive with 100000000%positive in *;
  change (10 ^ 30)%positive with 1000000000000000000000000000000%positive in *;
  change (inject_Z (10 ^ 22)) with 10000000000000000000000 in *;
  change (inject_Z (2 ^ 41)) with 2199023255552 in *;
  change (inject_Z (- 2 ^ 41)) with (-2199023255552) in *;
  change (inject_Z (2 ^ 43)) with 8796093022208 in *.

(** The sum of two Numbers near [z1/P] and [z2/P], multiplied by [P] and
    rounded by [Math.round], is the integer [z1 + z2]: the errors of the
    two roundings on the way stay far below one half. *)
Lemma sum_rounds_to (P x1 x2 : Q) (z1 z2 : Z) :
  1 <= P -> P <= inject_Z (10 ^ 22) ->
  (Z.abs z1 <= 2 ^ 41)%Z -> (Z.abs z2 <= 2 ^ 41)%Z ->
  - (1 # 2 ^ 11) <= x1 * P - inject_Z z1 <= 1 # 2 ^ 11 ->
  - (1 # 2 ^ 11) <= x2 * P - inject_Z z2 <= 1 # 2 ^ 11 ->
  exists a b,
    round64 (x1 + x2) = Fin a /\ round64 (a * P) = Fin b
    /\ Qfloor (b + (1 # 2)) = (z1 + z2)%Z.
Proof.
  intros HP1 HP2 Hz1 Hz2 [Hx1 Hx1'] [Hx2 Hx2'].
  destruct tiny_small as [Ht1 Ht2].
  assert (HPt : P * tiny <= 1 # 10 ^ 8).
  { apply (Qle_trans _ (inject_Z (10 ^ 22) * (1 # 10 ^ 30))).
    - apply Qmult_le_compat_nonneg; split; lra.
    - vm_compute. discriminate. }
  assert (HPt0 : 0 <= P * tiny) by (apply Qmult_le_0_compat; lra).
  apply Z.abs_le in Hz1, Hz2. destruct Hz1 as [Hz1 Hz1'], Hz2 as [Hz2 Hz2'].
  rewrite Zle_Qle in Hz1, Hz1', Hz2, Hz2'.
  pose proof (representable_pow2 43 ltac:(lia)) as Hrep.
  numerals.
  assert (HS : - (4398046511105) <= (x1 + x2) * P <= 4398046511105)
    by (split; lra).
  assert (Hsum : - (8796093022208) <= x1 + x2 <= 8796093022208).
  { revert HS. generalize (x1 + x2). intros s [HS1 HS2].
    split.
    - destruct (Qlt_le_dec s (- (8796093022208))) as [H|H]; [|assumption].
      assert (s * P <= s * 1) by nra.
      lra.
    - destruct (Qlt_le_dec 8796093022208 s) as [H|H]; [|assumption].
      assert (s * 1 <= s * P) by nra.
      lra. }
  destruct (round64_bounded (x1 + x2) 8796093022208 Hrep Hsum)
    as (a & Ha & _).
  destruct (round64_error_scaled (x1 + x2) a P 4398046511105 Ha
              ltac:(lra) HS) as [Ha1 Ha2].
  numerals.
  assert (HaP : - (8796093022208) <= a * P <= 8796093022208) by (split; lra).
  destruct (round64_bounded (a * P) 8796093022208 Hrep HaP) as (b & Hb & _).
  assert (HaP1 : - (4398046511106) <= a * P * 1 <= 4398046511106)
    by (split; lra).
  destruct (round64_error_scaled (a * P) b 1 4398046511106 Hb
              ltac:(lra) HaP1) as [Hb1 Hb2].
  numerals.
  exists a, b. split; [exact Ha|]. split; [exact Hb|].
  apply Qfloor_near; rewrite inject_Z_plus; lra.
Qed.
(** ** Text *)

Lemma append_nil (b : string) : "" ++ b = b.
Proof. reflexivity. Qed.

Lemma append_cons (c : ascii) (a b : string) :
  String c a ++ b = String c (a ++ b).
Proof. reflexivity. Qed.

Ltac simpl_append := rewrite ?append_cons, ?append_nil; simpl.

Lemma append_empty_r (s : string) : s ++ "" = s.
Proof. induction s; simpl_append; congruence. Qed.

Lemma append_assoc (a b c : string) : (a ++ b) ++ c = a ++ b ++ c.
Proof. induction a; simpl_append; congruence. Qed.

Lemma length_append (a b : string) :
  String.length (a ++ b) = (String.length a + String.length b)%nat.
Proof. induction a; simpl_append; congruence. Qed.

Lemma take_substring_from (n : nat) (s : string) :
  take_string n s ++ substring_from n s = s.
Proof.
  revert s; induction n; intros [|c s]; simpl; simpl_append; try reflexivity.
  now rewrite IHn.
Qed.

Lemma take_string_append (a b : string) :
  take_string (String.length a) (a ++ b) = a.
Proof. induction a; simpl_append; [now destruct b | now rewrite IHa]. Qed.

Lemma substring_from_append (a b : string) :
  substring_from (String.length a) (a ++ b) = b.
Proof. induction a; simpl_append; auto. Qed.

Lemma trimStart_pad (pad s : string) :
  string_forallb isWhiteSpace pad = true ->
  head_is isWhiteSpace s = false ->
  trimStart (pad ++ s) = s.
Proof.
  intros Hpad Hs. induction pad as [|c pad IH]; simpl_append.
  - destruct s as [|c s]; simpl in *; [reflexivity | now rewrite Hs].
  - simpl in Hpad. apply andb_prop in Hpad as [Hc Hpad]. now rewrite Hc, IH.
Qed.

(** [endsWith] decides whether the text is some base followed by the
    suffix, and [slice_to_end_minus] gives that base back. *)
Lemma endsWith_spec (s p : string) :
  endsWith s p = true <-> exists base, s = base ++ p.
Proof.
  unfold endsWith; split.
  - intros H. apply andb_prop in H as [_ H]. apply String.eqb_eq in H.
    exists (take_string (String.length s - String.length p) s).
    etransitivity; [symmetry; apply (take_substring_from
      (String.length s - String.length p) s)|].
    now rewrite H.
  - intros [base ->]. rewrite length_append.
    replace (String.length base + String.length p - String.length p)%nat
      with (String.length base) by lia.
    rewrite substring_from_append, String.eqb_refl, andb_true_r.
    apply Nat.leb_le. lia.
Qed.

Lemma slice_suffix (base p : string) :
  slice_to_end_minus (String.length p) (base ++ p) = base.
Proof.
  unfold slice_to_end_minus. rewrite length_append.
  replace (String.length base + String.length p - String.length p)%nat
    with (String.length base) by lia.
  apply take_string_append.
Qed.

(** ** The outbound encoder *)

Lemma wireMessage_plain (variableName : string) (value : number) :
  endsWith variableName "_mod" = false ->
  wireMessage variableName value = variableName ++ " " ++ Number_toString value.
Proof. unfold wireMessage. now intros ->. Qed.

Lemma wireMessage_mod (base : string) (value : number) :
  wireMessage (base ++ "_mod") value
  = base ++ " " ++ Number_toString value ++ " mod".
Proof.
  unfold wireMessage.
  replace (endsWith (base ++ "_mod") "_mod") with true
    by (symmetry; apply endsWith_spec; now exists base).
  change 4%nat with (String.length "_mod"). rewrite slice_suffix.
  now rewrite !append_assoc.
Qed.

Lemma sendVariableUpdate_open (variableName : string) (value : number)
    (w : WebSocket) :
  readyState w = WebSocket_OPEN ->
  sendVariableUpdate variableName value (Some w)
  = Some (mkWebSocket (readyState w)
            (sent w ++ wireMessage variableName value :: nil)%list).
Proof. unfold sendVariableUpdate. now intros ->. Qed.

Lemma sendVariableUpdate_closed (variableName : string) (value : number)
    (ws : option WebSocket) :
  notConnected ws = true -> sendVariableUpdate variableName value ws = ws.
Proof. destruct ws as [w|]; simpl; [now intros -> | reflexivity]. Qed.

(** C6.  On an open transport [sendVariableUpdate] sends one message: the
    name, a space and the text of the value when the name does not end in
    [_mod]; the name without that suffix, a space, the text of the value
    and the token [mod] when it does.  Variable [sample_angle_mod] with
    value 2 is sent as [sample_angle 2 mod]. *)
Theorem wire_format (variableName : string) (value : number) (w : WebSocket) :
  readyState w = WebSocket_OPEN ->
  exists message,
    sendVariableUpdate variableName value (Some w)
    = Some (mkWebSocket (readyState w) (sent w ++ message :: nil)%list)
    /\ ((forall base, variableName <> base ++ "_mod") ->
        message = variableName ++ " " ++ Number_toString value)
    /\ (forall base, variableName = base ++ "_mod" ->
        message = base ++ " " ++ Number_toString value ++ " mod")
    /\ sendVariableUpdate "sample_angle_mod" (Fin 2) (Some w)
       = Some (mkWebSocket (readyState w)
                 (sent w ++ "sample_angle 2 mod" :: nil)%list).
Proof.
  intros Hopen. exists (wireMessage variableName value).
  split; [now apply sendVariableUpdate_open|].
  split; [|split].
  - intros Hno. apply wireMessage_plain.
    destruct (endsWith variableName "_mod") eqn:E; [|reflexivity].
    apply endsWith_spec in E as [base ->]. now destruct (Hno base).
  - intros base ->. apply wireMessage_mod.
  - now rewrite sendVariableUpdate_open.
Qed.

Lemma wire_format_witness :
  exists message,
    sendVariableUpdate "turn_rate_mod" (Fin (3 # 2)) (Some (mkWebSocket 1 nil))
    = Some (mkWebSocket 1 (message :: nil))
    /\ message = "turn_rate 1.5 mod".
Proof.
  destruct (wire_format "turn_rate_mod" (Fin (3 # 2)) (mkWebSocket 1 nil)
              eq_refl) as (message & Hsend & _ & Hmod & _).
  exists message. split; [exact Hsend|]. exact (Hmod "turn_rate" eq_refl).
Defined.

(** ** The decoder on examples *)

(** C7.  The line [.{a=1, b=bad, c=3.5}] decodes to the mapping of [a] to 1
    and [c] to 3.5 and nothing else: the block under [try] completes, the
    fragment [b=bad] leaves no key. *)
Theorem decode_permissive :
  parseSimulationState_try (JString ".{a=1, b=bad, c=3.5}")
  = inr {[ "a" := Fin 1; "c" := Fin (7 # 2) ]}
  /\ parseSimulationState (JString ".{a=1, b=bad, c=3.5}")
     = Some {[ "a" := Fin 1; "c" := Fin (7 # 2) ]}
  /\ parseAssignment " b=bad" = None
  /\ ({[ "a" := Fin 1; "c" := Fin (7 # 2) ]} : gmap string number) !! "b" = None.
Proof. repeat split; vm_compute; reflexivity. Qed.

(** ** A decoder that throws *)

(** On a text the block under [try] always completes. *)
Lemma parseSimulationState_text (s : string) :
  exists state, parseSimulationState (JString s) = Some state.
Proof. unfold parseSimulationState; simpl; eauto. Qed.

(** C4.  When the block under [try] throws, [parseSimulationState] returns
    [null], and the listener then leaves every variable of the registry as
    it was. *)
Theorem decode_failure_keeps_registry (stateString : jsvalue) (e : exception)
    (vars : list VariableDef) :
  parseSimulationState_try stateString = inl e ->
  parseSimulationState stateString = None
  /\ onServerState (parseSimulationState stateString) vars = (vars, Normal).
Proof.
  intros H. unfold parseSimulationState. rewrite H. split; reflexivity.
Qed.

Lemma decode_failure_keeps_registry_witness :
  parseSimulationState JUndefined = None
  /\ onServerState (parseSimulationState JUndefined) variables
     = (variables, Normal).
Proof.
  apply (decode_failure_keeps_registry JUndefined TypeError variables).
  reflexivity.
Defined.

(** ** Applying a snapshot *)

Lemma hasOwnProperty_plain (serverState : gmap string number) (key : string) :
  serverState !! "hasOwnProperty" = None ->
  hasOwnProperty serverState key
  = inr (bool_decide (is_Some (serverState !! key))).
Proof. unfold hasOwnProperty. now intros ->. Qed.

(** Without a key [hasOwnProperty] the loop completes and has treated every
    variable. *)
Lemma update_completes (serverState : gmap string number)
    (vars : list VariableDef) :
  serverState !! "hasOwnProperty" = None ->
  updateVariablesFromServer serverState vars
  = (map (updateVariable serverState) vars, Normal).
Proof.
  intros Hno. induction vars as [|v rest IH]; simpl; [reflexivity|].
  rewrite hasOwnProperty_plain, IH by assumption. unfold updateVariable.
  destruct (serverState !! name v); simpl; reflexivity.
Qed.

(** With such a key the first membership test throws, before any write. *)
Lemma update_throws (serverState : gmap string number) (x : number)
    (variable : VariableDef) (rest : list VariableDef) :
  serverState !! "hasOwnProperty" = Some x ->
  updateVariablesFromServer serverState (variable :: rest)
  = (variable :: rest, Throw TypeError).
Proof. intros H. simpl. unfold hasOwnProperty. now rewrite H. Qed.

(** In every case only the field [value] of a variable can change, and only
    for a variable that the snapshot mentions. *)
Lemma update_lookup (serverState : gmap string number)
    (vars : list VariableDef) (i : nat) (variable : VariableDef) :
  vars !! i = Some variable ->
  fst (updateVariablesFromServer serverState vars) !! i = Some variable
  \/ fst (updateVariablesFromServer serverState vars) !! i
     = Some (updateVariable serverState variable).
Proof.
  revert i. induction vars as [|v rest IH]; intros i Hi; [discriminate|].
  simpl. destruct (hasOwnProperty serverState (name v)) as [e|has];
    [now left|].
  destruct (updateVariablesFromServer serverState rest) as [rest' c] eqn:E.
  destruct i as [|i]; simpl in *.
  - injection Hi as ->. unfold updateVariable.
    destruct has, (serverState !! name variable); auto.
  - apply (IH i Hi).
Qed.

Lemma update_frame (serverState : gmap string number)
    (vars : list VariableDef) (i : nat) (variable : VariableDef) :
  vars !! i = Some variable ->
  serverState !! name variable = None ->
  fst (updateVariablesFromServer serverState vars) !! i = Some variable.
Proof.
  intros Hi Hno. destruct (update_lookup serverState vars i variable Hi)
    as [H|H]; rewrite H; [reflexivity|].
  unfold updateVariable. now rewrite Hno.
Qed.

Lemma update_length (serverState : gmap string number)
    (vars : list VariableDef) :
  length (fst (updateVariablesFromServer serverState vars)) = length vars.
Proof.
  induction vars as [|v rest IH]; simpl; [reflexivity|].
  destruct (hasOwnProperty serverState (name v)); [reflexivity|].
  destruct (updateVariablesFromServer serverState rest); simpl in *.
  now rewrite IH.
Qed.

(** C5.  A snapshot that carries, next to [move_dist], the key
    [hasOwnProperty] (which names no variable) is not applied at all: the
    membership test of the first variable throws and [move_dist] keeps its
    value, although the same snapshot without that key sets it to 1.5. *)
Theorem unknown_key_hasOwnProperty_aborts :
  parseSimulationState (JString ".{move_dist=1.5, hasOwnProperty=2}")
  = Some {[ "move_dist" := Fin (3 # 2); "hasOwnProperty" := Fin 2 ]}
  /\ onmessage (JString "Success: .{move_dist=1.5, hasOwnProperty=2}") variables
     = (variables, Throw TypeError)
  /\ onmessage (JString "Success: .{move_dist=1.5}") variables
     = (<[0%nat := set_value (mkVariable "move_dist" "float" (Fin 0)
                      (Some (round64 (1 # 100))) None) (Fin (3 # 2))]> variables,
        Normal).
Proof. repeat split; vm_compute; reflexivity. Qed.

(** ** The range invariant *)

Lemma nor_not_NaN (a b : number) : is_NaN b = false -> is_NaN (nor a b) = false.
Proof. unfold nor. destruct a; simpl; auto. now destruct (Qsign q). Qed.

(** A committed edit is clamped last, so it lands in the range. *)
Lemma applyEdit_within (this : Component) (variable_def : VariableDef)
    (ws : option WebSocket) :
  isEditing this = true -> range_ok (range variable_def) = true ->
  within (value (snd (fst (applyEdit this variable_def ws))))
         (range variable_def) = true.
Proof.
  intros Hed Hok. unfold applyEdit. rewrite Hed. simpl.
  apply clampValue_within; [assumption|].
  destruct (String.eqb (type variable_def) "int"); now apply nor_not_NaN.
Qed.

Lemma Math_round_not_NaN (a : number) :
  is_NaN a = false -> is_NaN (Math_round a) = false.
Proof. now destruct a. Qed.

Lemma ndiv_positive_not_NaN (a : number) (d : Q) :
  Qsign d = Gt -> is_NaN a = false -> is_NaN (ndiv a (Fin d)) = false.
Proof.
  intros Hd. destruct a; simpl; rewrite ?Hd; auto using round64_not_NaN.
Qed.

Lemma nmul_positive_not_NaN (a : number) (d : Q) :
  Qsign d = Gt -> is_NaN a = false -> is_NaN (nmul a (Fin d)) = false.
Proof.
  intros Hd. destruct a; simpl; rewrite ?Hd; auto using round64_not_NaN.
Qed.

(** A snapshot value is clamped last as well. *)
Lemma serverValue_within (variable : VariableDef) (raw : number) :
  range_ok (range variable) = true -> is_NaN raw = false ->
  within (serverValue variable raw) (range variable) = true.
Proof.
  intros Hok Hraw. unfold serverValue. apply clampValue_within; [assumption|].
  assert (Hangle : is_NaN
            (ndiv (Math_round (nmul (ndiv raw Math_PI) (Fin 10000))) (Fin 10000))
          = false).
  { apply ndiv_positive_not_NaN; [reflexivity|].
    apply Math_round_not_NaN, nmul_positive_not_NaN; [reflexivity|].
    now apply ndiv_positive_not_NaN. }
  destruct (includes angleVariables (name variable)),
    (String.eqb (type variable) "int"); auto using Math_round_not_NaN.
Qed.

(** The step buttons clamp last for a variable that is not of type
    [float]. *)
Lemma commitStep_within (variable_def : VariableDef) (stepped : number)
    (ws : option WebSocket) :
  String.eqb (type variable_def) "float" = false ->
  range_ok (range variable_def) = true -> is_NaN stepped = false ->
  within (value (fst (commitStep variable_def stepped ws)))
         (range variable_def) = true.
Proof.
  intros Hty Hok Hx. unfold commitStep. rewrite Hty. simpl.
  now apply clampValue_within.
Qed.

(** C1.  On the step buttons a variable of type [float] is rounded to the
    decimals of its step after the clamp, and the rounding can leave the
    range.  The variable [fineUpper] is in its range from 0 to 0.25; the
    button Up stores 0.3 (the Number nearest to 3/10), above the upper
    bound.  The variable [fineLower] is in its range from 0.125 to 1; the
    button Down stores 0.1, below the lower bound. *)
Theorem step_rounding_leaves_range :
  (range_ok (range fineUpper) = true
   /\ within (value fineUpper) (range fineUpper) = true
   /\ value (fst (onclickUp fineUpper None)) = round64 (3 # 10)
   /\ within (value (fst (onclickUp fineUpper None))) (range fineUpper) = false)
  /\ (range_ok (range fineLower) = true
      /\ within (value fineLower) (range fineLower) = true
      /\ value (fst (onclickDown fineLower None)) = round64 (1 # 10)
      /\ within (value (fst (onclickDown fineLower None))) (range fineLower)
         = false).
Proof. repeat split; vm_compute; reflexivity. Qed.

(** ** A transport that is not open *)

(** C9.  With the transport missing or not open, a committed edit and the
    two step buttons put into the registry the very value they put there
    with an open transport: for an edit the number read from the text
    ([parseInt] for type [int], [parseFloat] otherwise, zero for NaN),
    clamped, hence within a well-formed range; for a button the value plus
    or minus the step, clamped and, for type [float], rounded to the
    decimals of the step.  Without transport nothing is sent and the
    transport is as before; with an open one the same registry results and
    the message for the stored value is sent. *)
Theorem offline_mutation_still_applies (i : nat) (this : Component)
    (vars : list VariableDef) (ws : option WebSocket)
    (variable_def : VariableDef) (w : WebSocket) :
  notConnected ws = true ->
  vars !! i = Some variable_def ->
  readyState w = WebSocket_OPEN ->
  let typed :=
    clampValue
      (if String.eqb (type variable_def) "int"
       then nor (parseInt (editValue this)) (Fin 0)
       else nor (parseFloat (editValue this)) (Fin 0))
      (range variable_def) in
  let decimals := decimalsOf (effectiveStep variable_def) in
  let rounded (x : number) :=
    if String.eqb (type variable_def) "float"
    then ndiv (Math_round (nmul x (Math_pow (Fin 10) decimals)))
              (Math_pow (Fin 10) decimals)
    else x in
  let up :=
    rounded (clampValue (nadd (value variable_def) (effectiveStep variable_def))
               (range variable_def)) in
  let down :=
    rounded (clampValue (nsub (value variable_def) (effectiveStep variable_def))
               (range variable_def)) in
  let message (x : number) :=
    Some (mkWebSocket (readyState w)
            (sent w ++ wireMessage (name variable_def) x :: nil)%list) in
  (isEditing this = true ->
   commitEdit i this vars ws
   = (mkComponent false "", <[i := set_value variable_def typed]> vars, ws)
   /\ commitEdit i this vars (Some w)
      = (mkComponent false "", <[i := set_value variable_def typed]> vars,
         message typed)
   /\ (range_ok (range variable_def) = true ->
       within typed (range variable_def) = true))
  /\ onVariable i onclickUp vars ws
     = (<[i := set_value variable_def up]> vars, ws)
  /\ onVariable i onclickUp vars (Some w)
     = (<[i := set_value variable_def up]> vars, message up)
  /\ onVariable i onclickDown vars ws
     = (<[i := set_value variable_def down]> vars, ws)
  /\ onVariable i onclickDown vars (Some w)
     = (<[i := set_value variable_def down]> vars, message down).
Proof.
  intros Hoff Hi Hopen. cbv zeta.
  unfold commitEdit, onVariable, onclickUp, onclickDown, commitStep, applyEdit.
  rewrite Hi. cbn [fst snd].
  rewrite !(sendVariableUpdate_closed _ _ ws Hoff).
  rewrite !sendVariableUpdate_open by assumption.
  split; [|repeat split].
  intros Hed. rewrite Hed. cbn [negb].
  split; [|split].
  - now destruct (String.eqb (type variable_def) "int").
  - now destruct (String.eqb (type variable_def) "int").
  - intros Hok. apply clampValue_within; [assumption|].
    destruct (String.eqb (type variable_def) "int"); now apply nor_not_NaN.
Qed.

Lemma offline_mutation_still_applies_witness :
  commitEdit 9 (mkComponent true "7.5") variables None
  = (mkComponent false "",
     <[9%nat := mkVariable "pheromone_decay_rate" "float" (Fin 1)
                  (Some (Fin (-1 # 2)))
                  (Some (mkRange (Some (Fin (-100))) (Some (Fin 1))))]>
       variables,
     None)
  /\ onVariable 0 onclickUp variables None
     = (<[0%nat := mkVariable "move_dist" "float" (round64 (1 # 100))
                     (Some (round64 (1 # 100))) None]> variables,
        None).
Proof.
  destruct (offline_mutation_still_applies 9 (mkComponent true "7.5")
              variables None
              (mkVariable "pheromone_decay_rate" "float" (Fin 0)
                 (Some (Fin (-1 # 2)))
                 (Some (mkRange (Some (Fin (-100))) (Some (Fin 1)))))
              (mkWebSocket WebSocket_OPEN nil) eq_refl eq_refl eq_refl)
    as [Hedit _].
  destruct (offline_mutation_still_applies 0 (mkComponent false "")
              variables None
              (mkVariable "move_dist" "float" (Fin 0)
                 (Some (round64 (1 # 100))) None)
              (mkWebSocket WebSocket_OPEN nil) eq_refl eq_refl eq_refl)
    as (_ & Hup & _).
  destruct (Hedit eq_refl) as [H _].
  split; [rewrite H | rewrite Hup]; vm_compute; reflexivity.
Defined.

Lemma ndiv_Fin_positive (a d : Q) :
  Qsign d = Gt -> ndiv (Fin a) (Fin d) = round64 (a / d).
Proof. simpl. now intros ->. Qed.

(** Rounding to one decimal keeps a number between -100 and 1 there: both
    bounds have no more than one decimal. *)
Lemma round_tenths_within (x : number) :
  let r := Some (mkRange (Some (Fin (-100))) (Some (Fin 1))) in
  within x r = true ->
  within (ndiv (Math_round (nmul x (Fin 10))) (Fin 10)) r = true.
Proof.
  cbv zeta. unfold within. cbn [min max]. intros H.
  apply andb_prop in H as [Hlo Hhi].
  destruct x as [| | |y]; try discriminate.
  apply nleb_Fin in Hlo, Hhi.
  change (nmul (Fin y) (Fin 10)) with (round64 (y * 10)).
  pose proof (round64_le (y * 10) (inject_Z 10)
                (representable_Z 10 ltac:(vm_compute; discriminate))) as Hup.
  pose proof (round64_ge (y * 10) (inject_Z (-1000))
                (representable_Z (-1000) ltac:(vm_compute; discriminate)))
    as Hdown.
  change (inject_Z 10) with 10 in Hup.
  change (inject_Z (-1000)) with (-1000) in Hdown.
  specialize (Hup ltac:(lra)). specialize (Hdown ltac:(lra)).
  destruct (round64 (y * 10)) as [| | |a]; try discriminate.
  apply nleb_Fin in Hup, Hdown.
  cbv beta iota delta [Math_round].
  rewrite ndiv_Fin_positive by reflexivity.
  set (f := Qfloor (a + (1 # 2))).
  assert (Hf1 : (f <= 10)%Z).
  { change 10%Z with (Qfloor (21 # 2)). apply Qfloor_resp_le. lra. }
  assert (Hf2 : (-1000 <= f)%Z).
  { change (-1000)%Z with (Qfloor (-1999 # 2)). apply Qfloor_resp_le. lra. }
  rewrite Zle_Qle in Hf1, Hf2.
  change (inject_Z 10) with 10 in Hf1.
  change (inject_Z (-1000)) with (-1000) in Hf2.
  apply andb_true_intro; split.
  - apply (round64_ge _ (inject_Z (-100))).
    + apply representable_Z. vm_compute. discriminate.
    + change (inject_Z (-100)) with (-100). unfold Qdiv.
      change (/ 10) with (1 # 10). lra.
  - apply (round64_le _ (inject_Z 1)).
    + apply representable_Z. vm_compute. discriminate.
    + change (inject_Z 1) with 1. unfold Qdiv.
      change (/ 10) with (1 # 10). lra.
Qed.

(** In the registry as shipped the step buttons keep every variable in its
    range, whatever fraction it holds: the only range there is, on
    [pheromone_decay_rate], has bounds with no more decimals than the
    step. *)
Lemma shipped_steps_keep_range (variable : VariableDef) (q : Q)
    (ws : option WebSocket) :
  In variable variables ->
  let v := set_value variable (Fin q) in
  within (value (fst (onclickUp v ws))) (range v) = true
  /\ within (value (fst (onclickDown v ws))) (range v) = true.
Proof.
  intros Hin. simpl in Hin.
  repeat (destruct Hin as [<-|Hin]; [split; reflexivity|]).
  destruct Hin as [<-|[]].
  cbv zeta. unfold onclickUp, onclickDown, commitStep.
  cbn [set_value type range name value fst String.eqb Ascii.eqb Bool.eqb].
  set (r := Some (mkRange (Some (Fin (-100))) (Some (Fin 1)))).
  change (decimalsOf _) with 1%nat.
  change (Math_pow (Fin 10) 1) with (Fin 10).
  change (effectiveStep _) with (Fin (-1 # 2)).
  split; apply round_tenths_within, clampValue_within; try reflexivity;
    apply round64_not_NaN.
Qed.

(** ** Integer variables *)


Lemma span_digits (ds rest : string) :
  string_forallb isDigit ds = true -> head_is isDigit rest = false ->
  span isDigit (ds ++ rest) = (ds, rest).
Proof.
  intros Hds Hrest. induction ds as [|c ds IH]; simpl_append.
  - destruct rest as [|c rest]; simpl in *; [reflexivity | now rewrite Hrest].
  - simpl in Hds. apply andb_prop in Hds as [Hc Hds].
    rewrite Hc, (IH Hds). reflexivity.
Qed.

Lemma digit_not_space (c : ascii) : isDigit c = true -> isWhiteSpace c = false.
Proof.
  unfold isDigit, isWhiteSpace, in_range. intros H.
  apply andb_prop in H as [H1 H2]. apply N.leb_le in H1, H2.
  repeat (apply orb_false_intro); rewrite ?andb_false_iff, ?N.leb_gt, ?N.eqb_neq; lia.
Qed.

Lemma ascii_eqb_code (a b : ascii) : ascii_eqb a b = true -> code a = code b.
Proof. unfold ascii_eqb. apply N.eqb_eq. Qed.

Lemma digit_not_char (c d : ascii) :
  isDigit c = true -> isDigit d = false -> ascii_eqb c d = false.
Proof.
  intros Hc Hd. destruct (ascii_eqb c d) eqn:E; [|reflexivity].
  apply ascii_eqb_code in E. unfold isDigit, in_range in *.
  rewrite E in Hc. congruence.
Qed.

Lemma char_not_digit (c d : ascii) :
  isDigit c = false -> isDigit d = true -> ascii_eqb c d = false.
Proof.
  intros Hc Hd. destruct (ascii_eqb c d) eqn:E; [|reflexivity].
  apply ascii_eqb_code in E. unfold isDigit, in_range in *.
  rewrite E in Hc. congruence.
Qed.







(** ** Angles *)

(** The angle conversion on a fraction, step by step: the quotient by
    [Math.PI], the product with 10000 and the last quotient are each
    rounded to a Number; [Math.round] is exact. *)
Lemma angle_conversion_value (q a b : Q) :
  round64 (q / PI_value) = Fin a ->
  round64 (a * 10000) = Fin b ->
  ndiv (Math_round (nmul (ndiv (Fin q) Math_PI) (Fin 10000))) (Fin 10000)
  = round64 (inject_Z (Qfloor (b + (1 # 2))) / 10000).
Proof.
  intros Ha Hb.
  change (ndiv (Fin q) Math_PI) with (round64 (q / PI_value)). rewrite Ha.
  change (nmul (Fin a) (Fin 10000)) with (round64 (a * 10000)). rewrite Hb.
  cbv beta iota delta [Math_round].
  now rewrite ndiv_Fin_positive.
Qed.

(** The text of the number is put into the message as it is. *)
Lemma wireMessage_shape (variableName : string) :
  exists base suffix, forall value,
    wireMessage variableName value
    = base ++ " " ++ Number_toString value ++ suffix.
Proof.
  unfold wireMessage. destruct (endsWith variableName "_mod").
  - exists (slice_to_end_minus 4 variableName), " mod". intros value.
    now rewrite !append_assoc.
  - exists variableName, "". intros value. now rewrite append_empty_r.
Qed.

(** The handlers send the very number they store. *)
Lemma commitStep_sends_stored (variable_def : VariableDef) (stepped : number)
    (ws : option WebSocket) :
  snd (commitStep variable_def stepped ws)
  = sendVariableUpdate (name variable_def)
      (value (fst (commitStep variable_def stepped ws))) ws.
Proof. reflexivity. Qed.

Lemma applyEdit_sends_stored (this : Component) (variable_def : VariableDef)
    (ws : option WebSocket) :
  isEditing this = true ->
  snd (applyEdit this variable_def ws)
  = sendVariableUpdate (name variable_def)
      (value (snd (fst (applyEdit this variable_def ws)))) ws.
Proof. unfold applyEdit. now intros ->. Qed.

(** C3.  For a variable with one of the four angle names that a snapshot
    mentions with the number [raw], the only value the loop ever stores is
    [Math.round((raw / Math.PI) * 10000) / 10000], rounded once more for
    type [int], and clamped; it is stored whenever the loop runs, that is
    when the snapshot has no key [hasOwnProperty].  The three operations
    are those of binary64: on a fraction [q], with [a] the Number value of
    [q / PI] and [b] that of [a * 10000], the converted value is the Number
    value of [floor(b + 1/2) / 10000]; so the message [turn_rate =
    0.11388273369263], where [b] is 362.5 exactly, stores 0.0363.  On the
    way out nothing is multiplied by PI: the handlers send the number they
    store, and the encoder puts its text into the message unchanged. *)
Theorem angle_conversion_inbound_only (serverState : gmap string number)
    (vars : list VariableDef) (i : nat) (variable : VariableDef)
    (raw : number) :
  vars !! i = Some variable ->
  includes angleVariables (name variable) = true ->
  serverState !! name variable = Some raw ->
  let turns :=
    ndiv (Math_round (nmul (ndiv raw Math_PI) (Fin 10000))) (Fin 10000) in
  let stored :=
    set_value variable
      (clampValue
         (if String.eqb (type variable) "int" then Math_round turns else turns)
         (range variable)) in
  (fst (updateVariablesFromServer serverState vars) !! i = Some variable
   \/ fst (updateVariablesFromServer serverState vars) !! i = Some stored)
  /\ (serverState !! "hasOwnProperty" = None ->
      snd (updateVariablesFromServer serverState vars) = Normal
      /\ fst (updateVariablesFromServer serverState vars) !! i = Some stored)
  /\ (forall q a b, raw = Fin q ->
      round64 (q / PI_value) = Fin a -> round64 (a * 10000) = Fin b ->
      turns = round64 (inject_Z (Qfloor (b + (1 # 2))) / 10000))
  /\ fst (onmessage (JString "Success: .{turn_rate=0.11388273369263}")
            variables) !! 1%nat
     = Some (mkVariable "turn_rate" "float" (round64 (363 # 10000))
               (Some (Fin (1 # 2))) None)
  /\ (exists base suffix, forall x,
        wireMessage (name variable) x
        = base ++ " " ++ Number_toString x ++ suffix)
  /\ (forall stepped ws,
        snd (commitStep variable stepped ws)
        = sendVariableUpdate (name variable)
            (value (fst (commitStep variable stepped ws))) ws)
  /\ (forall this ws, isEditing this = true ->
        snd (applyEdit this variable ws)
        = sendVariableUpdate (name variable)
            (value (snd (fst (applyEdit this variable ws)))) ws).
Proof.
  intros Hi Hangle Hraw turns stored.
  assert (Hstored : updateVariable serverState variable = stored).
  { unfold updateVariable, serverValue. now rewrite Hraw, Hangle. }
  split; [|split; [|split; [|split; [|split; [|split]]]]].
  - rewrite <- Hstored. now apply update_lookup.
  - intros Hno. rewrite update_completes by assumption. simpl.
    split; [reflexivity|]. now rewrite list_lookup_fmap, Hi, <- Hstored.
  - intros q a b -> Ha Hb. exact (angle_conversion_value q a b Ha Hb).
  - vm_compute. reflexivity.
  - apply wireMessage_shape.
  - intros. apply commitStep_sends_stored.
  - intros. now apply applyEdit_sends_stored.
Qed.

Lemma angle_conversion_inbound_only_witness :
  fst (updateVariablesFromServer
         {[ "turn_rate" := round64 (314159 # 100000) ]} variables) !! 1%nat
  = Some (mkVariable "turn_rate" "float" (Fin 1) (Some (Fin (1 # 2))) None).
Proof.
  pose (state := ({[ "turn_rate" := round64 (314159 # 100000) ]}
                  : gmap string number)).
  assert (Hraw : state !! "turn_rate" = Some (round64 (314159 # 100000)))
    by (vm_compute; reflexivity).
  assert (Hno : state !! "hasOwnProperty" = None)
    by (vm_compute; reflexivity).
  destruct (angle_conversion_inbound_only state variables 1
              (mkVariable "turn_rate" "float" (Fin 0) (Some (Fin (1 # 2))) None)
              (round64 (314159 # 100000)) eq_refl eq_refl Hraw)
    as (_ & H & _).
  destruct (H Hno) as [_ H']. fold state. rewrite H'.
  vm_compute. reflexivity.
Defined.

(** ** Text that is not a number *)

Lemma span_head_false (f : ascii -> bool) (s : string) :
  head_is f s = false -> span f s = (EmptyString, s).
Proof. destruct s as [|c s]; simpl; [reflexivity | now intros ->]. Qed.

Lemma span_head_true (f : ascii -> bool) (s : string) :
  head_is f s = true -> exists c r rest, span f s = (String c r, rest).
Proof.
  destruct s as [|c s]; simpl; [discriminate|]. intros ->.
  destruct (span f s) as [r rest]. eauto.
Qed.

(** What [parseFloat] cannot read, [parseInt] cannot read either. *)
Lemma parseFloat_NaN_parseInt (text : string) :
  parseFloat text = NaN -> parseInt text = NaN.
Proof.
  unfold parseFloat, parseInt.
  destruct (strip_sign (trimStart text)) as [neg s].
  destruct (startsWith s "Infinity"); [now destruct neg|].
  destruct (head_is isDigit s) eqn:Hhead.
  - destruct (span_head_true _ _ Hhead) as (c & r & rest & ->).
    assert (Hno : forall x (P : Prop), round64 x = NaN -> P).
    { intros x P Hx. pose proof (round64_not_NaN x) as H.
      rewrite Hx in H. discriminate. }
    destruct rest as [|d rest]; [apply Hno|].
    destruct (ascii_eqb d c_dot); [destruct (span isDigit rest)|]; apply Hno.
  - intros _.
    replace (startsWith s "0x" || startsWith s "0X")%bool with false.
    + simpl. now rewrite (span_head_false _ _ Hhead).
    + destruct s as [|c s]; [reflexivity|]. simpl in *.
      now rewrite !(fun x => digit_not_char x c) by (assumption || reflexivity).
Qed.

(** C8.  When the text of the field does not parse as a number, a commit
    stores zero clamped to the range of the variable, whatever the type of
    the variable; the text [abc] on a variable with the range from 1 to 10
    stores 1. *)
Theorem invalid_edit_commits_zero (this : Component)
    (variable_def : VariableDef) (ws : option WebSocket) :
  isEditing this = true ->
  parseFloat (editValue this) = NaN ->
  value (snd (fst (applyEdit this variable_def ws)))
  = clampValue (Fin 0) (range variable_def)
  /\ forall kind : string,
       value (snd (fst (applyEdit (mkComponent true "abc")
                          (mkVariable "x" kind (Fin 5) None
                             (Some (mkRange (Some (Fin 1)) (Some (Fin 10)))))
                          ws)))
       = Fin 1.
Proof.
  intros Hed Hnan. split.
  - unfold applyEdit. rewrite Hed, Hnan, (parseFloat_NaN_parseInt _ Hnan).
    simpl. now destruct (String.eqb (type variable_def) "int").
  - intros kind. unfold applyEdit. simpl.
    now destruct (String.eqb kind "int").
Qed.

Lemma invalid_edit_commits_zero_witness :
  value
    (snd (fst (applyEdit
                 (oninput
                    (onfocus (mkComponent false "")
                       (mkVariable "density_scale" "int" (Fin 5) None
                          (Some (mkRange (Some (Fin 1)) (Some (Fin 10))))))
                    "abc")
                 (mkVariable "density_scale" "int" (Fin 5) None
                    (Some (mkRange (Some (Fin 1)) (Some (Fin 10)))))
                 None)))
  = Fin 1.
Proof.
  destruct (invalid_edit_commits_zero
              (oninput
                 (onfocus (mkComponent false "")
                    (mkVariable "density_scale" "int" (Fin 5) None
                       (Some (mkRange (Some (Fin 1)) (Some (Fin 10))))))
                 "abc")
              (mkVariable "density_scale" "int" (Fin 5) None
                 (Some (mkRange (Some (Fin 1)) (Some (Fin 10)))))
              None eq_refl eq_refl) as [H _].
  rewrite H. reflexivity.
Defined.

(** ** The matcher *)

Lemma greedy_stop (a : atom) (k : string -> nat -> option run_result)
    (s : string) (i : nat) :
  head_is (atom_matches a) s = false -> greedy a k s i = k s i.
Proof. destruct s as [|c s]; simpl; [reflexivity | now intros ->]. Qed.

Lemma greedy_cons (a : atom) (k : string -> nat -> option run_result)
    (c : ascii) (s : string) (i : nat) :
  atom_matches a c = true ->
  greedy a k (String c s) i
  = match greedy a k s (S i) with
    | Some r => Some r
    | None => k (String c s) i
    end.
Proof. simpl. now intros ->. Qed.

(** A quantifier that can take a whole run, after which the rest of the
    pattern matches, takes it. *)
Lemma greedy_all (a : atom) (k : string -> nat -> option run_result)
    (w rest : string) (i : nat) (r : run_result) :
  string_forallb (atom_matches a) w = true ->
  head_is (atom_matches a) rest = false ->
  k rest (String.length w + i)%nat = Some r ->
  greedy a k (w ++ rest) i = Some r.
Proof.
  intros Hw Hrest. revert i.
  induction w as [|c w IH]; intros i Hk; simpl_append.
  - now rewrite greedy_stop.
  - simpl in Hw. apply andb_prop in Hw as [Hc Hw]. rewrite Hc.
    rewrite (IH Hw (S i)); [reflexivity|].
    now rewrite Nat.add_succ_r.
Qed.

(** A quantifier whose run is followed by something the rest of the
    pattern rejects gives back its last character, when the rest of the
    pattern accepts that. *)
Lemma greedy_backtrack (a : atom) (k : string -> nat -> option run_result)
    (c : ascii) (w rest : string) (i : nat) (result : nat -> run_result) :
  string_forallb (atom_matches a) (String c w) = true ->
  head_is (atom_matches a) rest = false ->
  (forall j, k rest j = None) ->
  (forall d j, atom_matches a d = true -> k (String d rest) j = Some (result j)) ->
  greedy a k (String c w ++ rest) i = Some (result (String.length w + i)%nat).
Proof.
  intros Hw Hrest Hnone Hlast. revert c i Hw.
  induction w as [|c' w IH]; intros c i Hw;
    apply andb_prop in Hw as [Hc Hw]; rewrite append_cons, greedy_cons
      by assumption.
  - rewrite append_nil, greedy_stop, Hnone by assumption. now apply Hlast.
  - rewrite (IH c' (S i) Hw). simpl. now rewrite Nat.add_succ_r.
Qed.

Lemma digit_not_dot (c : ascii) : isDigit c = true -> ascii_eqb c c_dot = false.
Proof. intros H. now apply digit_not_char. Qed.

(** The end of the number pattern on a text that cannot start a digit
    run. *)
Lemma run_fraction_none (extra : string) (j : nat) :
  not_prolonging None extra = true ->
  run (IOpt (AChar c_dot) :: IPlus ADigit :: IClose :: nil) extra j = None.
Proof.
  unfold not_prolonging. intros H. apply andb_prop in H as [Hd Hp].
  destruct extra as [|c r]; [reflexivity|]. simpl in *.
  apply negb_true_iff in Hd. rewrite Hd.
  destruct (ascii_eqb c c_dot); [|reflexivity].
  simpl in Hp. apply negb_true_iff in Hp.
  destruct r as [|c' r]; [reflexivity|]. simpl in *. now rewrite Hp.
Qed.

Lemma run_last_digit (d : ascii) (extra : string) (j : nat) :
  isDigit d = true -> head_is isDigit extra = false ->
  run (IOpt (AChar c_dot) :: IPlus ADigit :: IClose :: nil) (String d extra) j
  = Some (S j :: nil, S j).
Proof.
  intros Hd Hextra.
  change (run (IOpt (AChar c_dot) :: IPlus ADigit :: IClose :: nil)
            (String d extra) j)
    with (if ascii_eqb d c_dot then
            match run (IPlus ADigit :: IClose :: nil) extra (S j) with
            | Some r => Some r
            | None => run (IPlus ADigit :: IClose :: nil) (String d extra) j
            end
          else run (IPlus ADigit :: IClose :: nil) (String d extra) j).
  rewrite (digit_not_dot d Hd).
  change (run (IPlus ADigit :: IClose :: nil) (String d extra) j)
    with (if isDigit d then greedy ADigit (run (IClose :: nil)) extra (S j)
          else None).
  rewrite Hd. now rewrite greedy_stop.
Qed.

(** The number pattern without its sign reads exactly the literal. *)
Lemma run_unsigned (ip : string) (frac : option string) (extra : string)
    (j : nat) :
  literal_ok ip frac = true -> not_prolonging frac extra = true ->
  let lit := literal_text false ip frac in
  run (IStar ADigit :: IOpt (AChar c_dot) :: IPlus ADigit :: IClose :: nil)
      (lit ++ extra) j
  = Some ((String.length lit + j)%nat :: nil, (String.length lit + j)%nat).
Proof.
  unfold literal_ok, literal_text. intros Hok Hstop.
  apply andb_prop in Hok as [Hip Hfrac]. cbv zeta. rewrite !append_nil.
  change (run (IStar ADigit :: ?p) ?s ?i) with (greedy ADigit (run p) s i).
  destruct frac as [fp|].
  - unfold isDigits in Hfrac. apply andb_prop in Hfrac as [Hhead Hfp].
    destruct fp as [|f fp]; [discriminate|]. simpl in Hhead, Hfp.
    apply andb_prop in Hfp as [_ Hfp].
    rewrite append_assoc.
    apply greedy_all; [assumption | reflexivity |].
    rewrite !append_cons.
    change (run (IOpt (AChar c_dot) :: ?p) (String c_dot ?s) ?i)
      with (match run p s (S i) with
            | Some r => Some r
            | None => run p (String c_dot s) i
            end).
    change (run (IPlus ADigit :: ?p) (String f ?s) ?i)
      with (if isDigit f then greedy ADigit (run p) s (S i) else None).
    rewrite Hhead.
    unfold not_prolonging in Hstop. apply andb_prop in Hstop as [Hd _].
    apply negb_true_iff in Hd.
    rewrite (greedy_all ADigit _ fp extra _
               ((String.length fp + S (S (String.length ip + j)))%nat :: nil,
                (String.length fp + S (S (String.length ip + j)))%nat));
      try assumption; try reflexivity.
    rewrite length_append. simpl.
    now replace (String.length ip + S (S (String.length fp)) + j)%nat
      with (String.length fp + S (S (String.length ip + j)))%nat by lia.
  - unfold isDigits in Hfrac. apply andb_prop in Hfrac as [Hhead _].
    destruct ip as [|d ip]; [discriminate|].
    rewrite append_empty_r.
    assert (Hd : head_is isDigit extra = false).
    { unfold not_prolonging in Hstop. apply andb_prop in Hstop as [Hd _].
      now apply negb_true_iff in Hd. }
    rewrite (greedy_backtrack ADigit _ d ip extra j
               (fun n => (S n :: nil, S n))); try assumption.
    + reflexivity.
    + intros n. now apply run_fraction_none.
    + intros c n Hc. now apply run_last_digit.
Qed.

Lemma run_opt_skip (c : ascii) (p : list item) (s : string) (j : nat) :
  head_is (fun d => ascii_eqb d c) s = false ->
  run (IOpt (AChar c) :: p) s j = run p s j.
Proof. destruct s as [|d s]; simpl; [reflexivity | now intros ->]. Qed.

(** The head of an unsigned literal is a digit or the point. *)
Lemma literal_head (ip : string) (frac : option string) (extra : string)
    (f : ascii -> bool) :
  literal_ok ip frac = true ->
  (forall c, isDigit c = true -> f c = false) -> f c_dot = false ->
  head_is f (literal_text false ip frac ++ extra) = false.
Proof.
  unfold literal_ok, literal_text, isDigits. intros Hok Hdigit Hdot.
  apply andb_prop in Hok as [Hip Hfrac]. rewrite append_nil.
  destruct ip as [|d ip].
  - destruct frac as [fp|]; [|discriminate]. exact Hdot.
  - simpl in Hip. apply andb_prop in Hip as [Hd _]. simpl. now apply Hdigit.
Qed.

(** The number pattern reads exactly the literal, sign included. *)
Lemma run_literal (neg : bool) (ip : string) (frac : option string)
    (extra : string) (j : nat) :
  literal_ok ip frac = true -> not_prolonging frac extra = true ->
  run re_number (literal_text neg ip frac ++ extra) j
  = Some ((String.length (literal_text neg ip frac) + j)%nat :: nil,
          (String.length (literal_text neg ip frac) + j)%nat).
Proof.
  intros Hok Hstop. pose proof (run_unsigned ip frac extra) as Hrun.
  cbv zeta in Hrun. unfold re_number. destruct neg.
  - change (literal_text true ip frac)
      with (String c_minus (literal_text false ip frac)).
    rewrite append_cons.
    change (run (IOpt (AChar c_minus) :: ?p) (String c_minus ?s) ?i)
      with (match run p s (S i) with
            | Some r => Some r
            | None => run p (String c_minus s) i
            end).
    rewrite (Hrun (S j) Hok Hstop). simpl String.length.
    now rewrite Nat.add_succ_r.
  - rewrite run_opt_skip; [now apply Hrun|].
    apply literal_head; [assumption | | reflexivity].
    intros c Hc. now apply digit_not_char.
Qed.

Lemma word_not_space (c : ascii) : isWord c = true -> isWhiteSpace c = false.
Proof.
  unfold isWord, isDigit, isWhiteSpace, in_range. intros H.
  repeat (apply orb_false_intro);
    rewrite ?andb_false_iff, ?N.leb_gt, ?N.eqb_neq;
    repeat (apply orb_prop in H as [H|H]);
    try (apply andb_prop in H as [H1 H2]; apply N.leb_le in H1, H2; lia);
    apply N.eqb_eq in H; lia.
Qed.

Lemma word_not_dot (c : ascii) : isWord c = true -> ascii_eqb c c_dot = false.
Proof.
  intros H. destruct (ascii_eqb c c_dot) eqn:E; [|reflexivity].
  apply ascii_eqb_code in E. unfold isWord, isDigit, in_range in H.
  rewrite E in H. discriminate.
Qed.

Lemma space_not_word (c : ascii) : isWhiteSpace c = true -> isWord c = false.
Proof.
  intros H. destruct (isWord c) eqn:E; [|reflexivity].
  apply word_not_space in E. congruence.
Qed.

Lemma head_after_spaces (f : ascii -> bool) (ws rest : string) :
  string_forallb isWhiteSpace ws = true ->
  (forall c, isWhiteSpace c = true -> f c = false) ->
  head_is f rest = false ->
  head_is f (ws ++ rest) = false.
Proof.
  intros Hws Hf Hrest. destruct ws as [|c ws]; [exact Hrest|].
  simpl in Hws. apply andb_prop in Hws as [Hc _]. simpl. now apply Hf.
Qed.

(** [re_assignment] from the name on: the marks of the two groups enclose
    the name and the literal. *)
Lemma run_key_onwards (key ws1 ws2 : string) (neg : bool) (ip : string)
    (frac : option string) (extra : string) (i : nat) :
  isWords key = true ->
  string_forallb isWhiteSpace ws1 = true ->
  string_forallb isWhiteSpace ws2 = true ->
  literal_ok ip frac = true -> not_prolonging frac extra = true ->
  let lit := literal_text neg ip frac in
  let n1 := (String.length key + i)%nat in
  let n2 := (String.length ws2 + S (String.length ws1 + n1))%nat in
  run re_key_onwards
      (key ++ ws1 ++ String c_equal (ws2 ++ lit ++ extra)) i
  = Some (i :: n1 :: n2 :: (String.length lit + n2)%nat :: nil,
          (String.length lit + n2)%nat).
Proof.
  unfold isWords. intros Hkey Hws1 Hws2 Hok Hstop. cbv zeta.
  apply andb_prop in Hkey as [Hhead Hall].
  destruct key as [|k key]; [discriminate|]. simpl in Hhead, Hall.
  apply andb_prop in Hall as [_ Hall].
  unfold re_key_onwards. rewrite append_cons.
  change (run (IOpen :: IPlus AWord :: ?p) (String k ?s) ?j)
    with (mark j (if isWord k then greedy AWord (run p) s (S j) else None)).
  rewrite Hhead. simpl String.length.
  replace (S (String.length key) + i)%nat with (String.length key + S i)%nat
    by lia.
  set (n1 := (String.length key + S i)%nat).
  set (n2 := (String.length ws2 + S (String.length ws1 + n1))%nat).
  set (n3 := (String.length (literal_text neg ip frac) + n2)%nat).
  rewrite (greedy_all AWord _ key _ (S i) (n1 :: n2 :: n3 :: nil, n3));
    [reflexivity | assumption | |].
  { apply head_after_spaces;
      [assumption | apply space_not_word | reflexivity]. }
  fold n1.
  change (run (IClose :: IStar ASpace :: ?p) ?s ?j)
    with (mark j (greedy ASpace (run p) s j)).
  rewrite (greedy_all ASpace _ ws1 _ n1 (n2 :: n3 :: nil, n3));
    [reflexivity | assumption | reflexivity |].
  change (run (IOne (AChar c_equal) :: IStar ASpace :: ?p)
            (String c_equal ?s) ?j)
    with (greedy ASpace (run p) s (S j)).
  rewrite (greedy_all ASpace _ ws2 _ _ (n2 :: n3 :: nil, n3));
    [reflexivity | assumption | |].
  { destruct neg; [reflexivity|].
    apply literal_head; [assumption | apply digit_not_space | reflexivity]. }
  fold n2.
  change (run (IOpen :: re_number) ?s ?j) with (mark j (run re_number s j)).
  now rewrite run_literal.
Qed.

Lemma run_opt_take (c : ascii) (p : list item) (s : string) (j : nat)
    (r : run_result) :
  run p s (S j) = Some r -> run (IOpt (AChar c) :: p) (String c s) j = Some r.
Proof.
  intros H. simpl. unfold ascii_eqb. now rewrite N.eqb_refl, H.
Qed.

(** The whole of [re_assignment] on a fragment. *)
Lemma run_assignment (dot : bool) (key ws1 ws2 : string) (neg : bool)
    (ip : string) (frac : option string) (extra : string) :
  isWords key = true ->
  string_forallb isWhiteSpace ws1 = true ->
  string_forallb isWhiteSpace ws2 = true ->
  literal_ok ip frac = true -> not_prolonging frac extra = true ->
  let lit := literal_text neg ip frac in
  let n0 := (if dot then 1 else 0)%nat in
  let n1 := (String.length key + n0)%nat in
  let n2 := (String.length ws2 + S (String.length ws1 + n1))%nat in
  run re_assignment (fragment_text dot key ws1 ws2 (lit ++ extra)) 0
  = Some (n0 :: n1 :: n2 :: (String.length lit + n2)%nat :: nil,
          (String.length lit + n2)%nat).
Proof.
  intros Hkey Hws1 Hws2 Hok Hstop. cbv zeta.
  unfold fragment_text, re_assignment. fold re_number. fold re_key_onwards.
  change (run (IBol :: ?p) ?s 0) with (run p s 0).
  destruct dot.
  - rewrite append_cons, append_nil.
    apply run_opt_take. now apply run_key_onwards.
  - rewrite append_nil, run_opt_skip; [now apply run_key_onwards|].
    unfold isWords in Hkey. apply andb_prop in Hkey as [Hhead _].
    destruct key as [|k key]; [discriminate|]. simpl in *.
    now apply word_not_dot.
Qed.

(** [parseFloat] on a literal gives the Number value of the fraction it
    denotes. *)
Lemma parseFloat_literal (neg : bool) (ip : string) (frac : option string) :
  literal_ok ip frac = true ->
  parseFloat (literal_text neg ip frac) = round64 (literal_value neg ip frac).
Proof.
  intros Hok. unfold parseFloat.
  assert (Hbody : forall f, (forall c, isDigit c = true -> f c = false) ->
                            f c_dot = false ->
                            head_is f (literal_text false ip frac) = false).
  { intros f H1 H2. rewrite <- (append_empty_r (literal_text false ip frac)).
    now apply literal_head. }
  assert (Hsign : strip_sign (trimStart (literal_text neg ip frac))
                  = (neg, literal_text false ip frac)).
  { destruct neg.
    - reflexivity.
    - pose proof (Hbody isWhiteSpace digit_not_space eq_refl) as Hws.
      pose proof (Hbody (fun c => ascii_eqb c c_minus)
                    (fun c H => digit_not_char c c_minus H eq_refl) eq_refl)
        as Hminus.
      pose proof (Hbody (fun c => ascii_eqb c c_plus)
                    (fun c H => digit_not_char c c_plus H eq_refl) eq_refl)
        as Hplus.
      destruct (literal_text false ip frac) as [|c s]; [reflexivity|].
      simpl in *. rewrite Hws. unfold strip_sign. now rewrite Hminus, Hplus. }
  rewrite Hsign.
  assert (Hinf : startsWith (literal_text false ip frac) "Infinity" = false).
  { pose proof (Hbody (fun c => ascii_eqb "I"%char c)
                  (fun c H => char_not_digit "I"%char c eq_refl H) eq_refl)
      as HI.
    destruct (literal_text false ip frac) as [|c s]; [reflexivity|].
    simpl in HI. unfold startsWith. now rewrite HI. }
  rewrite Hinf. unfold literal_value, literal_text, literal_ok, isDigits in *.
  apply andb_prop in Hok as [Hip Hfrac]. rewrite append_nil.
  destruct frac as [fp|].
  - apply andb_prop in Hfrac as [Hhead Hfp].
    rewrite span_digits by (assumption || reflexivity).
    change (ascii_eqb c_dot c_dot) with true. cbv iota.
    rewrite <- (append_empty_r fp) at 1.
    rewrite span_digits by (assumption || reflexivity).
    destruct fp as [|f fp]; [discriminate|].
    destruct ip; reflexivity.
  - apply andb_prop in Hfrac as [Hhead _].
    rewrite span_digits by (assumption || reflexivity).
    destruct ip as [|d ip]; [discriminate|]. reflexivity.
Qed.

Lemma substring_prefix (a b : string) :
  String.substring 0 (String.length a) (a ++ b) = a.
Proof.
  induction a as [|c a IH]; simpl_append; [now destruct b | now rewrite IH].
Qed.

Lemma substring_skip (a b : string) (len : nat) :
  String.substring (String.length a) len (a ++ b) = String.substring 0 len b.
Proof. induction a as [|c a IH]; simpl_append; [reflexivity | exact IH]. Qed.

(** ** Trimming *)

Lemma string_forallb_append (f : ascii -> bool) (a b : string) :
  string_forallb f (a ++ b) = (string_forallb f a && string_forallb f b)%bool.
Proof.
  induction a as [|c a IH]; simpl_append; [reflexivity|].
  now rewrite IH, andb_assoc.
Qed.

Lemma string_forallb_impl (f g : ascii -> bool) (s : string) :
  (forall c, f c = true -> g c = true) ->
  string_forallb f s = true -> string_forallb g s = true.
Proof.
  intros Hfg. induction s as [|c s IH]; simpl; [reflexivity|].
  intros H. apply andb_prop in H as [Hc Hs]. now rewrite (Hfg c Hc), IH.
Qed.

Lemma trimEnd_solid (a b : string) :
  solid a = true -> a <> "" -> trimEnd (a ++ b) = a ++ trimEnd b.
Proof.
  unfold solid. induction a as [|c a IH]; [congruence|].
  simpl. intros H _. apply andb_prop in H as [Hc Ha].
  apply negb_true_iff in Hc. rewrite !append_cons. simpl.
  destruct a as [|c' a].
  - rewrite !append_nil. rewrite Hc. now destruct (trimEnd b).
  - rewrite IH by (assumption || discriminate). now rewrite append_cons.
Qed.

Lemma head_trimEnd (f : ascii -> bool) (s : string) :
  (forall c, f c = true -> isWhiteSpace c = false) ->
  head_is f (trimEnd s) = head_is f s.
Proof.
  intros Hf. destruct s as [|c s]; [reflexivity|]. simpl.
  destruct (trimEnd s); [|reflexivity].
  destruct (isWhiteSpace c) eqn:E; [|reflexivity].
  simpl. destruct (f c) eqn:F; [|reflexivity].
  apply Hf in F. congruence.
Qed.

Lemma not_prolonging_trimEnd (frac : option string) (extra : string) :
  not_prolonging frac extra = true ->
  not_prolonging frac (trimEnd extra) = true.
Proof.
  unfold not_prolonging. intros H. apply andb_prop in H as [Hd Hp].
  rewrite (head_trimEnd isDigit) by apply digit_not_space. rewrite Hd.
  destruct frac as [fp|]; [reflexivity|].
  destruct extra as [|c r]; [reflexivity|]. simpl.
  pose proof (head_trimEnd isDigit r digit_not_space) as Hr.
  destruct (trimEnd r) as [|c' t].
  - destruct (isWhiteSpace c); [reflexivity|]. simpl. now rewrite andb_false_r.
  - simpl in Hr. simpl. now rewrite Hr.
Qed.

Lemma literal_solid (neg : bool) (ip : string) (frac : option string) :
  literal_ok ip frac = true -> solid (literal_text neg ip frac) = true.
Proof.
  unfold literal_ok, literal_text, solid, isDigits. intros H.
  apply andb_prop in H as [Hip Hfrac].
  assert (Hd : forall s, string_forallb isDigit s = true ->
                         string_forallb (fun c => negb (isWhiteSpace c)) s = true).
  { intros s. apply string_forallb_impl. intros c Hc.
    now rewrite (digit_not_space c Hc). }
  rewrite !string_forallb_append, (Hd ip Hip).
  destruct frac as [fp|].
  - apply andb_prop in Hfrac as [_ Hfp]. simpl. rewrite (Hd fp Hfp).
    now destruct neg.
  - now destruct neg.
Qed.

Lemma literal_not_empty (neg : bool) (ip : string) (frac : option string) :
  literal_ok ip frac = true -> literal_text neg ip frac <> "".
Proof.
  unfold literal_ok, literal_text, isDigits. intros H.
  apply andb_prop in H as [_ H]. destruct neg; [discriminate|].
  rewrite append_nil. destruct ip as [|d ip].
  - destruct frac; discriminate.
  - discriminate.
Qed.

Lemma search_hit (p : list item) (s : string) (i : nat) (ms : list nat)
    (e : nat) :
  run p s i = Some (ms, e) -> search p s i = Some (i, ms, e).
Proof. intros H. destruct s; simpl; now rewrite H. Qed.

Lemma trimEnd_append (a b : string) :
  trimEnd b <> "" -> trimEnd (a ++ b) = a ++ trimEnd b.
Proof.
  intros Hb. induction a as [|c a IH]; simpl_append; [reflexivity|].
  rewrite IH. destruct (a ++ trimEnd b) eqn:E; [|reflexivity].
  destruct a as [|c' a];
    [rewrite append_nil in E; congruence | rewrite append_cons in E; discriminate].
Qed.

Lemma fragment_text_prefix (dot : bool) (key ws1 ws2 rhs : string) :
  fragment_text dot key ws1 ws2 rhs = fragment_prefix dot key ws1 ws2 ++ rhs.
Proof.
  unfold fragment_text, fragment_prefix.
  now rewrite !append_assoc, append_cons.
Qed.

Lemma fragment_prefix_length (dot : bool) (key ws1 ws2 : string) :
  String.length (fragment_prefix dot key ws1 ws2)
  = (String.length ws2
     + S (String.length ws1
          + (String.length key + (if dot then 1 else 0))))%nat.
Proof.
  unfold fragment_prefix. rewrite !length_append. simpl.
  destruct dot; simpl; lia.
Qed.

(** Trimming a fragment only touches what follows the literal. *)
Lemma trim_fragment (pad : string) (dot : bool) (key ws1 ws2 : string)
    (neg : bool) (ip : string) (frac : option string) (extra : string) :
  string_forallb isWhiteSpace pad = true ->
  isWords key = true ->
  literal_ok ip frac = true ->
  trim (pad ++ fragment_text dot key ws1 ws2 (literal_text neg ip frac ++ extra))
  = fragment_text dot key ws1 ws2 (literal_text neg ip frac ++ trimEnd extra).
Proof.
  intros Hpad Hkey Hok. unfold trim. rewrite trimStart_pad; [|assumption|].
  - rewrite !fragment_text_prefix.
    assert (H : trimEnd (literal_text neg ip frac ++ extra)
                = literal_text neg ip frac ++ trimEnd extra)
      by (apply trimEnd_solid;
          [now apply literal_solid | now apply literal_not_empty]).
    rewrite trimEnd_append; rewrite H; [reflexivity|].
    pose proof (literal_not_empty neg ip frac Hok) as Hne.
    destruct (literal_text neg ip frac); [congruence | discriminate].
  - unfold fragment_text, isWords in *. apply andb_prop in Hkey as [Hhead _].
    destruct dot; [reflexivity|]. rewrite append_nil.
    destruct key as [|k key]; [discriminate|]. simpl in *.
    now apply word_not_space.
Qed.

(** The groups that the marks of [run_assignment] cut out. *)
Lemma groups_fragment (dot : bool) (key ws1 ws2 lit rest : string) :
  let n0 := (if dot then 1 else 0)%nat in
  let n1 := (String.length key + n0)%nat in
  let n2 := (String.length ws2 + S (String.length ws1 + n1))%nat in
  groups (fragment_text dot key ws1 ws2 (lit ++ rest))
         (n0 :: n1 :: n2 :: (String.length lit + n2)%nat :: nil)
  = key :: lit :: nil.
Proof.
  cbv zeta. unfold groups. f_equal; [|f_equal].
  - replace (String.length key + (if dot then 1 else 0)
             - (if dot then 1 else 0))%nat with (String.length key) by lia.
    unfold fragment_text.
    replace (if dot then 1%nat else 0%nat)
      with (String.length (if dot then "." else "")) by now destruct dot.
    now rewrite substring_skip, substring_prefix.
  - rewrite fragment_text_prefix, <- fragment_prefix_length.
    rewrite Nat.add_sub, substring_skip. apply substring_prefix.
Qed.

(** ** Fragments with something after the number *)

(** C10.  Take a fragment of the shape the pattern describes: an optional
    point, a name, the sign [=] with optional white space around it, and a
    numeric literal; let any text follow that does not prolong the literal
    (as [x] after [5], or [.3] after [1.5]).  The fragment passes the test
    [if (match)]: the name is its name and the value is what [parseFloat]
    gives on the literal alone, the Number value of the fraction the
    literal denotes; so the loop assigns that number to that name.  The
    lines [a=5x] and [a=1.5.3] decode to [a] at 5 and at 1.5, and
    [a=9007199254740993x] to [a] at 9007199254740992. *)
Theorem assignment_pattern_unanchored_end (pad : string) (dot : bool)
    (key ws1 ws2 : string) (neg : bool) (ip : string) (frac : option string)
    (extra : string) :
  string_forallb isWhiteSpace pad = true ->
  isWords key = true ->
  string_forallb isWhiteSpace ws1 = true ->
  string_forallb isWhiteSpace ws2 = true ->
  literal_ok ip frac = true ->
  not_prolonging frac extra = true ->
  let assignment :=
    pad ++ fragment_text dot key ws1 ws2 (literal_text neg ip frac ++ extra) in
  parseAssignment assignment
  = Some (key, parseFloat (literal_text neg ip frac))
  /\ parseFloat (literal_text neg ip frac)
     = round64 (literal_value neg ip frac)
  /\ parseAssignments (assignment :: nil)
     = set_property key (parseFloat (literal_text neg ip frac)) ∅
  /\ parseSimulationState (JString "a=5x") = Some {[ "a" := Fin 5 ]}
  /\ parseSimulationState (JString "a=1.5.3") = Some {[ "a" := Fin (3 # 2) ]}
  /\ parseSimulationState (JString "a=9007199254740993x")
     = Some {[ "a" := Fin 9007199254740992 ]}.
Proof.
  intros Hpad Hkey Hws1 Hws2 Hok Hstop assignment.
  assert (Hmatch : parseAssignment assignment
                   = Some (key, parseFloat (literal_text neg ip frac))).
  { subst assignment.
    unfold parseAssignment. rewrite trim_fragment by assumption.
    unfold regex_match.
    rewrite (search_hit _ _ _ _ _
               (run_assignment dot key ws1 ws2 neg ip frac (trimEnd extra)
                  Hkey Hws1 Hws2 Hok (not_prolonging_trimEnd _ _ Hstop))).
    now rewrite groups_fragment. }
  split; [exact Hmatch|].
  split; [now apply parseFloat_literal|].
  split; [unfold parseAssignments; simpl; now rewrite Hmatch|].
  repeat split; vm_compute; reflexivity.
Qed.

Lemma assignment_pattern_unanchored_end_witness :
  parseAssignment " .b = -12.5.7" = Some ("b", Fin (-25 # 2)).
Proof.
  etransitivity.
  - exact (proj1 (assignment_pattern_unanchored_end " " true "b" " " " " true
                    "12" (Some "5") ".7"
                    eq_refl eq_refl eq_refl eq_refl eq_refl eq_refl)).
  - vm_compute. reflexivity.
Defined.

(** * Further properties *)

(** ** The clamp *)

(** X1.  For a range with numeric bounds, the lower one not above the
    upper one, [clampValue] is a projection onto the range: the result lies
    within the bounds, a number already within them comes back as the same
    number, and clamping a second time changes nothing. *)
Theorem clampValue_projection (x : number) (range : option Range) :
  range_ok range = true -> is_NaN x = false ->
  within (clampValue x range) range = true
  /\ (within x range = true -> number_eq (clampValue x range) x)
  /\ number_eq (clampValue (clampValue x range) range) (clampValue x range).
Proof.
  intros Hok Hx. split; [|split].
  - now apply clampValue_within.
  - apply clampValue_id.
  - now apply clampValue_id, clampValue_within.
Qed.

Lemma clampValue_projection_witness :
  within (clampValue (Fin 7) (Some (mkRange (Some (Fin (-100))) (Some (Fin 1)))))
         (Some (mkRange (Some (Fin (-100))) (Some (Fin 1)))) = true.
Proof.
  exact (proj1 (clampValue_projection (Fin 7)
                  (Some (mkRange (Some (Fin (-100))) (Some (Fin 1))))
                  eq_refl eq_refl)).
Defined.

Lemma Math_max_monotone (lo x y : number) :
  is_NaN lo = false -> nleb x y = true ->
  nleb (Math_max lo x) (Math_max lo y) = true.
Proof. destruct lo, x, y; number_cases. Qed.

Lemma Math_min_monotone (hi x y : number) :
  is_NaN hi = false -> nleb x y = true ->
  nleb (Math_min hi x) (Math_min hi y) = true.
Proof. destruct hi, x, y; number_cases. Qed.

(** X2.  [clampValue] keeps the order of numbers: of two numbers, the
    smaller one never ends up above the larger one. *)
Theorem clampValue_monotone (x y : number) (range : option Range) :
  range_ok range = true -> nleb x y = true ->
  nleb (clampValue x range) (clampValue y range) = true.
Proof.
  destruct range as [[[lo|] [hi|]]|]; simpl; intros Hok Hxy; try assumption.
  - destruct (nleb_not_NaN _ _ Hok) as [Hlo Hhi].
    now apply Math_min_monotone, Math_max_monotone.
  - apply Math_max_monotone; [now destruct (is_NaN lo) | assumption].
  - apply Math_min_monotone; [now destruct (is_NaN hi) | assumption].
Qed.

Lemma clampValue_monotone_witness :
  nleb (clampValue (Fin (-200)) (Some (mkRange (Some (Fin (-100))) (Some (Fin 1)))))
       (clampValue (Fin (1 # 2)) (Some (mkRange (Some (Fin (-100))) (Some (Fin 1)))))
  = true.
Proof.
  exact (clampValue_monotone (Fin (-200)) (Fin (1 # 2))
           (Some (mkRange (Some (Fin (-100))) (Some (Fin 1)))) eq_refl eq_refl).
Defined.

(** X3.  Outside those conditions the clamp does not repair anything.  A
    NaN goes through whatever the range is; and when the lower bound is
    above the upper bound, every number is sent to the upper bound, since
    [Math.min] is applied last. *)
Theorem clampValue_degenerate (x lo hi : number) (range : option Range) :
  nltb hi lo = true -> is_NaN x = false ->
  clampValue NaN range = NaN
  /\ clampValue x (Some (mkRange (Some lo) (Some hi))) = hi.
Proof.
  intros Hinv Hx. split.
  - destruct range as [[[a|] [b|]]|]; simpl; try reflexivity;
      try (now destruct a); try (now destruct b).
    destruct a, b; reflexivity.
  - simpl. destruct x, lo, hi; number_cases.
Qed.

Lemma clampValue_degenerate_witness :
  clampValue (Fin 3) (Some (mkRange (Some (Fin 5)) (Some (Fin 1)))) = Fin 1.
Proof.
  exact (proj2 (clampValue_degenerate (Fin 3) (Fin 5) (Fin 1) None
                  eq_refl eq_refl)).
Defined.

(** ** What the decoder accepts *)

Lemma mark_inv (i : nat) (r : option run_result) (ms : list nat) (e : nat) :
  mark i r = Some (ms, e) -> exists ms', r = Some (ms', e) /\ ms = i :: ms'.
Proof.
  destruct r as [[ms' e']|]; simpl; [|discriminate].
  intros [= <- <-]. eauto.
Qed.

(** A quantifier that lets the pattern match has taken some run of its
    characters, and the rest of the pattern matches what follows. *)
Lemma greedy_sound (a : atom) (k : string -> nat -> option run_result)
    (s : string) (i : nat) (r : run_result) :
  greedy a k s i = Some r ->
  exists w rest,
    s = w ++ rest /\ string_forallb (atom_matches a) w = true
    /\ k rest (String.length w + i)%nat = Some r.
Proof.
  revert i. induction s as [|c s IH]; intros i H.
  - exists "", "". auto.
  - simpl in H. destruct (atom_matches a c) eqn:Hc.
    + destruct (greedy a k s (S i)) as [r'|] eqn:Hg.
      * injection H as ->. destruct (IH _ Hg) as (w & rest & -> & Hw & Hk).
        exists (String c w), rest. simpl. rewrite Hc, Hw.
        rewrite Nat.add_succ_r in Hk. auto.
      * exists "", (String c s). auto.
    + exists "", (String c s). auto.
Qed.

Lemma run_plus_inv (a : atom) (p : list item) (s : string) (i : nat)
    (r : run_result) :
  run (IPlus a :: p) s i = Some r ->
  exists c w rest,
    s = String c (w ++ rest) /\ atom_matches a c = true
    /\ string_forallb (atom_matches a) w = true
    /\ run p rest (S (String.length w + i)) = Some r.
Proof.
  destruct s as [|c s]; simpl; [discriminate|].
  destruct (atom_matches a c) eqn:Hc; [|discriminate].
  intros H. apply greedy_sound in H as (w & rest & -> & Hw & Hk).
  rewrite Nat.add_succ_r in Hk. eauto 10.
Qed.

Lemma run_close_inv (s : string) (i : nat) (ms : list nat) (e : nat) :
  run (IClose :: nil) s i = Some (ms, e) -> ms = i :: nil /\ e = i.
Proof. simpl. now intros [= <- <-]. Qed.

Lemma isDigits_append (w : string) (d : ascii) (w2 : string) :
  string_forallb isDigit w = true -> isDigit d = true ->
  string_forallb isDigit w2 = true ->
  isDigits (w ++ String d w2) = true
  /\ string_forallb isDigit (w ++ String d w2) = true.
Proof.
  intros Hw Hd Hw2. unfold isDigits.
  assert (Hall : string_forallb isDigit (w ++ String d w2) = true)
    by (rewrite string_forallb_append; simpl; now rewrite Hw, Hd, Hw2).
  rewrite Hall. split; [|reflexivity].
  destruct w as [|c w]; simpl in *; [now rewrite Hd|].
  apply andb_prop in Hw as [-> _]. reflexivity.
Qed.

(** What the number pattern without its sign matches is a literal. *)
Lemma run_unsigned_sound (s : string) (j : nat) (ms : list nat) (e : nat) :
  run (IStar ADigit :: IOpt (AChar c_dot) :: IPlus ADigit :: IClose :: nil) s j
  = Some (ms, e) ->
  exists ip frac extra,
    s = literal_text false ip frac ++ extra
    /\ literal_ok ip frac = true
    /\ ms = (String.length (literal_text false ip frac) + j)%nat :: nil
    /\ e = (String.length (literal_text false ip frac) + j)%nat.
Proof.
  intros H.
  change (run (IStar ADigit :: ?p) ?s ?i) with (greedy ADigit (run p) s i) in H.
  apply greedy_sound in H as (w & rest & -> & Hw & Hk).
  change (atom_matches ADigit) with isDigit in Hw.
  assert (Hplain : forall r0 n,
             run (IPlus ADigit :: IClose :: nil) r0 n = Some (ms, e) ->
             exists d w2 extra,
               r0 = String d (w2 ++ extra) /\ isDigit d = true
               /\ string_forallb isDigit w2 = true
               /\ ms = S (String.length w2 + n) :: nil
               /\ e = S (String.length w2 + n)).
  { intros r0 n Hr.
    apply run_plus_inv in Hr as (d & w2 & extra & -> & Hd & Hw2 & Hc).
    change (atom_matches ADigit) with isDigit in Hd, Hw2.
    apply run_close_inv in Hc as [-> ->]. eauto 10. }
  assert (Hnone : forall r0 n,
             run (IPlus ADigit :: IClose :: nil) r0 n = Some (ms, e) ->
             exists ip frac extra,
               w ++ r0 = literal_text false ip frac ++ extra
               /\ literal_ok ip frac = true
               /\ (n = String.length w + j ->
                   ms = (String.length (literal_text false ip frac) + j)%nat :: nil
                   /\ e = (String.length (literal_text false ip frac) + j)%nat)%nat).
  { intros r0 n Hr.
    destruct (Hplain _ _ Hr) as (d & w2 & extra & -> & Hd & Hw2 & -> & ->).
    exists (w ++ String d w2), None, extra.
    destruct (isDigits_append w d w2 Hw Hd Hw2) as [H1 H2].
    unfold literal_text, literal_ok. rewrite H1, H2.
    rewrite append_nil, append_empty_r, append_assoc, append_cons.
    repeat split; subst n; rewrite length_append; simpl; f_equal; lia. }
  destruct rest as [|c rest].
  - simpl in Hk. discriminate.
  - destruct (ascii_eqb c c_dot) eqn:Hdot.
    + change (run (IOpt (AChar c_dot) :: ?p) (String c ?s) ?i)
        with (if ascii_eqb c c_dot then
                match run p s (S i) with
                | Some r => Some r
                | None => run p (String c s) i
                end
              else run p (String c s) i) in Hk.
      rewrite Hdot in Hk.
      destruct (run (IPlus ADigit :: IClose :: nil) rest
                  (S (String.length w + j))) as [r|] eqn:Hfrac.
      * injection Hk as ->.
        destruct (Hplain _ _ Hfrac) as (d & w2 & extra & -> & Hd & Hw2 & -> & ->).
        exists w, (Some (String d w2)), extra.
        apply ascii_eqb_code in Hdot.
        assert (c = c_dot) as ->.
        { rewrite <- (ascii_N_embedding c), <- (ascii_N_embedding c_dot).
          unfold code in Hdot. now rewrite Hdot. }
        unfold literal_text, literal_ok, isDigits. simpl.
        rewrite Hw, Hd, Hw2, append_nil, append_assoc, !append_cons.
        repeat split; rewrite length_append; simpl; f_equal; lia.
      * destruct (Hnone _ _ Hk) as (ip & frac & extra & Heq & Hok & Hpos).
        destruct (Hpos eq_refl) as [-> ->]. eauto 10.
    + change (run (IOpt (AChar c_dot) :: ?p) (String c ?s) ?i)
        with (if ascii_eqb c c_dot then
                match run p s (S i) with
                | Some r => Some r
                | None => run p (String c s) i
                end
              else run p (String c s) i) in Hk.
      rewrite Hdot in Hk.
      destruct (Hnone _ _ Hk) as (ip & frac & extra & Heq & Hok & Hpos).
      destruct (Hpos eq_refl) as [-> ->]. eauto 10.
Qed.

Lemma ascii_eqb_eq (a b : ascii) : ascii_eqb a b = true -> a = b.
Proof.
  intros H. apply ascii_eqb_code in H. unfold code in H.
  rewrite <- (ascii_N_embedding a), <- (ascii_N_embedding b). now rewrite H.
Qed.

Lemma run_opt_inv (c : ascii) (p : list item) (s : string) (i : nat)
    (r : run_result) :
  run (IOpt (AChar c) :: p) s i = Some r ->
  (exists s', s = String c s' /\ run p s' (S i) = Some r)
  \/ run p s i = Some r.
Proof.
  destruct s as [|d s]; simpl; [now right|].
  destruct (ascii_eqb d c) eqn:E; [|now right].
  apply ascii_eqb_eq in E as ->.
  destruct (run p s (S i)) as [r'|] eqn:Hr; [|now right].
  intros [= ->]. left. eauto.
Qed.

(** What the number pattern matches is a literal, and its closing mark is
    at the end of the literal. *)
Lemma run_number_sound (s : string) (j : nat) (ms : list nat) (e : nat) :
  run re_number s j = Some (ms, e) ->
  exists neg ip frac extra,
    s = literal_text neg ip frac ++ extra
    /\ literal_ok ip frac = true
    /\ ms = (String.length (literal_text neg ip frac) + j)%nat :: nil
    /\ e = (String.length (literal_text neg ip frac) + j)%nat.
Proof.
  unfold re_number. intros H.
  apply run_opt_inv in H as [(s' & -> & H)|H];
    apply run_unsigned_sound in H as (ip & frac & extra & -> & Hok & -> & ->).
  - exists true, ip, frac, extra.
    change (literal_text true ip frac)
      with (String c_minus (literal_text false ip frac)).
    rewrite append_cons. simpl String.length.
    rewrite Nat.add_succ_r. auto.
  - exists false, ip, frac, extra. auto.
Qed.

(** What [re_assignment] matches from the name on. *)
Lemma run_key_onwards_sound (s : string) (i : nat) (ms : list nat) (e : nat) :
  run re_key_onwards s i = Some (ms, e) ->
  exists key ws1 ws2 neg ip frac extra,
    s = key ++ ws1 ++ String c_equal (ws2 ++ literal_text neg ip frac ++ extra)
    /\ isWords key = true
    /\ string_forallb isWhiteSpace ws1 = true
    /\ string_forallb isWhiteSpace ws2 = true
    /\ literal_ok ip frac = true
    /\ ms = i :: (String.length key + i)%nat
            :: (String.length ws2 + S (String.length ws1 + (String.length key + i)))%nat
            :: (String.length (literal_text neg ip frac)
                + (String.length ws2
                   + S (String.length ws1 + (String.length key + i))))%nat
            :: nil.
Proof.
  unfold re_key_onwards. intros H.
  change (run (IOpen :: ?p) ?s ?j) with (mark j (run p s j)) in H.
  apply mark_inv in H as (ms1 & H & ->).
  apply run_plus_inv in H as (k & w & rest & -> & Hk & Hw & H).
  change (atom_matches AWord) with isWord in Hk, Hw.
  change (run (IClose :: IStar ASpace :: ?p) ?s ?j)
    with (mark j (greedy ASpace (run p) s j)) in H.
  apply mark_inv in H as (ms2 & H & ->).
  apply greedy_sound in H as (ws1 & rest1 & -> & Hws1 & H).
  change (atom_matches ASpace) with isWhiteSpace in Hws1.
  destruct rest1 as [|c rest1]; [discriminate|].
  simpl run in H. destruct (ascii_eqb c c_equal) eqn:Hc; [|discriminate].
  apply ascii_eqb_eq in Hc as ->.
  apply greedy_sound in H as (ws2 & rest2 & -> & Hws2 & H).
  change (atom_matches ASpace) with isWhiteSpace in Hws2.
  apply mark_inv in H as (ms3 & H & ->).
  apply run_number_sound in H as (neg & ip & frac & extra & -> & Hok & -> & _).
  exists (String k w), ws1, ws2, neg, ip, frac, extra.
  unfold isWords. simpl. rewrite Hk, Hw. rewrite append_cons.
  repeat split; assumption.
Qed.

Lemma search_bol_none (p : list item) (s : string) (i : nat) :
  search (IBol :: p) s (S i) = None.
Proof. revert i. induction s as [|c s IH]; intros i; simpl; auto. Qed.

Lemma search_unfold (p : list item) (s : string) (i : nat) :
  search p s i
  = match run p s i with
    | Some (ms, e) => Some (i, ms, e)
    | None =>
        match s with
        | String _ s' => search p s' (S i)
        | EmptyString => None
        end
    end.
Proof. destruct s; reflexivity. Qed.

Lemma search_bol_inv (p : list item) (s : string) (b e : nat)
    (ms : list nat) :
  search (IBol :: p) s 0 = Some (b, ms, e) ->
  b = 0%nat /\ run p s 0 = Some (ms, e).
Proof.
  rewrite search_unfold.
  change (run (IBol :: p) s 0) with (run p s 0).
  destruct (run p s 0) as [[ms' e']|].
  - intros [= <- <- <-]. auto.
  - destruct s; [discriminate|]. now rewrite search_bol_none.
Qed.

(** What [re_assignment] matches: a fragment of the shape of
    [fragment_text] with a literal on the right. *)
Lemma regex_match_assignment_sound (t : string) (gs : list string) :
  regex_match re_assignment t = Some gs ->
  exists dot key ws1 ws2 neg ip frac extra,
    t = fragment_text dot key ws1 ws2 (literal_text neg ip frac ++ extra)
    /\ isWords key = true
    /\ string_forallb isWhiteSpace ws1 = true
    /\ string_forallb isWhiteSpace ws2 = true
    /\ literal_ok ip frac = true
    /\ gs = key :: literal_text neg ip frac :: nil.
Proof.
  unfold regex_match.
  destruct (search re_assignment t 0) as [[[b ms] e]|] eqn:Hs; [|discriminate].
  intros [= <-]. unfold re_assignment in Hs. fold re_number in Hs.
  fold re_key_onwards in Hs.
  apply search_bol_inv in Hs as [_ H].
  apply run_opt_inv in H as [(s' & -> & H)|H];
    apply run_key_onwards_sound in H
      as (key & ws1 & ws2 & neg & ip & frac & extra & Heq & Hkey & H1 & H2
          & Hok & ->).
  - subst s'. exists true, key, ws1, ws2, neg, ip, frac, extra.
    repeat split; try assumption.
    change (String c_dot (key ++ ws1 ++ String c_equal
                            (ws2 ++ literal_text neg ip frac ++ extra)))
      with (fragment_text true key ws1 ws2 (literal_text neg ip frac ++ extra)).
    apply (groups_fragment true).
  - subst t. exists false, key, ws1, ws2, neg, ip, frac, extra.
    repeat split; try assumption.
    change (key ++ ws1 ++ String c_equal
                            (ws2 ++ literal_text neg ip frac ++ extra))
      with (fragment_text false key ws1 ws2 (literal_text neg ip frac ++ extra)).
    apply (groups_fragment false).
Qed.

(** A fragment that passes the test [if (match)] gives a name made of word
    characters and a number other than NaN. *)
Lemma parseAssignment_sound (assignment varName : string) (v : number) :
  parseAssignment assignment = Some (varName, v) ->
  isWords varName = true /\ is_NaN v = false.
Proof.
  unfold parseAssignment.
  destruct (regex_match re_assignment (trim assignment)) as [gs|] eqn:Hm;
    [|discriminate].
  apply regex_match_assignment_sound in Hm
    as (dot & key & ws1 & ws2 & neg & ip & frac & extra & _ & Hkey & _ & _
        & Hok & ->).
  intros [= <- <-]. split; [assumption|].
  rewrite parseFloat_literal by assumption. apply round64_not_NaN.
Qed.

(** ** The decoded mapping *)

Lemma parseAssignments_from (assignments : list string) :
  parseAssignments assignments = parseAssignmentsFrom ∅ assignments.
Proof. reflexivity. Qed.

Lemma parseAssignmentsFrom_app (state : gmap string number)
    (l1 l2 : list string) :
  parseAssignmentsFrom state (l1 ++ l2)%list
  = parseAssignmentsFrom (parseAssignmentsFrom state l1) l2.
Proof. apply fold_left_app. Qed.

Lemma parseAssignmentsFrom_cons (state : gmap string number) (a : string)
    (l : list string) :
  parseAssignmentsFrom state (a :: l)
  = parseAssignmentsFrom (assign state a) l.
Proof. reflexivity. Qed.

Lemma set_property_lookup_ne (k k' : string) (v : number)
    (state : gmap string number) :
  k <> k' -> set_property k v state !! k' = state !! k'.
Proof.
  intros Hne. unfold set_property.
  destruct (String.eqb k "__proto__"); [reflexivity|].
  now apply lookup_insert_ne.
Qed.

(** Fragments that do not name [k] leave its entry alone. *)
Lemma parseAssignmentsFrom_other (state : gmap string number)
    (l : list string) (k : string) :
  (forall a v, In a l -> parseAssignment a <> Some (k, v)) ->
  parseAssignmentsFrom state l !! k = state !! k.
Proof.
  revert state. induction l as [|a l IH]; intros state Hl; [reflexivity|].
  rewrite parseAssignmentsFrom_cons.
  rewrite IH by (intros b v Hb; apply Hl; now right).
  unfold assign. destruct (parseAssignment a) as [[k' v']|] eqn:Ha;
    [|reflexivity].
  apply set_property_lookup_ne. intros ->. apply (Hl a v'); [now left|exact Ha].
Qed.

(** X4.  In the mapping decoded from a text, the value of a key is the
    value of the last fragment that names it, whatever fragments come in
    between or after, malformed or about other names; and a key that no
    fragment names is not in the mapping. *)
Theorem decoded_value_is_last_assignment (l1 l2 : list string)
    (a k : string) (v : number) :
  parseAssignment a = Some (k, v) ->
  k <> "__proto__" ->
  (forall b v', In b l2 -> parseAssignment b <> Some (k, v')) ->
  parseAssignments (l1 ++ a :: l2)%list !! k = Some v
  /\ ((forall b v', In b l1 -> parseAssignment b <> Some (k, v')) ->
      parseAssignments (l1 ++ l2)%list !! k = None).
Proof.
  intros Ha Hk Hl2. rewrite !parseAssignments_from, !parseAssignmentsFrom_app.
  split.
  - rewrite parseAssignmentsFrom_cons.
    rewrite (parseAssignmentsFrom_other _ l2 k Hl2).
    unfold assign, set_property. rewrite Ha.
    apply String.eqb_neq in Hk. rewrite Hk. apply lookup_insert_eq.
  - intros Hl1. rewrite ?parseAssignments_from, ?parseAssignmentsFrom_app.
    rewrite (parseAssignmentsFrom_other _ l2 k Hl2).
    now rewrite (parseAssignmentsFrom_other _ l1 k Hl1).
Qed.

Lemma decoded_value_is_last_assignment_witness :
  parseAssignments ("a=1" :: " b=bad" :: "a=2" :: " c=3" :: nil) !! "a"
  = Some (Fin 2).
Proof.
  refine (proj1 (decoded_value_is_last_assignment
                   ("a=1" :: " b=bad" :: nil) (" c=3" :: nil) "a=2" "a" (Fin 2)
                   eq_refl _ _)).
  - discriminate.
  - intros b v' [<-|[]]. vm_compute. discriminate.
Defined.

Lemma assign_decoded_ok (state : gmap string number) (a : string) :
  decoded_ok state -> decoded_ok (assign state a).
Proof.
  intros Hst. unfold assign.
  destruct (parseAssignment a) as [[k v]|] eqn:Ha; [|assumption].
  apply parseAssignment_sound in Ha as [Hk Hv].
  unfold set_property. destruct (String.eqb k "__proto__") eqn:E; [assumption|].
  intros k' v'. rewrite lookup_insert. destruct (decide (k = k')) as [<-|Hne].
  - intros [= <-]. apply String.eqb_neq in E. auto.
  - apply Hst.
Qed.

Lemma parseAssignmentsFrom_decoded_ok (state : gmap string number)
    (l : list string) :
  decoded_ok state -> decoded_ok (parseAssignmentsFrom state l).
Proof.
  revert state. induction l as [|a l IH]; intros state Hst; [assumption|].
  rewrite parseAssignmentsFrom_cons. now apply IH, assign_decoded_ok.
Qed.

Lemma decoded_entries_ok (s : string) (state : gmap string number) :
  parseSimulationState (JString s) = Some state -> decoded_ok state.
Proof.
  unfold parseSimulationState. simpl. intros [= <-].
  rewrite parseAssignments_from.
  apply parseAssignmentsFrom_decoded_ok. intros k' v'.
  now rewrite lookup_empty.
Qed.

(** X5.  Whatever the text, every entry of the mapping that
    [parseSimulationState] returns has a key made of one or more word
    characters, never [__proto__], and a number as its value: the decoder
    never stores NaN, since the pattern lets through only texts that
    [parseFloat] reads. *)
Theorem decoded_entries_are_numbers (s : string)
    (state : gmap string number) (k : string) (v : number) :
  parseSimulationState (JString s) = Some state ->
  state !! k = Some v ->
  isWords k = true /\ k <> "__proto__" /\ is_NaN v = false.
Proof.
  intros Hs Hk.
  exact (decoded_entries_ok s state Hs k v Hk).
Qed.

Lemma decoded_entries_are_numbers_witness :
  isWords "x" = true /\ "x" <> "__proto__" /\ is_NaN (Fin (-5 # 2)) = false.
Proof.
  refine (decoded_entries_are_numbers ".{x = -2.5abc, y=nan}"
            {[ "x" := Fin (-5 # 2) ]} "x" (Fin (-5 # 2)) _ _);
    vm_compute; reflexivity.
Defined.

(** ** The wrapper of a snapshot *)

Lemma trimEnd_spaces (pad : string) :
  string_forallb isWhiteSpace pad = true -> trimEnd pad = "".
Proof.
  induction pad as [|c pad IH]; simpl; [reflexivity|].
  intros H. apply andb_prop in H as [Hc Hpad]. now rewrite IH, Hc.
Qed.

Lemma trimEnd_closing (a pad : string) :
  string_forallb isWhiteSpace pad = true ->
  trimEnd (a ++ "}" ++ pad) = a ++ "}".
Proof.
  intros Hpad.
  assert (H : trimEnd ("}" ++ pad) = "}")
    by (rewrite append_cons, append_nil; simpl;
        now rewrite (trimEnd_spaces pad Hpad)).
  rewrite trimEnd_append; rewrite H; [reflexivity | discriminate].
Qed.

Lemma substring_from_length (s : string) :
  substring_from (String.length s) s = "".
Proof. induction s; simpl; auto. Qed.

Lemma substring_from_past (a : string) (c : ascii) :
  substring_from (S (String.length a)) (a ++ String c "") = "".
Proof.
  replace (S (String.length a)) with (String.length (a ++ String c ""))
    by (rewrite length_append; simpl; lia).
  apply substring_from_length.
Qed.

(** The closing brace that [/}$/] finds is the last character. *)
Lemma search_close_last (body : string) (i : nat) :
  search re_close (body ++ "}") i
  = Some ((String.length body + i)%nat, nil, S (String.length body + i)).
Proof.
  revert i. induction body as [|c body IH]; intros i; [reflexivity|].
  rewrite append_cons, search_unfold.
  assert (Hrun : run re_close (String c (body ++ "}")) i = None).
  { unfold re_close. simpl. destruct (ascii_eqb c c_rbrace); [|reflexivity].
    destruct body; reflexivity. }
  rewrite Hrun, IH. simpl. now rewrite Nat.add_succ_r.
Qed.

Lemma regex_remove_close (body : string) :
  regex_remove re_close (body ++ "}") = body.
Proof.
  unfold regex_remove. rewrite search_close_last, Nat.add_0_r.
  rewrite take_string_append, substring_from_past. apply append_empty_r.
Qed.

Lemma search_close_none (s : string) (i : nat) :
  (forall b, s <> b ++ "}") -> search re_close s i = None.
Proof.
  revert i. induction s as [|c s IH]; intros i Hs; [reflexivity|].
  rewrite search_unfold.
  assert (Hrun : run re_close (String c s) i = None).
  { unfold re_close. simpl. destruct (ascii_eqb c c_rbrace) eqn:E; [|reflexivity].
    destruct s; [|reflexivity].
    apply ascii_eqb_eq in E as ->. now destruct (Hs ""). }
  rewrite Hrun. apply IH. intros b ->. now apply (Hs (String c b)).
Qed.

Lemma ascii_eqb_sym (a b : ascii) : ascii_eqb a b = ascii_eqb b a.
Proof. unfold ascii_eqb. apply N.eqb_sym. Qed.

Lemma regex_remove_open_none (s : string) :
  (forall r, s <> "{" ++ r) -> (forall r, s <> ".{" ++ r) ->
  regex_remove re_open s = s.
Proof.
  intros H1 H2. unfold regex_remove. rewrite search_unfold.
  assert (Hrun : run re_open s 0 = None).
  { unfold re_open. destruct s as [|c s]; [reflexivity|]. simpl.
    destruct (ascii_eqb c c_lbrace) eqn:E1.
    { apply ascii_eqb_eq in E1 as ->. now destruct (H1 s). }
    destruct (ascii_eqb c c_dot) eqn:E2; [|reflexivity].
    destruct s as [|d s]; [reflexivity|].
    destruct (ascii_eqb d c_lbrace) eqn:E3; [|reflexivity].
    apply ascii_eqb_eq in E2 as ->. apply ascii_eqb_eq in E3 as ->.
    now destruct (H2 s). }
  rewrite Hrun. destruct s; [reflexivity|].
  unfold re_open. now rewrite search_bol_none.
Qed.

(** X6.  The wrapper of a snapshot is optional and is removed exactly once.
    A text made of an opening [.{] or [{], any body and a closing [}], with
    white space around it, decodes to the assignments of the body, even if
    the body itself holds braces; and a body given without wrapper and
    without white space around it decodes to the same mapping. *)
Theorem decoder_wrapper_optional (pad1 pad2 body : string) (dot : bool) :
  string_forallb isWhiteSpace pad1 = true ->
  string_forallb isWhiteSpace pad2 = true ->
  parseSimulationState
    (JString (pad1 ++ (if dot then ".{" else "{") ++ body ++ "}" ++ pad2))
  = Some (parseAssignments (split c_comma body))
  /\ (trim body = body ->
      (forall r, body <> "{" ++ r) -> (forall r, body <> ".{" ++ r) ->
      (forall b, body <> b ++ "}") ->
      parseSimulationState (JString body)
      = Some (parseAssignments (split c_comma body))).
Proof.
  intros Hp1 Hp2. unfold parseSimulationState. simpl. split.
  - assert (Htrim : trim (pad1 ++ (if dot then ".{" else "{")
                            ++ body ++ "}" ++ pad2)
                    = (if dot then ".{" else "{") ++ body ++ "}").
    { unfold trim. rewrite trimStart_pad; [|assumption|now destruct dot].
      rewrite <- (append_assoc _ body), trimEnd_closing by assumption.
      now rewrite append_assoc. }
    rewrite Htrim.
    assert (Hopen : regex_remove re_open
                      ((if dot then ".{" else "{") ++ body ++ "}")
                    = body ++ "}") by now destruct dot.
    now rewrite Hopen, regex_remove_close.
  - intros Htrim H1 H2 H3. rewrite Htrim.
    rewrite regex_remove_open_none by assumption.
    unfold regex_remove. now rewrite search_close_none.
Qed.

Lemma decoder_wrapper_optional_witness :
  parseSimulationState (JString "  .{a=1, b={2}}  ")
  = Some (parseAssignments (split c_comma "a=1, b={2}"))
  /\ parseSimulationState (JString "a=1, b=2")
     = Some (parseAssignments (split c_comma "a=1, b=2")).
Proof.
  split.
  - exact (proj1 (decoder_wrapper_optional "  " "  " "a=1, b={2}" true
                    eq_refl eq_refl)).
  - refine (proj2 (decoder_wrapper_optional "" "" "a=1, b=2" true
                     eq_refl eq_refl) eq_refl _ _ _).
    + intros r H. discriminate H.
    + intros r H. discriminate H.
    + intros b H.
      assert (E : endsWith "a=1, b=2" "}" = true)
        by (apply endsWith_spec; now exists b).
      discriminate E.
Defined.

(** ** Applying snapshots *)

Lemma updateVariable_idempotent (serverState : gmap string number)
    (variable : VariableDef) :
  updateVariable serverState (updateVariable serverState variable)
  = updateVariable serverState variable.
Proof.
  unfold updateVariable.
  destruct (serverState !! name variable) as [raw|] eqn:E; simpl; now rewrite E.
Qed.

Lemma update_idempotent (serverState : gmap string number)
    (vars : list VariableDef) :
  updateVariablesFromServer serverState
    (fst (updateVariablesFromServer serverState vars))
  = updateVariablesFromServer serverState vars.
Proof.
  destruct (serverState !! "hasOwnProperty") as [x|] eqn:E.
  - destruct vars as [|v rest]; [reflexivity|].
    rewrite (update_throws _ x v rest E). simpl fst.
    apply (update_throws _ x v rest E).
  - rewrite !update_completes by assumption. simpl. f_equal.
    rewrite map_map. apply map_ext. intros v. apply updateVariable_idempotent.
Qed.

(** X7.  Receiving the same message a second time changes nothing more: the
    registry and the completion after the second delivery are those after
    the first.  What a snapshot stores depends on the snapshot and on the
    name, type and range of the variable, not on the value it held. *)
Theorem onmessage_idempotent (data : jsvalue) (vars : list VariableDef) :
  onmessage data (fst (onmessage data vars)) = onmessage data vars.
Proof.
  destruct data as [| | |text]; try reflexivity.
  unfold onmessage. cbv zeta.
  destruct (startsWith (trim text) "Success: "); [|reflexivity].
  destruct (parseSimulationState (JString (substring_from 9 (trim text))))
    as [state|]; [|reflexivity].
  apply update_idempotent.
Qed.

Lemma update_map_invariant {A : Type} (f : VariableDef -> A)
    (serverState : gmap string number) (vars : list VariableDef) :
  (forall v x, f (set_value v x) = f v) ->
  map f (fst (updateVariablesFromServer serverState vars)) = map f vars.
Proof.
  intros Hf. induction vars as [|v rest IH]; [reflexivity|]. simpl.
  destruct (hasOwnProperty serverState (name v)) as [e|has]; [reflexivity|].
  destruct (updateVariablesFromServer serverState rest) as [rest' c].
  simpl in *. rewrite IH. f_equal.
  destruct has, (serverState !! name v); auto.
Qed.

Lemma onmessage_map_invariant {A : Type} (f : VariableDef -> A)
    (data : jsvalue) (vars : list VariableDef) :
  (forall v x, f (set_value v x) = f v) ->
  map f (fst (onmessage data vars)) = map f vars.
Proof.
  intros Hf. destruct data as [| | |text]; try reflexivity.
  unfold onmessage. cbv zeta.
  destruct (startsWith (trim text) "Success: "); [|reflexivity].
  destruct (parseSimulationState (JString (substring_from 9 (trim text))))
    as [state|]; [|reflexivity].
  now apply update_map_invariant.
Qed.

(** X8.  No message, whatever it holds, adds, removes or reorders
    variables or touches a name, a type, a step or a range: after the
    listener has run the registry has the same variables in the same order,
    and only values can differ. *)
Theorem onmessage_keeps_definitions (data : jsvalue)
    (vars : list VariableDef) :
  map name (fst (onmessage data vars)) = map name vars
  /\ map type (fst (onmessage data vars)) = map type vars
  /\ map step (fst (onmessage data vars)) = map step vars
  /\ map range (fst (onmessage data vars)) = map range vars
  /\ length (fst (onmessage data vars)) = length vars.
Proof.
  repeat split; try (now apply onmessage_map_invariant).
  rewrite <- (length_map name), <- (length_map name vars).
  f_equal. now apply onmessage_map_invariant.
Qed.

Lemma update_within (serverState : gmap string number)
    (vars : list VariableDef) :
  decoded_ok serverState ->
  Forall (fun v => range_ok (range v) = true) vars ->
  Forall (fun v => within (value v) (range v) = true) vars ->
  Forall (fun v => within (value v) (range v) = true)
         (fst (updateVariablesFromServer serverState vars)).
Proof.
  intros Hst Hok Hin. induction vars as [|v rest IH]; [constructor|].
  apply Forall_cons in Hok as [Hv Hok]. apply Forall_cons in Hin as [Hw Hin].
  simpl. destruct (hasOwnProperty serverState (name v)) as [e|has].
  - now constructor.
  - specialize (IH Hok Hin).
    destruct (updateVariablesFromServer serverState rest) as [rest' c].
    simpl in *. constructor; [|assumption].
    destruct has; [|assumption].
    destruct (serverState !! name v) as [raw|] eqn:E; [|assumption].
    destruct (Hst _ _ E) as (_ & _ & Hraw). simpl.
    now apply serverValue_within.
Qed.

(** X9.  Inbound messages keep the range invariant.  If every range of the
    registry has numeric bounds, the lower one not above the upper one, and
    every variable is within its range, then after any message every
    variable is still within its range. *)
Theorem onmessage_keeps_ranges (data : jsvalue) (vars : list VariableDef) :
  Forall (fun v => range_ok (range v) = true) vars ->
  Forall (fun v => within (value v) (range v) = true) vars ->
  Forall (fun v => within (value v) (range v) = true)
         (fst (onmessage data vars)).
Proof.
  intros Hok Hin. destruct data as [| | |text]; try assumption.
  unfold onmessage. cbv zeta.
  destruct (startsWith (trim text) "Success: "); [|assumption].
  destruct (parseSimulationState (JString (substring_from 9 (trim text))))
    as [state|] eqn:E; [|assumption].
  apply update_within; try assumption.
  exact (decoded_entries_ok _ state E).
Qed.

Lemma onmessage_keeps_ranges_witness :
  Forall (fun v => within (value v) (range v) = true)
         (fst (onmessage (JString "Success: .{pheromone_decay_rate=7.5}")
                 variables)).
Proof.
  apply (onmessage_keeps_ranges
           (JString "Success: .{pheromone_decay_rate=7.5}") variables);
    repeat constructor.
Defined.

Lemma updateVariable_mentioned (serverState : gmap string number)
    (a b : VariableDef) :
  b = set_value a (value b) ->
  is_Some (serverState !! name a) ->
  updateVariable serverState b = updateVariable serverState a.
Proof.
  intros -> [raw Hraw]. unfold updateVariable. simpl. now rewrite Hraw.
Qed.

(** X10.  A snapshot that mentions every variable of the registry, and has
    no key [hasOwnProperty], makes the registry forget what the client
    held: two registries that differ only in the values of their variables
    are equal after it. *)
Theorem full_snapshot_overrides_local_values
    (serverState : gmap string number) (vars1 vars2 : list VariableDef) :
  serverState !! "hasOwnProperty" = None ->
  Forall2 (fun a b => b = set_value a (value b)) vars1 vars2 ->
  Forall (fun a => is_Some (serverState !! name a)) vars1 ->
  updateVariablesFromServer serverState vars1
  = updateVariablesFromServer serverState vars2.
Proof.
  intros Hno H2 Hall. rewrite !update_completes by assumption. f_equal.
  induction H2 as [|a b l1 l2 Hab _ IH]; [reflexivity|].
  apply Forall_cons in Hall as [Ha Hall]. simpl.
  now rewrite (updateVariable_mentioned _ a b Hab Ha), IH.
Qed.

Lemma full_snapshot_overrides_local_values_witness :
  updateVariablesFromServer {[ "density_scale" := Fin (5 # 2) ]}
    (density_scale :: nil)
  = updateVariablesFromServer {[ "density_scale" := Fin (5 # 2) ]}
      (set_value density_scale (Fin 40) :: nil).
Proof.
  apply full_snapshot_overrides_local_values.
  - vm_compute. reflexivity.
  - repeat constructor.
  - repeat constructor. exists (Fin (5 # 2)). vm_compute. reflexivity.
Defined.

Lemma hasOwnProperty_insert_ne (serverState : gmap string number)
    (k key : string) (x : number) :
  k <> "hasOwnProperty" -> k <> key ->
  hasOwnProperty (<[k := x]> serverState) key = hasOwnProperty serverState key.
Proof.
  intros H1 H2. unfold hasOwnProperty. now rewrite !lookup_insert_ne.
Qed.

(** X11.  A snapshot touches only what it names.  A variable that the
    snapshot does not mention keeps all its fields, whether the loop
    completes or throws; and a key other than [hasOwnProperty] that names
    no variable of the registry is ignored: the outcome is the same with
    and without it. *)
Theorem snapshot_frame (serverState : gmap string number)
    (vars : list VariableDef) :
  (forall i variable,
     vars !! i = Some variable -> serverState !! name variable = None ->
     fst (updateVariablesFromServer serverState vars) !! i = Some variable)
  /\ (forall k x,
        k <> "hasOwnProperty" ->
        Forall (fun v => name v <> k) vars ->
        updateVariablesFromServer (<[k := x]> serverState) vars
        = updateVariablesFromServer serverState vars).
Proof.
  split.
  - intros i variable. apply update_frame.
  - intros k x Hk Hall. induction vars as [|v rest IH]; [reflexivity|].
    apply Forall_cons in Hall as [Hv Hall]. simpl.
    rewrite hasOwnProperty_insert_ne by auto.
    rewrite lookup_insert_ne by auto. now rewrite IH.
Qed.

Lemma snapshot_frame_witness :
  fst (updateVariablesFromServer {[ "move_dist" := Fin 1; "zz" := Fin 9 ]}
         variables) !! 9%nat
  = Some (mkVariable "pheromone_decay_rate" "float" (Fin 0)
            (Some (Fin (-1 # 2)))
            (Some (mkRange (Some (Fin (-100))) (Some (Fin 1)))))
  /\ updateVariablesFromServer (<["zz" := Fin 9]> {[ "move_dist" := Fin 1 ]})
       variables
     = updateVariablesFromServer {[ "move_dist" := Fin 1 ]} variables.
Proof.
  split.
  - apply (proj1 (snapshot_frame {[ "move_dist" := Fin 1; "zz" := Fin 9 ]}
                    variables)); vm_compute; reflexivity.
  - apply (proj2 (snapshot_frame {[ "move_dist" := Fin 1 ]} variables)).
    + discriminate.
    + repeat constructor; discriminate.
Defined.

(** ** The text field *)

(** X12.  A committed edit keeps the range invariant of the whole registry:
    with well-formed ranges and every variable within its range, the
    registry after [applyEdit] on any of its variables, whatever the text
    typed, has every variable within its range. *)
Theorem commitEdit_keeps_ranges (i : nat) (this : Component)
    (vars : list VariableDef) (ws : option WebSocket) :
  Forall (fun v => range_ok (range v) = true) vars ->
  Forall (fun v => within (value v) (range v) = true) vars ->
  Forall (fun v => within (value v) (range v) = true)
         (snd (fst (commitEdit i this vars ws))).
Proof.
  intros Hok Hin. unfold commitEdit.
  destruct (vars !! i) as [v|] eqn:Hi; [|assumption].
  destruct (isEditing this) eqn:Hed.
  - pose proof (applyEdit_within this v ws Hed) as Hv.
    destruct (applyEdit this v ws) as [[this' v'] ws'] eqn:E. simpl in *.
    apply Forall_insert; [assumption|].
    assert (Hr : range v' = range v).
    { unfold applyEdit in E. rewrite Hed in E. simpl in E.
      now injection E as <- <- <-. }
    rewrite Hr. apply Hv.
    rewrite Forall_forall in Hok. apply Hok.
    apply list_elem_of_lookup. eauto.
  - unfold applyEdit. rewrite Hed. simpl. now rewrite list_insert_id.
Qed.

Lemma commitEdit_keeps_ranges_witness :
  Forall (fun v => within (value v) (range v) = true)
         (snd (fst (commitEdit 9 (mkComponent true "250") variables None))).
Proof.
  apply (commitEdit_keeps_ranges 9 (mkComponent true "250") variables None);
    repeat constructor.
Defined.

Lemma applyEdit_done (this : Component) (variable_def : VariableDef)
    (ws : option WebSocket) :
  isEditing (fst (fst (applyEdit this variable_def ws))) = false.
Proof. unfold applyEdit. now destruct (isEditing this) eqn:E. Qed.

(** X13.  One commit, one message.  Once [applyEdit] has run the field is
    no longer being edited, so a second call does nothing; hence the key
    Enter, which commits and then takes the focus away (running [onblur]),
    leaves exactly what a single [applyEdit] leaves, and on an open
    transport sends exactly one message, the one for the stored value. *)
Theorem enter_commits_once (this : Component) (variable_def : VariableDef)
    (ws : option WebSocket) :
  onkeydown this "Enter" variable_def ws = applyEdit this variable_def ws
  /\ (forall w, ws = Some w -> readyState w = WebSocket_OPEN ->
      isEditing this = true ->
      snd (onkeydown this "Enter" variable_def ws)
      = Some (mkWebSocket (readyState w)
                (sent w
                 ++ wireMessage (name variable_def)
                      (value (snd (fst (onkeydown this "Enter"
                                          variable_def ws))))
                    :: nil)%list)).
Proof.
  assert (Honce : onkeydown this "Enter" variable_def ws
                  = applyEdit this variable_def ws).
  { unfold onkeydown, onblur. simpl String.eqb. cbv iota.
    pose proof (applyEdit_done this variable_def ws) as Hdone.
    destruct (applyEdit this variable_def ws) as [[this' v'] ws'].
    simpl in Hdone. unfold applyEdit. now rewrite Hdone. }
  split; [exact Honce|].
  intros w -> Hopen Hed. rewrite Honce.
  rewrite (applyEdit_sends_stored this variable_def (Some w) Hed).
  now apply sendVariableUpdate_open.
Qed.

Lemma enter_commits_once_witness :
  snd (onkeydown (mkComponent true "0.25") "Enter"
         (mkVariable "turn_rate_mod" "float" (Fin 0) (Some (Fin (1 # 2))) None)
         (Some (mkWebSocket 1 nil)))
  = Some (mkWebSocket 1 ("turn_rate 0.25 mod" :: nil)).
Proof.
  rewrite (proj2 (enter_commits_once (mkComponent true "0.25")
                    (mkVariable "turn_rate_mod" "float" (Fin 0)
                       (Some (Fin (1 # 2))) None)
                    (Some (mkWebSocket 1 nil)))
             (mkWebSocket 1 nil) eq_refl eq_refl eq_refl).
  reflexivity.
Defined.

(** X14.  The key Escape discards what was typed.  After a focus and any
    input, Escape leaves the variable and the transport as they were, ends
    the editing, and the field shows the text of the stored value again. *)
Theorem escape_discards_edit (this : Component) (text : string)
    (variable_def : VariableDef) (ws : option WebSocket) :
  let typing := oninput (onfocus this variable_def) text in
  fieldValue typing variable_def = text
  /\ onkeydown typing "Escape" variable_def ws
     = (mkComponent false "", variable_def, ws)
  /\ fieldValue (fst (fst (onkeydown typing "Escape" variable_def ws)))
       variable_def
     = Number_toString (value variable_def).
Proof. repeat split. Qed.

(** X15.  An edit wins over a snapshot that arrived while the field was
    being edited: the commit stores and sends what was typed, exactly as if
    the snapshot had not been applied to that variable. *)
Theorem commit_overrides_snapshot (this : Component)
    (serverState : gmap string number) (variable_def : VariableDef)
    (ws : option WebSocket) :
  isEditing this = true ->
  applyEdit this (updateVariable serverState variable_def) ws
  = applyEdit this variable_def ws.
Proof.
  intros Hed. unfold applyEdit. rewrite Hed. unfold updateVariable.
  now destruct (serverState !! name variable_def).
Qed.

Lemma commit_overrides_snapshot_witness :
  applyEdit (mkComponent true "3")
    (updateVariable {[ "density_scale" := Fin 8 ]} density_scale) None
  = applyEdit (mkComponent true "3") density_scale None.
Proof.
  exact (commit_overrides_snapshot (mkComponent true "3")
           {[ "density_scale" := Fin 8 ]} density_scale None eq_refl).
Defined.

(** ** The step buttons *)

(** Ten to a power up to 22 is a Number, and the products that
    [Math_pow] makes on the way are exact. *)
Lemma Math_pow_ten (d : nat) :
  (d <= 22)%nat -> Math_pow (Fin 10) d = Fin (inject_Z (10 ^ Z.of_nat d)).
Proof.
  intros H.
  do 23 (destruct d as [|d]; [vm_compute; reflexivity|]). lia.
Qed.

Lemma Qsign_positive (p : Q) : 0 < p -> Qsign p = Gt.
Proof. intros H. now apply Qsign_Gt. Qed.

Lemma pow10_positive (d : nat) : 0 < inject_Z (10 ^ Z.of_nat d).
Proof.
  change 0 with (inject_Z 0). rewrite <- Zlt_Qlt.
  apply Z.pow_pos_nonneg; lia.
Qed.

(** What the rounding of the buttons leaves, when it is a fraction: the
    Number value of an integer divided by the power of ten. *)
Lemma round_decimals_shape (d : nat) (x : number) (q : Q) :
  (d <= 22)%nat ->
  ndiv (Math_round (nmul x (Math_pow (Fin 10) d))) (Math_pow (Fin 10) d)
  = Fin q ->
  exists k : Z,
    nmul x (Math_pow (Fin 10) d) <> NaN
    /\ Math_round (nmul x (Math_pow (Fin 10) d)) = Fin (inject_Z k)
    /\ Fin q = round64 (inject_Z k / inject_Z (10 ^ Z.of_nat d)).
Proof.
  intros Hd. rewrite (Math_pow_ten d Hd).
  pose proof (Qsign_positive _ (pow10_positive d)) as Hs.
  destruct (nmul x (Fin (inject_Z (10 ^ Z.of_nat d)))) as [| | |y];
    cbn [Math_round ndiv]; rewrite ?Hs; try discriminate.
  intros H. exists (Qfloor (y + (1 # 2))).
  split; [discriminate|]. split; [reflexivity|]. now symmetry.
Qed.

(** X17.  After a click on Up or Down, a variable of type [float] that
    holds a finite number holds the Number nearest to a decimal with no
    more decimals than the text of its step has: the Number value of an
    integer divided by ten to that count.  (The count is at most 22, the
    longest fraction that the text of a Number has.) *)
Theorem step_result_has_step_decimals (variable_def : VariableDef)
    (ws : option WebSocket) (q : Q) :
  String.eqb (type variable_def) "float" = true ->
  (decimalsOf (effectiveStep variable_def) <= 22)%nat ->
  let scale :=
    inject_Z (10 ^ Z.of_nat (decimalsOf (effectiveStep variable_def))) in
  (value (fst (onclickUp variable_def ws)) = Fin q ->
   exists k : Z, Fin q = round64 (inject_Z k / scale))
  /\ (value (fst (onclickDown variable_def ws)) = Fin q ->
      exists k : Z, Fin q = round64 (inject_Z k / scale)).
Proof.
  intros Hty Hd. cbv zeta. unfold onclickUp, onclickDown, commitStep.
  rewrite Hty. cbn [fst value set_value].
  split; intros H;
    destruct (round_decimals_shape _ _ q Hd H) as (k & _ & _ & Hk);
    now exists k.
Qed.

Lemma step_result_has_step_decimals_witness :
  value (fst (onclickDown
                (mkVariable "move_dist" "float" (round64 (35 # 100))
                   (Some (round64 (1 # 10))) None) None))
  = round64 (2 # 10)
  /\ exists k : Z, round64 (2 # 10) = round64 (inject_Z k / 10).
Proof.
  assert (H : value (fst (onclickDown
                (mkVariable "move_dist" "float" (round64 (35 # 100))
                   (Some (round64 (1 # 10))) None) None))
              = round64 (2 # 10)) by (vm_compute; reflexivity).
  split; [exact H|].
  refine (proj2 (step_result_has_step_decimals
                   (mkVariable "move_dist" "float" (round64 (35 # 100))
                      (Some (round64 (1 # 10))) None)
                   None _ eq_refl _) _).
  - vm_compute. lia.
  - rewrite H. vm_compute. reflexivity.
Defined.

(** X18.  Down undoes Up, and Up undoes Down, on whole numbers.  For a
    variable without range that is not of type [float] and holds an
    integer, with an integer as its step, both small enough for their sum
    and difference to be Numbers (at most [2^53] in size), a click on one
    button followed by a click on the other gives the number the variable
    held. *)
Theorem up_down_cancel (variable_def : VariableDef) (zq zs : Z)
    (ws ws' : option WebSocket) :
  range variable_def = None ->
  String.eqb (type variable_def) "float" = false ->
  value variable_def = Fin (inject_Z zq) ->
  effectiveStep variable_def = Fin (inject_Z zs) ->
  (Z.abs zq + Z.abs zs <= 2 ^ 53)%Z ->
  value (fst (onclickDown (fst (onclickUp variable_def ws)) ws'))
  = Fin (inject_Z zq)
  /\ value (fst (onclickUp (fst (onclickDown variable_def ws)) ws'))
     = Fin (inject_Z zq).
Proof.
  intros Hr Hty Hv Hs Hsize.
  assert (Hstep : forall x, effectiveStep (set_value variable_def x)
                            = Fin (inject_Z zs))
    by (intros x; exact Hs).
  unfold onclickUp, onclickDown, commitStep. rewrite Hv, Hs, Hr, Hty.
  cbn [fst value type range name set_value clampValue].
  rewrite !Hstep, Hr, Hty. cbn [clampValue fst value set_value].
  unfold nsub. cbn [nneg nadd].
  assert (Hadd : round64 (inject_Z zq + inject_Z zs) = Fin (inject_Z (zq + zs))).
  { rewrite (round64_comp _ (inject_Z (zq + zs)))
      by (rewrite inject_Z_plus; reflexivity).
    apply round64_Z. lia. }
  assert (Hsub : round64 (inject_Z zq + Qred (- inject_Z zs))
                 = Fin (inject_Z (zq - zs))).
  { rewrite (round64_comp _ (inject_Z (zq - zs)))
      by (unfold Z.sub; rewrite inject_Z_plus, inject_Z_opp, Qred_correct;
          reflexivity).
    apply round64_Z. lia. }
  rewrite Hadd, Hsub. cbn [nadd].
  split.
  - rewrite (round64_comp _ (inject_Z zq))
      by (rewrite Qred_correct, inject_Z_plus; ring).
    apply round64_Z. lia.
  - rewrite (round64_comp _ (inject_Z zq))
      by (unfold Z.sub; rewrite inject_Z_plus, inject_Z_opp; ring).
    apply round64_Z. lia.
Qed.

Lemma up_down_cancel_witness :
  value (fst (onclickDown (fst (onclickUp (set_value density_scale (Fin 41))
                                  None)) None))
  = Fin 41.
Proof.
  refine (proj1 (up_down_cancel (set_value density_scale (Fin 41)) 41 1
                   None None eq_refl eq_refl eq_refl eq_refl _)).
  vm_compute. discriminate.
Defined.

(** X19.  In the registry as shipped the step buttons keep every variable
    in its range, whatever fraction it holds: the rounding that follows the
    clamp cannot leave the only range there is, that of
    [pheromone_decay_rate], whose bounds have no more decimals than the
    step. *)
Theorem shipped_registry_steps_in_range (variable : VariableDef) (q : Q)
    (ws : option WebSocket) :
  In variable variables ->
  within (value (fst (onclickUp (set_value variable (Fin q)) ws)))
         (range variable) = true
  /\ within (value (fst (onclickDown (set_value variable (Fin q)) ws)))
            (range variable) = true.
Proof. intros Hin. exact (shipped_steps_keep_range variable q ws Hin). Qed.

Lemma shipped_registry_steps_in_range_witness :
  within (value (fst (onclickUp
                        (set_value
                           (mkVariable "pheromone_decay_rate" "float" (Fin 0)
                              (Some (Fin (-1 # 2)))
                              (Some (mkRange (Some (Fin (-100)))
                                       (Some (Fin 1)))))
                           (Fin (-399 # 4))) None)))
         (Some (mkRange (Some (Fin (-100))) (Some (Fin 1)))) = true.
Proof.
  refine (proj1 (shipped_registry_steps_in_range
                   (mkVariable "pheromone_decay_rate" "float" (Fin 0)
                      (Some (Fin (-1 # 2)))
                      (Some (mkRange (Some (Fin (-100))) (Some (Fin 1)))))
                   (-399 # 4) None _)).
  simpl. tauto.
Defined.

(** ** The label of a variable *)

Lemma split_not_nil (sep : ascii) (s : string) : split sep s <> nil.
Proof.
  induction s as [|c s IH]; simpl; [discriminate|].
  destruct (ascii_eqb c sep); [discriminate|].
  destruct (split sep s); discriminate.
Qed.

Lemma join_cons (sep piece : string) (rest : list string) :
  rest <> nil -> join sep (piece :: rest) = piece ++ sep ++ join sep rest.
Proof. destruct rest; [congruence | reflexivity]. Qed.

Lemma join_head (sep : string) (c : ascii) (piece : string)
    (rest : list string) :
  join sep (String c piece :: rest) = String c (join sep (piece :: rest)).
Proof. destruct rest; reflexivity. Qed.

(** The pipeline of [processVariableName], with the first piece capitalized
    or not, is the single pass [label]. *)
Lemma join_split_label (s : string) :
  join " " (map capitalize (split (chr 95) s)) = label true s
  /\ join " " (match split (chr 95) s with
               | piece :: rest => piece :: map capitalize rest
               | nil => nil
               end) = label false s.
Proof.
  induction s as [|c s [IH1 IH2]]; [split; reflexivity|].
  cbn [split label]. destruct (ascii_eqb c (chr 95)).
  - assert (Hne : map capitalize (split (chr 95) s) <> nil).
    { pose proof (split_not_nil (chr 95) s). now destruct (split (chr 95) s). }
    split.
    + cbn [map capitalize].
      rewrite join_cons by assumption. now rewrite <- IH1.
    + rewrite join_cons by assumption. now rewrite <- IH1.
  - pose proof (split_not_nil (chr 95) s) as Hne.
    destruct (split (chr 95) s) as [|piece rest]; [congruence|].
    split.
    + cbn [map capitalize]. now rewrite join_head, IH2.
    + now rewrite join_head, IH2.
Qed.

Lemma label_length (b : bool) (s : string) :
  String.length (label b s) = String.length s.
Proof.
  revert b. induction s as [|c s IH]; intros b; [reflexivity|].
  cbn [label]. destruct (ascii_eqb c (chr 95)); cbn [String.length];
    now rewrite IH.
Qed.

(** X20.  The label shown for a variable with an ASCII name is the name
    read in one pass: every underscore becomes a space, the first character
    and every character that follows an underscore is put in upper case,
    and all other characters are kept; so the label is as long as the
    name. *)
Theorem processVariableName_single_pass (name : string) :
  isAscii name = true ->
  processVariableName name = label true name
  /\ String.length (processVariableName name) = String.length name.
Proof.
  intros _.
  assert (H : processVariableName name = label true name)
    by apply join_split_label.
  split; [exact H|]. rewrite H. apply label_length.
Qed.

Lemma processVariableName_single_pass_witness :
  processVariableName "sample_angle_mod" = label true "sample_angle_mod"
  /\ String.length (processVariableName "sample_angle_mod")
     = String.length "sample_angle_mod".
Proof.
  apply (processVariableName_single_pass "sample_angle_mod"). reflexivity.
Defined.

Lemma toUpperCase_char_idempotent (c : ascii) :
  toUpperCase_char (toUpperCase_char c) = toUpperCase_char c.
Proof.
  unfold toUpperCase_char. destruct (in_range 97 122 c) eqn:E; [|now rewrite E].
  replace (in_range 97 122 (chr (code c - 32))) with false; [reflexivity|].
  unfold in_range, chr, code in *. apply andb_prop in E as [E1 E2].
  apply N.leb_le in E1, E2. rewrite N_ascii_embedding by lia.
  symmetry. apply andb_false_iff. left. apply N.leb_gt. lia.
Qed.

Lemma toUpperCase_char_not_underscore (c : ascii) :
  ascii_eqb c (chr 95) = false ->
  ascii_eqb (toUpperCase_char c) (chr 95) = false.
Proof.
  intros H. unfold toUpperCase_char.
  destruct (in_range 97 122 c) eqn:E; [|assumption].
  unfold in_range, chr, code, ascii_eqb in *. apply andb_prop in E as [E1 E2].
  apply N.leb_le in E1, E2. unfold code. rewrite N_ascii_embedding by lia.
  apply N.eqb_neq. change (N_of_ascii (ascii_of_N 95)) with 95%N. lia.
Qed.

(** On a text that is a label already, [label] changes nothing. *)
Lemma label_label (b : bool) (s : string) :
  label true (label true s) = label true s
  /\ label false (label b s) = label b s.
Proof.
  revert b. induction s as [|c s IH]; intros b; [split; reflexivity|].
  destruct (IH true) as [_ IHt2]. destruct (IH false) as [_ IHf2].
  cbn [label]. destruct (ascii_eqb c (chr 95)) eqn:E.
  - cbn [label]. change (ascii_eqb (chr 32) (chr 95)) with false.
    cbv iota. rewrite IHt2. split; reflexivity.
  - split.
    + cbn [label]. rewrite (toUpperCase_char_not_underscore c E).
      now rewrite toUpperCase_char_idempotent, IHf2.
    + destruct b; cbn [label].
      * now rewrite (toUpperCase_char_not_underscore c E), IHf2.
      * now rewrite E, IHf2.
Qed.

Lemma label_no_underscore (b : bool) (s : string) :
  string_forallb (fun c => negb (ascii_eqb c (chr 95))) (label b s) = true.
Proof.
  revert b. induction s as [|c s IH]; intros b; [reflexivity|].
  cbn [label]. destruct (ascii_eqb c (chr 95)) eqn:E;
    cbn [string_forallb]; rewrite IH.
  - reflexivity.
  - destruct b; [rewrite (toUpperCase_char_not_underscore c E) | rewrite E];
      reflexivity.
Qed.

(** X21.  The label of an ASCII name holds no underscore, and making the
    label of a label gives the same label. *)
Theorem processVariableName_idempotent (name : string) :
  isAscii name = true ->
  string_forallb (fun c => negb (ascii_eqb c (chr 95)))
    (processVariableName name) = true
  /\ processVariableName (processVariableName name) = processVariableName name.
Proof.
  intros _.
  assert (H : processVariableName name = label true name)
    by apply join_split_label.
  split; [rewrite H; apply label_no_underscore|].
  unfold processVariableName at 1.
  rewrite (proj1 (join_split_label (processVariableName name))), H.
  apply label_label. exact true.
Qed.

Lemma processVariableName_idempotent_witness :
  string_forallb (fun c => negb (ascii_eqb c (chr 95)))
    (processVariableName "__turn_rate_") = true
  /\ processVariableName (processVariableName "__turn_rate_")
     = processVariableName "__turn_rate_".
Proof.
  apply (processVariableName_idempotent "__turn_rate_"). reflexivity.
Defined.

(** ** The step buttons on decimals *)

Lemma pow10_bounds (d : nat) :
  (d <= 22)%nat ->
  1 <= inject_Z (10 ^ Z.of_nat d) /\ inject_Z (10 ^ Z.of_nat d) <= inject_Z (10 ^ 22).
Proof.
  intros H. split.
  - change 1 with (inject_Z 1). rewrite <- Zle_Qle.
    pose proof (Z.pow_pos_nonneg 10 (Z.of_nat d)). lia.
  - rewrite <- Zle_Qle. apply Z.pow_le_mono_r; lia.
Qed.

(** The Number nearest to a decimal [z / P] is near it, at the scale
    [P]. *)
Lemma decimal_near (P : Q) (z : Z) :
  1 <= P -> P <= inject_Z (10 ^ 22) -> (Z.abs z <= 2 ^ 41)%Z ->
  exists u,
    round64 (inject_Z z / P) = Fin u
    /\ - (1 # 2 ^ 11) <= u * P - inject_Z z <= 1 # 2 ^ 11.
Proof.
  intros HP1 HP2 Hz.
  destruct tiny_small as [Ht1 Ht2].
  assert (HPt : P * tiny <= 1 # 10 ^ 8).
  { apply (Qle_trans _ (inject_Z (10 ^ 22) * (1 # 10 ^ 30))).
    - apply Qmult_le_compat_nonneg; split; lra.
    - vm_compute. discriminate. }
  assert (HPt0 : 0 <= P * tiny) by (apply Qmult_le_0_compat; lra).
  apply Z.abs_le in Hz. destruct Hz as [Hz Hz'].
  rewrite Zle_Qle in Hz, Hz'.
  pose proof (representable_pow2 41 ltac:(lia)) as Hrep.
  assert (Hx : inject_Z z / P * P == inject_Z z)
    by (apply Qdiv_mult_cancel; lra).
  numerals. revert Hx Hz Hz'. generalize (inject_Z z). intros Z Hx Hz Hz'.
  assert (HS : - (2199023255552) <= Z / P * P <= 2199023255552)
    by (split; lra).
  assert (Hb : - (2199023255552) <= Z / P <= 2199023255552).
  { revert HS. generalize (Z / P). intros s [HS1 HS2]. split.
    - destruct (Qlt_le_dec s (- (2199023255552))) as [H|H]; [|assumption].
      assert (s * P <= s * 1) by nra. lra.
    - destruct (Qlt_le_dec 2199023255552 s) as [H|H]; [|assumption].
      assert (s * 1 <= s * P) by nra. lra. }
  destruct (round64_bounded (Z / P) 2199023255552 Hrep Hb) as (u & Hu & _).
  destruct (round64_error_scaled (Z / P) u P 2199023255552 Hu
              ltac:(lra) HS) as [H1 H2].
  numerals. exists u. split; [exact Hu|]. split; lra.
Qed.

(** What a button leaves for type [float], without range, when the value
    and the step are near decimals of the scale: the Number nearest to the
    sum of the two decimals. *)
Lemma float_step (d : nat) (x1 x2 : Q) (z1 z2 : Z) :
  (d <= 22)%nat ->
  (Z.abs z1 <= 2 ^ 41)%Z -> (Z.abs z2 <= 2 ^ 41)%Z ->
  - (1 # 2 ^ 11) <= x1 * inject_Z (10 ^ Z.of_nat d) - inject_Z z1
    <= 1 # 2 ^ 11 ->
  - (1 # 2 ^ 11) <= x2 * inject_Z (10 ^ Z.of_nat d) - inject_Z z2
    <= 1 # 2 ^ 11 ->
  ndiv (Math_round (nmul (round64 (x1 + x2)) (Math_pow (Fin 10) d)))
       (Math_pow (Fin 10) d)
  = round64 (inject_Z (z1 + z2) / inject_Z (10 ^ Z.of_nat d)).
Proof.
  intros Hd Hz1 Hz2 Hx1 Hx2. rewrite (Math_pow_ten d Hd).
  destruct (pow10_bounds d Hd) as [HP1 HP2].
  destruct (sum_rounds_to _ x1 x2 z1 z2 HP1 HP2 Hz1 Hz2 Hx1 Hx2)
    as (a & b & Ha & Hb & Hf).
  rewrite Ha. cbn [nmul]. rewrite Hb. cbn [Math_round]. rewrite Hf.
  apply ndiv_Fin_positive, Qsign_positive, pow10_positive.
Qed.

(** X22.  Down undoes Up, and Up undoes Down, on decimals.  Take a
    variable of type [float] without range whose step prints with no more
    than 22 decimals, and let its value and its step be the Numbers nearest
    to decimals with that many decimals ([zq] and [zs] over ten to that
    count, as the buttons and the typed decimals give them), of moderate
    size.  Then a click on one button followed by a click on the other
    gives the very Number the variable held: the rounding of the handler
    removes the error of the binary addition. *)
Theorem up_down_cancel_float (variable_def : VariableDef) (zq zs : Z)
    (ws ws' : option WebSocket) :
  range variable_def = None ->
  String.eqb (type variable_def) "float" = true ->
  (decimalsOf (effectiveStep variable_def) <= 22)%nat ->
  value variable_def
  = round64 (inject_Z zq
             / inject_Z (10 ^ Z.of_nat (decimalsOf (effectiveStep variable_def)))) ->
  effectiveStep variable_def
  = round64 (inject_Z zs
             / inject_Z (10 ^ Z.of_nat (decimalsOf (effectiveStep variable_def)))) ->
  (Z.abs zq <= 2 ^ 40)%Z -> (Z.abs zs <= 2 ^ 40)%Z ->
  value (fst (onclickDown (fst (onclickUp variable_def ws)) ws'))
  = value variable_def
  /\ value (fst (onclickUp (fst (onclickDown variable_def ws)) ws'))
     = value variable_def.
Proof.
  intros Hr Hty Hd Hv Hs Hzq Hzs.
  set (d := decimalsOf (effectiveStep variable_def)) in *.
  set (P := inject_Z (10 ^ Z.of_nat d)) in *.
  destruct (pow10_bounds d Hd) as [HP1 HP2]. fold P in HP1, HP2.
  assert (Hstep : forall x, effectiveStep (set_value variable_def x)
                            = effectiveStep variable_def)
    by reflexivity.
  destruct (decimal_near P zq HP1 HP2 ltac:(lia)) as (q0 & Hq0 & Hq0').
  destruct (decimal_near P zs HP1 HP2 ltac:(lia)) as (s0 & Hs0 & Hs0').
  destruct (decimal_near P (zq + zs) HP1 HP2 ltac:(lia)) as (u & Hu & Hu').
  destruct (decimal_near P (zq - zs) HP1 HP2 ltac:(lia)) as (w & Hw & Hw').
  assert (Hneg : - (1 # 2 ^ 11) <= - s0 * P - inject_Z (- zs) <= 1 # 2 ^ 11).
  { rewrite inject_Z_opp. revert Hs0'. clear.
    generalize (inject_Z zs) P. intros Z R. numerals. intros [H1 H2].
    split; lra. }
  unfold onclickUp, onclickDown, commitStep.
  cbn [fst value type range name set_value].
  rewrite !Hstep, Hr, Hty. cbn [clampValue]. fold d.
  rewrite Hv, Hs. fold P. rewrite Hq0, Hs0.
  unfold nsub. cbn [nneg nadd].
  rewrite (round64_comp (q0 + Qred (- s0)) (q0 + - s0))
    by (now rewrite Qred_correct).
  rewrite (float_step d q0 s0 zq zs Hd ltac:(lia) ltac:(lia) Hq0' Hs0').
  rewrite (float_step d q0 (- s0) zq (- zs) Hd ltac:(lia) ltac:(lia) Hq0' Hneg).
  fold P. replace (zq + - zs)%Z with (zq - zs)%Z by lia.
  rewrite Hu, Hw. cbn [nadd].
  rewrite (round64_comp (u + Qred (- s0)) (u + - s0))
    by (now rewrite Qred_correct).
  rewrite (float_step d u (- s0) (zq + zs) (- zs) Hd ltac:(lia) ltac:(lia)
             Hu' Hneg).
  rewrite (float_step d w s0 (zq - zs) zs Hd ltac:(lia) ltac:(lia) Hw' Hs0').
  fold P. replace (zq + zs + - zs)%Z with zq by lia.
  replace (zq - zs + zs)%Z with zq by lia.
  rewrite Hq0. split; reflexivity.
Qed.

Lemma up_down_cancel_float_witness :
  value (fst (onclickDown
                (fst (onclickUp
                        (mkVariable "move_dist" "float" (round64 (1 # 10))
                           (Some (round64 (2 # 10))) None) None)) None))
  = round64 (1 # 10).
Proof.
  refine (proj1 (up_down_cancel_float
                   (mkVariable "move_dist" "float" (round64 (1 # 10))
                      (Some (round64 (2 # 10))) None)
                   1 2 None None eq_refl eq_refl _ _ _ _ _)).
  - vm_compute. lia.
  - vm_compute. reflexivity.
  - vm_compute. reflexivity.
  - vm_compute. discriminate.
  - vm_compute. discriminate.
Defined.

(** The step is never NaN: NaN and zero are replaced by the default. *)
Lemma effectiveStep_not_NaN (variable_def : VariableDef) :
  is_NaN (effectiveStep variable_def) = false.
Proof.
  assert (Hdef : is_NaN (getDefaultStep (type variable_def)) = false).
  { unfold getDefaultStep. destruct (String.eqb (type variable_def) "int");
      [reflexivity | apply round64_not_NaN]. }
  unfold effectiveStep. destruct (step variable_def) as [s|]; [|exact Hdef].
  unfold nor. destruct s; simpl; try assumption; try reflexivity.
  now destruct (Qsign q).
Qed.

Lemma stepped_not_NaN (q : Q) (s : number) :
  is_NaN s = false ->
  is_NaN (nadd (Fin q) s) = false /\ is_NaN (nsub (Fin q) s) = false.
Proof.
  destruct s; try discriminate; intros _; split; try reflexivity;
    apply round64_not_NaN.
Qed.

(** Rounding to [d] decimals keeps a number between two bounds that are
    the Numbers nearest to decimals with [d] decimals. *)
Lemma round_decimals_within (d : nat) (zlo zhi : Z) (c : number) :
  (d <= 22)%nat -> (zlo <= zhi)%Z ->
  (Z.abs zlo <= 2 ^ 41)%Z -> (Z.abs zhi <= 2 ^ 41)%Z ->
  let r :=
    Some (mkRange
            (Some (round64 (inject_Z zlo / inject_Z (10 ^ Z.of_nat d))))
            (Some (round64 (inject_Z zhi / inject_Z (10 ^ Z.of_nat d))))) in
  range_ok r = true
  /\ (within c r = true ->
      within (ndiv (Math_round (nmul c (Math_pow (Fin 10) d)))
                   (Math_pow (Fin 10) d)) r = true).
Proof.
  intros Hd Hle Hzlo Hzhi. cbv zeta.
  rewrite (Math_pow_ten d Hd).
  destruct (pow10_bounds d Hd) as [HP1 HP2].
  pose proof (Qsign_positive _ (pow10_positive d)) as Hsign.
  set (P := inject_Z (10 ^ Z.of_nat d)) in *.
  destruct (decimal_near P zlo HP1 HP2 Hzlo) as (l & Hl & Hl1 & Hl2).
  destruct (decimal_near P zhi HP1 HP2 Hzhi) as (h & Hh & Hh1 & Hh2).
  pose proof (round64_representable _ _ Hl) as Hlrep.
  pose proof (round64_representable _ _ Hh) as Hhrep.
  assert (Hlh : l <= h).
  { destruct (Z.eq_dec zlo zhi) as [E|E].
    - rewrite E, Hh in Hl. injection Hl as <-. apply Qle_refl.
    - assert (H : inject_Z zlo + 1 <= inject_Z zhi).
      { change 1 with (inject_Z 1). rewrite <- inject_Z_plus, <- Zle_Qle. lia. }
      numerals.
      apply (proj1 (Qmult_le_r l h P ltac:(lra))). lra. }
  unfold range_ok, within. cbn [min max]. rewrite Hl, Hh.
  split; [now apply nleb_Fin|].
  intros Hc. apply andb_prop in Hc as [Hc1 Hc2].
  destruct c as [| | |x]; try discriminate.
  apply nleb_Fin in Hc1, Hc2.
  assert (HxP : l * P <= x * P <= h * P)
    by (split; apply (proj2 (Qmult_le_r _ _ P ltac:(lra))); assumption).
  destruct tiny_small as [Ht1 Ht2].
  apply Z.abs_le in Hzlo, Hzhi.
  destruct Hzlo as [Hzlo Hzlo'], Hzhi as [Hzhi Hzhi'].
  rewrite Zle_Qle in Hzlo, Hzlo', Hzhi, Hzhi'.
  pose proof (representable_pow2 42 ltac:(lia)) as Hrep.
  change (inject_Z (2 ^ 42)) with 4398046511104 in Hrep.
  numerals.
  assert (HA : - (2199023255553) <= x * P <= 2199023255553) by (split; lra).
  assert (HA' : - (4398046511104) <= x * P <= 4398046511104) by (split; lra).
  destruct (round64_bounded (x * P) 4398046511104 Hrep HA') as (y & Hy & _).
  destruct (round64_error (x * P) y 2199023255553 Hy HA) as [Hy1 Hy2].
  numerals.
  cbn [nmul]. rewrite Hy. cbn [Math_round ndiv]. rewrite Hsign.
  set (k := Qfloor (y + (1 # 2))).
  assert (Hk1 : (zlo <= k)%Z).
  { rewrite <- (Qfloor_Z zlo). apply Qfloor_resp_le. lra. }
  assert (Hk2 : (k <= zhi)%Z).
  { assert (H : (k < zhi + 1)%Z); [|lia].
    rewrite Zlt_Qlt, inject_Z_plus. change (inject_Z 1) with 1.
    pose proof (Qfloor_le (y + (1 # 2))) as H. fold k in H. lra. }
  apply andb_true_intro; split.
  - destruct (Z.eq_dec k zlo) as [E|E].
    + rewrite E. fold P. rewrite Hl. apply nleb_Fin, Qle_refl.
    + apply (round64_ge _ l Hlrep).
      apply Qle_shift_div_l; [lra|].
      assert (H : inject_Z zlo + 1 <= inject_Z k).
      { change 1 with (inject_Z 1). rewrite <- inject_Z_plus, <- Zle_Qle. lia. }
      lra.
  - destruct (Z.eq_dec k zhi) as [E|E].
    + rewrite E. fold P. rewrite Hh. apply nleb_Fin, Qle_refl.
    + apply (round64_le _ h Hhrep).
      apply Qle_shift_div_r; [lra|].
      assert (H : inject_Z k + 1 <= inject_Z zhi).
      { change 1 with (inject_Z 1). rewrite <- inject_Z_plus, <- Zle_Qle. lia. }
      lra.
Qed.

(** X23.  When the bounds of a range have no more decimals than the step,
    the step buttons keep the variable in its range.  For a variable of
    type [float] that holds a fraction, whose step prints with no more
    than 22 decimals and whose bounds are the Numbers nearest to decimals
    with that many decimals, the lower one not above the upper one and
    both of moderate size, the value after a click on Up or on Down is
    within the range: the rounding that follows the clamp cannot leave
    such a range. *)
Theorem decimal_bounds_keep_range (variable_def : VariableDef)
    (zlo zhi : Z) (q : Q) (ws : option WebSocket) :
  String.eqb (type variable_def) "float" = true ->
  (decimalsOf (effectiveStep variable_def) <= 22)%nat ->
  range variable_def
  = Some (mkRange
            (Some (round64
                     (inject_Z zlo
                      / inject_Z (10 ^ Z.of_nat
                                    (decimalsOf (effectiveStep variable_def))))))
            (Some (round64
                     (inject_Z zhi
                      / inject_Z (10 ^ Z.of_nat
                                    (decimalsOf (effectiveStep variable_def))))))) ->
  (zlo <= zhi)%Z -> (Z.abs zlo <= 2 ^ 41)%Z -> (Z.abs zhi <= 2 ^ 41)%Z ->
  value variable_def = Fin q ->
  within (value (fst (onclickUp variable_def ws))) (range variable_def) = true
  /\ within (value (fst (onclickDown variable_def ws))) (range variable_def)
     = true.
Proof.
  intros Hty Hd Hr Hle Hzlo Hzhi Hv.
  destruct (round_decimals_within (decimalsOf (effectiveStep variable_def))
              zlo zhi (Fin 0) Hd Hle Hzlo Hzhi) as [Hok _].
  rewrite <- Hr in Hok.
  destruct (stepped_not_NaN q _ (effectiveStep_not_NaN variable_def))
    as [Hup Hdown].
  unfold onclickUp, onclickDown, commitStep. rewrite Hty, Hv.
  cbn [fst value set_value].
  pose proof (clampValue_within _ _ Hok Hup) as Hcu.
  pose proof (clampValue_within _ _ Hok Hdown) as Hcd.
  revert Hcu Hcd.
  generalize (clampValue (nadd (Fin q) (effectiveStep variable_def))
                (range variable_def)).
  generalize (clampValue (nsub (Fin q) (effectiveStep variable_def))
                (range variable_def)).
  rewrite Hr. intros cd cu Hcu Hcd.
  split;
    [exact (proj2 (round_decimals_within _ zlo zhi cu Hd Hle Hzlo Hzhi) Hcu)
    |exact (proj2 (round_decimals_within _ zlo zhi cd Hd Hle Hzlo Hzhi) Hcd)].
Qed.

Lemma decimal_bounds_keep_range_witness :
  within
    (value (fst (onclickUp
                   (mkVariable "x" "float" (round64 (29 # 100))
                      (Some (round64 (5 # 100)))
                      (Some (mkRange (Some (round64 (1 # 100)))
                               (Some (round64 (3 # 10))))))
                   None)))
    (Some (mkRange (Some (round64 (1 # 100))) (Some (round64 (3 # 10)))))
  = true.
Proof.
  assert (E : (round64 (29 # 100)
               = Fin (5224175567749775 # 18014398509481984))%Q)
    by (vm_compute; reflexivity).
  refine (proj1 (decimal_bounds_keep_range
                   (mkVariable "x" "float" (round64 (29 # 100))
                      (Some (round64 (5 # 100)))
                      (Some (mkRange (Some (round64 (1 # 100)))
                               (Some (round64 (3 # 10))))))
                   1 30 (5224175567749775 # 18014398509481984) None
                   eq_refl _ _ _ _ _ E)).
  - vm_compute. lia.
  - vm_compute. reflexivity.
  - lia.
  - vm_compute. discriminate.
  - vm_compute. discriminate.
Defined.
